(** * shredsim/utils.py: the shred grid graph, the content predicate and the
    border component filter.

    Conventions of the embedding.
    - A coordinate vector (a 2-element numpy integer array, or a 2-tuple of
      Python ints) is a pair of [Z]; the element-wise numpy operations are
      written per component.  numpy's default integer is taken to be int64:
      an operation on arrays stores its result modulo 2^64, without any
      error ([int64]).  The offsets of a [ShredConfig] are such arrays, as
      [load_targets] builds them; the comparison of an array with the tuple
      [size] is the comparison of integers.
    - Python sets are [gset], dicts are [gmap].
    - [set.pop()] removes an arbitrary element: the loop of [cut_to_shreds]
      is a step relation that may pick any element of [todo], and,
      for running it, a function parameterised by a pop policy.
    - A 2D numpy array ([ndarray]) is the list of its rows.  The elements
      are integers: an array whose elements all lie in 0..255 is a uint8
      array ([is_uint8]), any other array is of a wider integer type.
    - A call either returns or raises: [outcome].
    - A Python float is an IEEE 754 binary64 number: the [spec_float] of
      the standard library at precision 53 and maximal exponent 1024. *)

From stdpp Require Import gmap list.
From Stdlib Require Import ZArith Lia SpecFloat.

#[local] Open Scope Z_scope.
#[local] Set Warnings "-clear-no-such-hyp".

(** ** Python outcomes *)

(** [IndexError] and [ZeroDivisionError] are raised by the interpreter,
    [CvError] ([cv2.error]) by an assertion of OpenCV;
    [InvalidConfiguration] and [InvalidMask] are the conditions the
    specification names: no statement of utils.py raises them. *)
Inductive exn : Type :=
  | IndexError
  | ZeroDivisionError
  | CvError
  | InvalidConfiguration
  | InvalidMask.

Inductive outcome (A : Type) : Type :=
  | Return (a : A)
  | Raise (e : exn).
Arguments Return {A} a.
Arguments Raise {A} e.

(** ** Vectors and images *)

Definition point : Type := Z * Z.

(** The difference of two positions, as integers. *)
Definition vsub (a b : point) : point := (a.1 - b.1, a.2 - b.2).

(** *** numpy int64 *)

Definition int64_min : Z := -9223372036854775808.
Definition int64_max : Z := 9223372036854775807.

Definition is_int64 (z : Z) : bool := (int64_min <=? z) && (z <=? int64_max).

(** The value that an int64 operation stores for the exact result [z]:
    the integer of [int64_min .. int64_max] congruent to [z] modulo 2^64. *)
Definition int64 (z : Z) : Z :=
  (z - int64_min) mod 18446744073709551616 + int64_min.

(** [a + b] and [a - b] on int64 arrays *)
Definition np_add (a b : point) : point := (int64 (a.1 + b.1), int64 (a.2 + b.2)).
Definition np_sub (a b : point) : point := (int64 (a.1 - b.1), int64 (a.2 - b.2)).

Abbreviation ndarray := (list (list Z)).

(** The number of columns: the length of the first row. *)
Definition width (img : ndarray) : nat := length (default [] (head img)).

(** [img.shape] *)
Definition shape (img : ndarray) : point :=
  (Z.of_nat (length img), Z.of_nat (width img)).

(** [ShredConfig = collections.namedtuple("ShredConfig", "mask right bottom")];
    [right] and [bottom] are int64 arrays: the record holds, with each, the
    evidence that its components are int64 values. *)
Record ShredConfig : Type := {
  mask : ndarray;
  right : point;
  bottom : point;
  right_int64 : Is_true (is_int64 right.1 && is_int64 right.2);
  bottom_int64 : Is_true (is_int64 bottom.1 && is_int64 bottom.2);
}.

(** ** Slices *)

(** A Python [slice(start, stop)]. *)
Record pyslice : Type := { start : Z; stop : Z }.

#[global] Instance pyslice_eq_dec : EqDecision pyslice.
Proof. solve_decision. Defined.

(** Modelled from the spec: [dataset.to_slice] is not among the sources.
    "returns the axis-aligned rectangular region of size mask_shape whose
    top-left corner is base_point.  No bounds checking here". *)
Definition to_slice (base_point mask_shape : point) : pyslice * pyslice :=
  ({| start := base_point.1; stop := base_point.1 + mask_shape.1 |},
   {| start := base_point.2; stop := base_point.2 + mask_shape.2 |}).

(** ** The networkx graph

    [nx.Graph] keeps two dicts: [node] maps a node to its attributes and
    [adj] maps a node to its neighbours.  The only attribute used here is
    [slice]; [None] is a node without it. *)
Module nx.

Record Graph : Type := {
  node : gmap point (option (pyslice * pyslice));
  adj : gmap point (gset point);
}.

(** [nx.Graph()] *)
Definition empty : Graph := {| node := ∅; adj := ∅ |}.

(** [graph.add_node(n, slice=sl)]: a fresh node gets an empty
    neighbourhood, a known one has its attributes updated. *)
Definition add_node (g : Graph) (n : point) (sl : pyslice * pyslice) : Graph :=
  match node g !! n with
  | None => {| node := <[n := Some sl]> (node g); adj := <[n := ∅]> (adj g) |}
  | Some _ => {| node := <[n := Some sl]> (node g); adj := adj g |}
  end.

(** The two [if u not in self.node] blocks of [add_edge]. *)
Definition touch (g : Graph) (u : point) : Graph :=
  match node g !! u with
  | None => {| node := <[u := None]> (node g); adj := <[u := ∅]> (adj g) |}
  | Some _ => g
  end.

(** [graph.add_edge(u, v)]: [adj[u][v] = dd; adj[v][u] = dd]. *)
Definition add_edge (g : Graph) (u v : point) : Graph :=
  let g1 := touch (touch g u) v in
  let a1 := <[u := {[v]} ∪ (adj g1 !!! u)]> (adj g1) in
  let a2 := <[v := {[u]} ∪ (a1 !!! v)]> a1 in
  {| node := node g1; adj := a2 |}.

(** The two dicts of a graph have the same keys. *)
Definition wf (g : Graph) : Prop := dom (adj g) = dom (node g).

(** [graph.nodes()] *)
Definition nodes (g : Graph) : gset point := dom (node g).

(** [graph.has_edge(u, v)] *)
Definition has_edge (g : Graph) (u v : point) : Prop :=
  ∃ s, adj g !! u = Some s ∧ v ∈ s.

Definition has_edgeb (g : Graph) (u v : point) : bool :=
  match adj g !! u with
  | Some s => bool_decide (v ∈ s)
  | None => false
  end.

(** [graph.neighbors(u)] *)
Definition neighbors (g : Graph) (u : point) : gset point := adj g !!! u.

(** [graph.number_of_nodes()] *)
Definition number_of_nodes (g : Graph) : nat := size (node g).

(** [graph.degree(u)]: a self-loop counts twice. *)
Definition degree (g : Graph) (u : point) : nat :=
  (size (neighbors g u) + (if bool_decide (u ∈ neighbors g u) then 1 else 0))%nat.

(** [graph.number_of_edges()]: half the sum of the degrees. *)
Definition number_of_edges (g : Graph) : nat :=
  (foldr (λ u acc, degree g u + acc) 0 (elements (nodes g)) / 2)%nat.

End nx.

(** ** cut_to_shreds *)

Section cut_to_shreds.

Variable size : point.
Variable shred_config : ShredConfig.

(** [any(neighbor < 0) or any(neighbor + shred_config.mask.shape > size)]:
    the sum is an int64 array. *)
Definition out_of_bounds (neighbor : point) : bool :=
  ((neighbor.1 <? 0) || (neighbor.2 <? 0))
  || ((int64 (neighbor.1 + (shape (mask shred_config)).1) >? size.1)
      || (int64 (neighbor.2 + (shape (mask shred_config)).2) >? size.2)).

(** The list [neighbors]: left, right, top, bottom, each an int64 array. *)
Definition neighbors (base_point : point) : list point :=
  [ np_sub base_point (right shred_config);
    np_add base_point (right shred_config);
    np_sub base_point (bottom shred_config);
    np_add base_point (bottom shred_config) ].

(** The variables of the function. *)
Record state : Type := {
  graph : nx.Graph;
  done : gset point;
  todo : gset point;
}.

Definition init : state :=
  {| graph := nx.empty; done := ∅; todo := {[ (0, 0) ]} |}.

(** One turn of [for neighbor in neighbors], on the graph and [todo];
    [done] does not change inside the [for]. *)
Definition visit (dn : gset point) (base_point : point)
    (acc : nx.Graph * gset point) (neighbor : point) : nx.Graph * gset point :=
  if out_of_bounds neighbor then acc
  else
    let g := nx.add_edge acc.1 base_point neighbor in
    if bool_decide (neighbor ∈ dn) || bool_decide (neighbor ∈ acc.2)
    then (g, acc.2)
    else (g, acc.2 ∪ {[ neighbor ]}).

(** One turn of [while todo], with [base_point] the element that
    [todo.pop()] removed. *)
Definition loop_body (base_point : point) (st : state) : state :=
  let td := todo st ∖ {[ base_point ]} in
  let dn := done st ∪ {[ base_point ]} in
  let slice_ind := to_slice base_point (shape (mask shred_config)) in
  let g := nx.add_node (graph st) base_point slice_ind in
  let r := foldl (visit dn base_point) (g, td) (neighbors base_point) in
  {| graph := r.1; done := dn; todo := r.2 |}.

(** [todo.pop()] may return any element of [todo]. *)
Definition step (st st' : state) : Prop :=
  ∃ p, p ∈ todo st ∧ st' = loop_body p st.

(** What a call can produce: the function has no [raise], so the only
    outcome is the graph held when [todo] is found empty. *)
Inductive cut_to_shreds_outcome : outcome nx.Graph → Prop :=
  | cts_return st :
      rtc step init st → todo st = ∅ →
      cut_to_shreds_outcome (Return (graph st)).

Definition cut_to_shreds_returns (g : nx.Graph) : Prop :=
  cut_to_shreds_outcome (Return g).

(** The same loop as a function, for a given way of popping;
    [None] is "still running when the fuel ran out". *)
Fixpoint while_todo (pop : gset point → option point) (fuel : nat)
    (st : state) : option state :=
  match pop (todo st) with
  | None => Some st
  | Some p =>
      match fuel with
      | O => None
      | S fuel' => while_todo pop fuel' (loop_body p st)
      end
  end.

Definition cut_to_shreds (pop : gset point → option point) (fuel : nat)
    : option (outcome nx.Graph) :=
  st ← while_todo pop fuel init; Some (Return (graph st)).

End cut_to_shreds.

(** A pop policy returns an element of a non-empty set. *)
Record pop_policy (pop : gset point → option point) : Prop := {
  pop_elem s p : pop s = Some p → p ∈ s;
  pop_none s : pop s = None → s = ∅;
}.

(** The first element in the order of [elements], and the last. *)
Definition pop_first (s : gset point) : option point := head (elements s).

Definition pop_last (s : gset point) : option point := last (elements s).

(** Scenario A of the specification. *)
Definition mask_of_shape (h w : nat) : ndarray := replicate h (replicate w 255).

Definition config_A : ShredConfig :=
  {| mask := mask_of_shape 100 100; right := (0, 110); bottom := (110, 0);
     right_int64 := I; bottom_int64 := I |}.

(** Scenario A with the two offsets exchanged. *)
Definition config_A_swapped : ShredConfig :=
  {| mask := mask_of_shape 100 100; right := (110, 0); bottom := (0, 110);
     right_int64 := I; bottom_int64 := I |}.

(** Scenario B of the specification, on a 1x1 mask. *)
Definition config_B : ShredConfig :=
  {| mask := mask_of_shape 1 1; right := (0, 1); bottom := (0, 0);
     right_int64 := I; bottom_int64 := I |}.

(** A mask that does not fit the document. *)
Definition config_C : ShredConfig :=
  {| mask := mask_of_shape 2 2; right := (0, 1); bottom := (1, 0);
     right_int64 := I; bottom_int64 := I |}.

(** An offset that makes the int64 sum of the bounds test wrap around. *)
Definition config_wrap : ShredConfig :=
  {| mask := mask_of_shape 1 1; right := (0, int64_max); bottom := (1, 0);
     right_int64 := I; bottom_int64 := I |}.

(** The graph of a finished run. *)
Definition graph_of (o : option (outcome nx.Graph)) : nx.Graph :=
  match o with
  | Some (Return g) => g
  | _ => nx.empty
  end.

Definition graph_A : nx.Graph :=
  graph_of (cut_to_shreds (220, 220) config_A pop_first 4).

Definition graph_A_last : nx.Graph :=
  graph_of (cut_to_shreds (220, 220) config_A pop_last 4).

Definition graph_B : nx.Graph :=
  graph_of (cut_to_shreds (3, 3) config_B pop_first 3).

Definition graph_C : nx.Graph :=
  graph_of (cut_to_shreds (1, 1) config_C pop_first 1).

Definition graph_A_swapped : nx.Graph :=
  graph_of (cut_to_shreds (220, 220) config_A_swapped pop_first 4).

Definition graph_C_larger : nx.Graph :=
  graph_of (cut_to_shreds (3, 3) config_C pop_first 4).

Definition graph_wrap : nx.Graph :=
  graph_of (cut_to_shreds (3, 3) config_wrap pop_first 6).

(** The spec's malformed configurations: a zero offset, or a mask that
    exceeds the document. *)
Definition malformed (size : point) (shred_config : ShredConfig) : Prop :=
  right shred_config = (0, 0) ∨ bottom shred_config = (0, 0)
  ∨ ¬ ((shape (mask shred_config)).1 ≤ size.1
       ∧ (shape (mask shred_config)).2 ≤ size.2).

(** ** Predicates used to state the properties of the graph *)

Section cut_to_shreds_spec.

Variable size : point.
Variable shred_config : ShredConfig.

(** The slice of shape [mask.shape] anchored at [p] lies inside the
    document: no coordinate is negative and none exceeds [size]. *)
Definition in_bounds (p : point) : Prop :=
  0 ≤ p.1 ∧ 0 ≤ p.2
  ∧ p.1 + (shape (mask shred_config)).1 ≤ size.1
  ∧ p.2 + (shape (mask shred_config)).2 ≤ size.2.

(** [p] passes the bounds test of the loop. *)
Definition accepted (p : point) : Prop :=
  0 ≤ p.1 ∧ 0 ≤ p.2
  ∧ int64 (p.1 + (shape (mask shred_config)).1) ≤ size.1
  ∧ int64 (p.2 + (shape (mask shred_config)).2) ≤ size.2.

(** The sizes and the offsets are small enough for no int64 operation of
    the loop to wrap around: in each dimension, the larger of the document
    and the mask, moved by an offset, is an int64 value. *)
Definition no_overflow : Prop :=
  Z.max size.1 (shape (mask shred_config)).1
    + Z.max (Z.abs (right shred_config).1) (Z.abs (bottom shred_config).1)
    ≤ int64_max
  ∧ Z.max size.2 (shape (mask shred_config)).2
    + Z.max (Z.abs (right shred_config).2) (Z.abs (bottom shred_config).2)
    ≤ int64_max.

(** [b - a] is one of the four vectors [±right], [±bottom]. *)
Definition lattice_step (a b : point) : Prop :=
  vsub b a = right shred_config
  ∨ vsub b a = vsub (0, 0) (right shred_config)
  ∨ vsub b a = bottom shred_config
  ∨ vsub b a = vsub (0, 0) (bottom shred_config).

(** The positions the traversal can reach: the root, and every
    neighbour of a reached position that passes the bounds test. *)
Inductive reach : point → Prop :=
  | reach_root : reach (0, 0)
  | reach_step p q :
      reach p → q ∈ neighbors shred_config p →
      out_of_bounds size shred_config q = false → reach q.

(** The finitely many positions that can ever be in [done] or [todo]:
    the root and the pairs of non-negative int64 values that pass the
    bounds test. *)
Definition positions : gset point :=
  {[ (0, 0) ]} ∪
  list_to_set
    (r ← seqZ 0 (int64_max + 1);
     c ← seqZ 0 (int64_max + 1);
     if out_of_bounds size shred_config (r, c) then [] else [(r, c)]).

(** A bound on the number of turns of the [while] loop. *)
Definition max_iterations : nat := base.size positions.

(** What holds of the variables each time the [while] test is reached. *)
Record loop_invariant (st : state) : Prop := {
  inv_wf : nx.wf (graph st);
  inv_disj : done st ## todo st;
  inv_reach : ∀ p, p ∈ done st ∪ todo st → reach p;
  inv_root : (0, 0) ∈ done st ∪ todo st;
  inv_closed : ∀ p q,
    p ∈ done st → q ∈ neighbors shred_config p →
    out_of_bounds size shred_config q = false → q ∈ done st ∪ todo st;
  inv_nodes : nx.nodes (graph st) ⊆ done st ∪ todo st;
  inv_attr : ∀ p,
    p ∈ done st →
    nx.node (graph st) !! p
    = Some (Some (to_slice p (shape (mask shred_config))));
  inv_edges : ∀ a b,
    nx.has_edge (graph st) a b ↔
    (a ∈ done st ∧ b ∈ neighbors shred_config a
     ∧ out_of_bounds size shred_config b = false)
    ∨ (b ∈ done st ∧ a ∈ neighbors shred_config b
       ∧ out_of_bounds size shred_config a = false);
}.

End cut_to_shreds_spec.

Arguments positions : simpl never.
Arguments max_iterations : simpl never.

(** Graph path: the reflexive transitive closure of [has_edge]. *)
Definition connected_to (g : nx.Graph) (a b : point) : Prop :=
  rtc (nx.has_edge g) a b.

(** ** Arrays of pixels *)

(** [img[r][c]] *)
Definition pixel (img : ndarray) (r c : nat) : option Z :=
  row ← img !! r; row !! c.

(** uint8 arithmetic wraps around. *)
Definition u8 (z : Z) : Z := z mod 256.

(** A numpy ufunc applied to one array, and to two arrays of one shape. *)
Definition map2d (f : Z → Z) (img : ndarray) : ndarray := map f <$> img.

Definition zip2d (f : Z → Z → Z) (a b : ndarray) : ndarray :=
  zip_with (zip_with f) a b.

(** A function of the position and the value, applied to every pixel. *)
Definition imap2d (f : nat → nat → Z → Z) (img : ndarray) : ndarray :=
  imap (λ r row, imap (f r) row) img.

(** An array is rectangular ([h] rows of [w] pixels) and holds bytes. *)
Definition has_shape (h w : nat) (img : ndarray) : Prop :=
  length img = h ∧ Forall (λ row, length row = w) img.

Definition is_uint8 (img : ndarray) : Prop :=
  Forall (Forall (λ v, 0 ≤ v ≤ 255)) img.

(** White foreground on black background. *)
Definition is_binary (img : ndarray) : Prop :=
  Forall (Forall (λ v, v = 0 ∨ v = 255)) img.

(** [img.size] *)
Definition np_size (img : ndarray) : nat := length (mjoin img).

(** [np.count_nonzero(img)] *)
Definition count_nonzero (img : ndarray) : nat :=
  length (filter (λ v, v ≠ 0) (mjoin img)).

(** [cv2.threshold(src, thresh, maxval, cv2.THRESH_BINARY_INV)[1]]:
    0 where [src > thresh], [maxval] elsewhere. *)
Definition threshold_binary_inv (src : ndarray) (thresh maxval : Z) : ndarray :=
  map2d (λ v, if v >? thresh then 0 else maxval) src.

(** [np.maximum(a, b)] *)
Definition np_maximum (a b : ndarray) : ndarray := zip2d Z.max a b.

(** [c - img] on uint8 *)
Definition rsub (c : Z) (img : ndarray) : ndarray := map2d (λ v, u8 (c - v)) img.

(** Modelled from the spec: [dataset.pad_image] is not among the sources.
    "Pad with_outside by 1 pixel of background on all sides". *)
Definition pad_image (img : ndarray) (n : nat) : ndarray :=
  let blank := replicate (n + width img + n) 0 in
  replicate n blank
  ++ ((λ row, replicate n 0 ++ row ++ replicate n 0) <$> img)
  ++ replicate n blank.

(** [np.argwhere(img == v)]: the indices, in row-major order. *)
Definition argwhere_eq (img : ndarray) (v : Z) : list (nat * nat) :=
  mjoin (imap (λ r row,
           mjoin (imap (λ c x, if bool_decide (x = v) then [(r, c)] else []) row))
         img).

(** [(img == v).astype(np.uint8)] *)
Definition eq_scalar (img : ndarray) (v : Z) : ndarray :=
  map2d (λ x, if bool_decide (x = v) then 1 else 0) img.

(** The Python slice [l[1:-1]] *)
Definition slice_1_m1 {A} (l : list A) : list A := take (length l - 2) (drop 1 l).

(** [img[1:-1, 1:-1]] *)
Definition inner (img : ndarray) : ndarray := slice_1_m1 <$> slice_1_m1 img.

(** [cv2.bitwise_and(src1, src2, mask=m)]: the AND where the mask is
    nonzero, 0 elsewhere. *)
Definition bitwise_and (src1 src2 m : ndarray) : ndarray :=
  zip2d (λ v k, if bool_decide (k = 0) then 0 else v) (zip2d Z.land src1 src2) m.

(** ** cv2.floodFill

    [cv2.floodFill(image, mask, seedPoint, newVal)] with the default
    [loDiff = upDiff = 0] and [flags = 4]: starting at the seed, the fill
    spreads to a 4-neighbour when its mask pixel is zero and its value equals
    that of the filled pixel it is reached from.  The mask is two pixels
    taller and wider than the image; its border is set to 1 first, and every
    filled pixel is marked with 1.  Positions are (row, column); the seed
    point is given as (x, y). *)

Abbreviation position := (nat * nat)%type.

Definition neighbours4 (q : position) : list position :=
  [(q.1, S q.2); (S q.1, q.2)]
  ++ (match q.2 with S x => [(q.1, x)] | O => [] end)
  ++ (match q.1 with S y => [(y, q.2)] | O => [] end).

(** [q] is not filled yet and the fill can enter it from [filled]. *)
Definition fillable (img msk : ndarray) (filled : gset position) (q : position) : bool :=
  bool_decide (q ∉ filled)
  && match pixel msk (S q.1) (S q.2), pixel img q.1 q.2 with
     | Some 0, Some v =>
         existsb (λ p, bool_decide (p ∈ filled)
                       && bool_decide (pixel img p.1 p.2 = Some v))
                 (neighbours4 q)
     | _, _ => false
     end.

Definition all_pixels (img : ndarray) : list position :=
  mjoin (imap (λ r row, imap (λ c _, (r, c)) row) img).

(** One round of spreading. *)
Definition grow (img msk : ndarray) (filled : gset position) : gset position :=
  filled ∪ list_to_set (filter (λ q, fillable img msk filled q = true) (all_pixels img)).

(** The filled region: a round adds a pixel or changes nothing, so as many
    rounds as there are pixels reach the fixed point. *)
Definition fill_region (img msk : ndarray) (seed : position) : gset position :=
  match pixel msk (S seed.1) (S seed.2), pixel img seed.1 seed.2 with
  | Some 0, Some _ => Nat.iter (np_size img) (grow img msk) {[ seed ]}
  | _, _ => ∅
  end.

Definition set_border (msk : ndarray) (v : Z) : ndarray :=
  imap2d (λ r c x,
    if bool_decide (r = 0%nat ∨ S r = length msk ∨ c = 0%nat ∨ S c = width msk)
    then v else x) msk.

Definition paint (img : ndarray) (filled : gset position) (newVal : Z) : ndarray :=
  imap2d (λ r c x, if bool_decide ((r, c) ∈ filled) then newVal else x) img.

Definition mark (msk : ndarray) (filled : gset position) : ndarray :=
  imap2d (λ r c x,
    match r, c with
    | S r', S c' => if bool_decide ((r', c') ∈ filled) then 1 else x
    | _, _ => x
    end) msk.

(** Returns the image and the mask as the call leaves them. *)
Definition floodFill (img msk : ndarray) (seedPoint : nat * nat) (newVal : Z)
    : ndarray * ndarray :=
  let msk1 := set_border msk 1 in
  let filled := fill_region img msk1 (seedPoint.2, seedPoint.1) in
  (paint img filled newVal, mark msk1 filled).

(** ** preserve_outermost *)

Definition preserve_outermost (image foreground_mask : ndarray) : outcome ndarray :=
  let outside_mask := threshold_binary_inv foreground_mask 254 255 in
  let with_outside := np_maximum image outside_mask in
  let flood_fill_mask := rsub 255 (pad_image with_outside 1) in
  match argwhere_eq outside_mask 255 !! 0%nat with
  | None => Raise IndexError
  | Some seed_point =>
      let new_val := 128 in
      let filled :=
        floodFill with_outside flood_fill_mask (seed_point.2, seed_point.1) new_val in
      Return (bitwise_and image image (inner (eq_scalar filled.2 1)))
  end.

(** A 5x5 example: the top row is outside the document; the pixel at (1,1)
    touches it and the pixel at (3,3) does not. *)
Definition example_mask : ndarray :=
  [ [0; 0; 0; 0; 0];
    [255; 255; 255; 255; 255];
    [255; 255; 255; 255; 255];
    [255; 255; 255; 255; 255];
    [255; 255; 255; 255; 255] ].

Definition example_image : ndarray :=
  [ [0; 0; 0; 0; 0];
    [0; 255; 0; 0; 0];
    [0; 0; 0; 0; 0];
    [0; 0; 0; 255; 0];
    [0; 0; 0; 0; 0] ].

Definition example_filtered : ndarray :=
  [ [0; 0; 0; 0; 0];
    [0; 255; 0; 0; 0];
    [0; 0; 0; 0; 0];
    [0; 0; 0; 0; 0];
    [0; 0; 0; 0; 0] ].

(** ** masked_shred *)

Definition is_uint8b (img : ndarray) : bool :=
  forallb (forallb (λ v, (0 <=? v) && (v <=? 255))) img.

(** [a.shape == b.shape], for arrays given by their rows. *)
Definition same_shape (a b : ndarray) : bool :=
  bool_decide (length <$> a = length <$> b).

(** What the Python binding of [cv2.bitwise_and(src, src, mask=m)] gives:
    OpenCV asserts that the mask is an 8-bit array of the size of the source
    and raises [cv2.error] otherwise; an output without pixels comes back
    as [None]. *)
Definition cv2_bitwise_and_masked (src m : ndarray) : outcome (option ndarray) :=
  if negb (is_uint8b m && same_shape m src) then Raise CvError
  else if bool_decide (np_size src = 0%nat) then Return None
  else Return (Some (bitwise_and src src m)).

(** [shred.copy()] is the array itself here: values are not mutated. *)
Definition masked_shred (shred mask : ndarray) : outcome (option ndarray) :=
  let masked_slice := shred in
  let masked_slice := cv2_bitwise_and_masked masked_slice mask in
  masked_slice.

(** ** real_distance

    [edges] maps a key to the collection of its neighbours; [and] does not
    evaluate [edges[key1]] when [key1] is not a key. *)
Definition real_distance `{Countable K} (key1 key2 : K)
    (edges : gmap K (gset K)) : Z :=
  match edges !! key1 with
  | Some s => if bool_decide (key2 ∈ s) then 0 else 1
  | None => 1
  end.

(** ** is_good_node *)

(** [float(z)]: the integer rounded to the nearest binary64. *)
Definition float_of_Z (z : Z) : spec_float := binary_normalize 53 1024 z 0 false.

(** The literal [0.05]: the nearest binary64, 0x1.999999999999ap-5. *)
Definition float_0_05 : spec_float := S754_finite false 7205759403792794 (-57).

(** Dividing a float by the int 0 raises [ZeroDivisionError]. *)
Definition is_good_node (img : ndarray) : outcome bool :=
  let num_non_zeros := count_nonzero img in
  match np_size img with
  | O => Raise ZeroDivisionError
  | S _ =>
      Return (SFltb float_0_05
                (SFdiv 53 1024 (float_of_Z (Z.of_nat num_non_zeros))
                               (float_of_Z (Z.of_nat (np_size img)))))
  end.

(** The second half of [binary_round_aux]: round, then renormalise. *)
Definition round_tail (m : Z) (l : location) (e : Z) : spec_float :=
  let '(mrs, e') := shr_fexp 53 1024 (round_nearest_even m l) e loc_Exact in
  match shr_m mrs with
  | Z0 => S754_zero false
  | Zpos m => if e' <=? 1024 - 53 then S754_finite false m e' else S754_infinity false
  | _ => S754_nan
  end.

(** ** Predicates used to state the properties of the filter *)

(** The mask handed to [cv2.floodFill] for the working image [wo]. *)
Definition fill_mask (wo : ndarray) : ndarray :=
  set_border (rsub 255 (pad_image wo 1)) 1.

(** A pixel the fill may enter: white in the working image. *)
Definition opened (wo : ndarray) (q : position) : Prop :=
  pixel wo q.1 q.2 = Some 255.

(** The pixels connected to the seed through opened 4-neighbours. *)
Inductive fill_reach (wo : ndarray) (seed : position) : position → Prop :=
  | fill_reach_seed : fill_reach wo seed seed
  | fill_reach_step p q :
      fill_reach wo seed p → p ∈ neighbours4 q → opened wo q →
      fill_reach wo seed q.

(** The pixels kept by the filter, given the region the fill reached. *)
Definition keep_region (filled : gset position) (img : ndarray) : ndarray :=
  imap2d (λ r c v, if bool_decide ((r, c) ∈ filled) then v else 0) img.

(** The working image of [preserve_outermost]. *)
Definition with_outside_of (img foreground_mask : ndarray) : ndarray :=
  np_maximum img (threshold_binary_inv foreground_mask 254 255).

(** The inputs the filter is meant for: two arrays of one shape, a binary
    image, and a mask with a pixel that is not 255. *)
Definition valid_pair (h w : nat) (img foreground_mask : ndarray) : Prop :=
  has_shape h w img ∧ has_shape h w foreground_mask
  ∧ is_binary img ∧ is_uint8 foreground_mask
  ∧ ∃ r c m, pixel foreground_mask r c = Some m ∧ m ≠ 255.

(** * Properties

    ** The networkx operations *)

Module nx_facts.
Import nx.

Lemma wf_empty : wf empty.
Proof. unfold wf, empty; simpl. by rewrite !dom_empty_L. Qed.

Lemma wf_adj_None g u : wf g → node g !! u = None → adj g !! u = None.
Proof.
  intros Hwf Hn. apply not_elem_of_dom. rewrite Hwf. by apply not_elem_of_dom.
Qed.

Lemma has_edge_insert_empty (a : gmap point (gset point)) n x y :
  a !! n = None →
  (∃ s, <[n := ∅]> a !! x = Some s ∧ y ∈ s) ↔ (∃ s, a !! x = Some s ∧ y ∈ s).
Proof.
  intros Hn. destruct (decide (n = x)) as [->|Hne].
  - rewrite lookup_insert_eq, Hn. split; intros (s & Hs & Hy); simplify_eq; set_solver.
  - by rewrite lookup_insert_ne.
Qed.

Lemma wf_add_node g n sl : wf g → wf (add_node g n sl).
Proof.
  unfold wf, add_node. intros Hwf. destruct (node g !! n) eqn:E; simpl.
  - rewrite dom_insert_L, Hwf. apply elem_of_dom_2 in E. set_solver.
  - rewrite !dom_insert_L, Hwf. done.
Qed.

Lemma nodes_add_node g n sl : nodes (add_node g n sl) = {[ n ]} ∪ nodes g.
Proof.
  unfold nodes, add_node. destruct (node g !! n); simpl; by rewrite dom_insert_L.
Qed.

Lemma node_add_node g n sl x :
  node (add_node g n sl) !! x = if decide (n = x) then Some (Some sl) else node g !! x.
Proof.
  unfold add_node. destruct (node g !! n); simpl; by rewrite lookup_insert.
Qed.

Lemma has_edge_add_node g n sl a b :
  wf g → has_edge (add_node g n sl) a b ↔ has_edge g a b.
Proof.
  intros Hwf. unfold has_edge, add_node. destruct (node g !! n) eqn:E; simpl; [done|].
  apply has_edge_insert_empty. by apply wf_adj_None.
Qed.

Lemma wf_touch g u : wf g → wf (touch g u).
Proof.
  unfold wf, touch. intros Hwf. destruct (node g !! u) eqn:E; simpl; [done|].
  by rewrite !dom_insert_L, Hwf.
Qed.

Lemma nodes_touch g u : nodes (touch g u) = {[ u ]} ∪ nodes g.
Proof.
  unfold nodes, touch. destruct (node g !! u) eqn:E; simpl.
  - apply elem_of_dom_2 in E. set_solver.
  - by rewrite dom_insert_L.
Qed.

Lemma node_touch_old g u x o : node g !! x = Some o → node (touch g u) !! x = Some o.
Proof.
  unfold touch. intros Hx. destruct (node g !! u) eqn:E; simpl; [done|].
  rewrite lookup_insert_ne; [done|]. intros ->. congruence.
Qed.

Lemma has_edge_touch g u a b : wf g → has_edge (touch g u) a b ↔ has_edge g a b.
Proof.
  intros Hwf. unfold has_edge, touch. destruct (node g !! u) eqn:E; simpl; [done|].
  apply has_edge_insert_empty. by apply wf_adj_None.
Qed.

Lemma wf_add_edge g u v : wf g → wf (add_edge g u v).
Proof.
  intros Hwf. pose proof (wf_touch _ v (wf_touch _ u Hwf)) as H1.
  pose proof (nodes_touch (touch g u) v) as H2. pose proof (nodes_touch g u) as H3.
  unfold wf, add_edge, nodes in *. simpl. rewrite !dom_insert_L, H1. set_solver.
Qed.

Lemma nodes_add_edge g u v : nodes (add_edge g u v) = {[ u; v ]} ∪ nodes g.
Proof.
  unfold add_edge, nodes at 1; simpl. fold (nodes (touch (touch g u) v)).
  rewrite !nodes_touch. set_solver.
Qed.

Lemma node_add_edge_old g u v x o :
  node g !! x = Some o → node (add_edge g u v) !! x = Some o.
Proof. intros Hx. unfold add_edge; simpl. by do 2 apply node_touch_old. Qed.

Lemma has_edge_add_edge g u v a b :
  wf g →
  has_edge (add_edge g u v) a b ↔
  has_edge g a b ∨ (a = u ∧ b = v) ∨ (a = v ∧ b = u).
Proof.
  intros Hwf.
  rewrite <- (has_edge_touch g u a b Hwf).
  rewrite <- (has_edge_touch (touch g u) v a b (wf_touch _ _ Hwf)).
  unfold has_edge, add_edge; simpl.
  set (m := adj (touch (touch g u) v)).
  rewrite !lookup_total_alt.
  destruct (decide (v = a)) as [->|Hva].
  - rewrite lookup_insert_eq.
    destruct (decide (u = a)) as [->|Hua].
    + rewrite lookup_insert_eq; simpl. split.
      * intros (s & Hs & Hb); simplify_eq.
        apply elem_of_union in Hb as [Hb|Hb]; [set_solver|].
        apply elem_of_union in Hb as [Hb|Hb]; [set_solver|].
        left. destruct (m !! a) as [s|] eqn:E; [eauto|set_solver].
      * intros [(s & Hs & Hb)|[[_ ->]|[_ ->]]].
        -- eexists; split; [done|]. rewrite Hs; simpl. set_solver.
        -- eexists; split; [done|]. set_solver.
        -- eexists; split; [done|]. set_solver.
    + rewrite lookup_insert_ne; [|done]. split.
      * intros (s & Hs & Hb); simplify_eq.
        apply elem_of_union in Hb as [Hb|Hb]; [set_solver|].
        left. destruct (m !! a) as [s|] eqn:E; [eauto|set_solver].
      * intros [(s & Hs & Hb)|[[? ->]|[_ ->]]]; [| done |].
        -- eexists; split; [done|]. rewrite Hs; simpl. set_solver.
        -- eexists; split; [done|]. set_solver.
  - rewrite lookup_insert_ne; [|done].
    destruct (decide (u = a)) as [->|Hua].
    + rewrite lookup_insert_eq. split.
      * intros (s & Hs & Hb); simplify_eq.
        apply elem_of_union in Hb as [Hb|Hb]; [set_solver|].
        left. destruct (m !! a) as [s|] eqn:E; [eauto|set_solver].
      * intros [(s & Hs & Hb)|[[_ ->]|[? ->]]]; [| | done].
        -- eexists; split; [done|]. rewrite Hs; simpl. set_solver.
        -- eexists; split; [done|]. set_solver.
    + rewrite lookup_insert_ne; [|done]. naive_solver.
Qed.

Lemma has_edgeb_true g a b : has_edgeb g a b = true → has_edge g a b.
Proof.
  unfold has_edgeb, has_edge. destruct (adj g !! a) as [s|]; [|done].
  intros H%bool_decide_eq_true. eauto.
Qed.

(** A well-formed graph is determined by its nodes with their attributes
    and by its edges. *)
Lemma graph_ext g1 g2 :
  wf g1 → wf g2 →
  (∀ p, node g1 !! p = node g2 !! p) →
  (∀ a b, has_edge g1 a b ↔ has_edge g2 a b) →
  g1 = g2.
Proof.
  intros W1 W2 HN HE.
  destruct g1 as [n1 a1], g2 as [n2 a2]. unfold wf, has_edge in *; simpl in *.
  assert (n1 = n2) as -> by by apply map_eq. f_equal.
  apply map_eq. intros p. destruct (a1 !! p) as [s1|] eqn:E1.
  - assert (is_Some (a2 !! p)) as [s2 E2].
    { apply elem_of_dom. rewrite W2, <- W1. apply elem_of_dom. by eexists. }
    rewrite E2. f_equal. apply set_eq. intros x. split; intros Hx.
    + destruct (proj1 (HE p x)) as (s & Hs & ?); [by eauto|]. congruence.
    + destruct (proj2 (HE p x)) as (s & Hs & ?); [by eauto|]. congruence.
  - symmetry. apply not_elem_of_dom. rewrite W2, <- W1. by apply not_elem_of_dom.
Qed.

End nx_facts.

(** ** int64 arithmetic *)

Ltac int64_lia :=
  unfold int64, int64_min, int64_max in *; Z.div_mod_to_equations; lia.

Lemma is_int64_spec z : Is_true (is_int64 z) ↔ int64_min ≤ z ≤ int64_max.
Proof.
  unfold is_int64. rewrite andb_True, !Is_true_true, !Z.leb_le. done.
Qed.

Lemma is_int64_pair (p : point) :
  Is_true (is_int64 p.1 && is_int64 p.2) →
  (int64_min ≤ p.1 ≤ int64_max) ∧ (int64_min ≤ p.2 ≤ int64_max).
Proof. rewrite andb_True, !is_int64_spec. done. Qed.

Lemma int64_range z : int64_min ≤ int64 z ≤ int64_max.
Proof. int64_lia. Qed.

Lemma int64_id z : int64_min ≤ z ≤ int64_max → int64 z = z.
Proof. int64_lia. Qed.

Lemma int64_le z : 0 ≤ z → int64 z ≤ z.
Proof. int64_lia. Qed.

Lemma int64_add_sub p r : int64_min ≤ p ≤ int64_max → int64 (int64 (p + r) - r) = p.
Proof. int64_lia. Qed.

Lemma int64_sub_add p r : int64_min ≤ p ≤ int64_max → int64 (int64 (p - r) + r) = p.
Proof. int64_lia. Qed.

Lemma int64_add_fixed p r :
  int64_min ≤ p ≤ int64_max → int64_min ≤ r ≤ int64_max →
  int64 (p + r) = p → r = 0.
Proof. int64_lia. Qed.

Lemma int64_sub_fixed p r :
  int64_min ≤ p ≤ int64_max → int64_min ≤ r ≤ int64_max →
  int64 (p - r) = p → r = 0.
Proof. int64_lia. Qed.

(** ** The traversal of cut_to_shreds *)

Section traversal.

Variable size : point.
Variable shred_config : ShredConfig.

#[local] Abbreviation oob := (out_of_bounds size shred_config).
#[local] Abbreviation nbrs := (neighbors shred_config).
#[local] Abbreviation Inv := (loop_invariant size shred_config).
#[local] Abbreviation body := (loop_body size shred_config).
#[local] Abbreviation mshape := (shape (mask shred_config)).

#[local] Abbreviation in_range p :=
  ((int64_min ≤ p.1 ≤ int64_max) ∧ (int64_min ≤ p.2 ≤ int64_max)).

Lemma out_of_bounds_false p : oob p = false ↔ accepted size shred_config p.
Proof. unfold out_of_bounds, accepted. lia. Qed.

Lemma right_range : in_range (right shred_config).
Proof. apply is_int64_pair, right_int64. Qed.

Lemma bottom_range : in_range (bottom shred_config).
Proof. apply is_int64_pair, bottom_int64. Qed.

Lemma elem_of_neighbors p q :
  q ∈ nbrs p ↔
  q = np_sub p (right shred_config) ∨ q = np_add p (right shred_config)
  ∨ q = np_sub p (bottom shred_config) ∨ q = np_add p (bottom shred_config).
Proof.
  unfold neighbors. rewrite !elem_of_cons, elem_of_nil. split.
  - intros [H|[H|[H|[H|H]]]].
    + by left.
    + right; by left.
    + right; right; by left.
    + right; right; by right.
    + destruct H.
  - intros [H|[H|[H|H]]]; rewrite H.
    + left; reflexivity.
    + right; left; reflexivity.
    + do 2 right; left; reflexivity.
    + do 3 right; left; reflexivity.
Qed.

(** A neighbour is a pair of int64 values. *)
Lemma neighbors_range p q : q ∈ nbrs p → in_range q.
Proof.
  rewrite elem_of_neighbors. unfold np_sub, np_add.
  intros [-> | [-> | [-> | ->]]]; cbn [fst snd]; split; apply int64_range.
Qed.

(** Seen from a neighbour, an int64 position is a neighbour. *)
Lemma neighbors_sym p q : in_range p → q ∈ nbrs p → p ∈ nbrs q.
Proof.
  intros [H1 H2]. rewrite !elem_of_neighbors. unfold np_sub, np_add.
  destruct p as [p1 p2]. cbn [fst snd] in *.
  intros [-> | [-> | [-> | ->]]]; cbn [fst snd].
  - right; left. by rewrite !int64_sub_add.
  - left. by rewrite !int64_add_sub.
  - do 3 right. by rewrite !int64_sub_add.
  - do 2 right; left. by rewrite !int64_add_sub.
Qed.

Lemma reach_range p : reach size shred_config p → in_range p.
Proof.
  intros [|q p' _ Hq _]; [|by apply (neighbors_range q)].
  unfold int64_min, int64_max; simpl. lia.
Qed.

(** A position is its own neighbour only through a zero offset. *)
Lemma neighbors_self p :
  in_range p → p ∈ nbrs p →
  right shred_config = (0, 0) ∨ bottom shred_config = (0, 0).
Proof.
  intros [H1 H2]. rewrite elem_of_neighbors. unfold np_sub, np_add.
  pose proof right_range as [R1 R2]. pose proof bottom_range as [B1 B2].
  destruct p as [p1 p2], (right shred_config) as [r1 r2],
    (bottom shred_config) as [b1 b2]. cbn [fst snd] in *.
  intros [H | [H | [H | H]]]; injection H as E1 E2; symmetry in E1, E2.
  - left. f_equal; [by apply (int64_sub_fixed p1)|by apply (int64_sub_fixed p2)].
  - left. f_equal; [by apply (int64_add_fixed p1)|by apply (int64_add_fixed p2)].
  - right. f_equal; [by apply (int64_sub_fixed p1)|by apply (int64_sub_fixed p2)].
  - right. f_equal; [by apply (int64_add_fixed p1)|by apply (int64_add_fixed p2)].
Qed.

(** The [for] loop over a list of candidates. *)
Lemma foldl_visit dn p l : ∀ g td,
  nx.wf g →
  let r := foldl (visit size shred_config dn p) (g, td) l in
  nx.wf r.1
  ∧ (∀ x, x ∈ r.2 ↔ x ∈ td ∨ (x ∈ l ∧ oob x = false ∧ x ∉ dn))
  ∧ (∀ x, x ∈ nx.nodes r.1 → x ∈ nx.nodes g ∨ x = p ∨ (x ∈ l ∧ oob x = false))
  ∧ (∀ x o, nx.node g !! x = Some o → nx.node r.1 !! x = Some o)
  ∧ (∀ a b, nx.has_edge r.1 a b ↔
       nx.has_edge g a b
       ∨ ∃ q, q ∈ l ∧ oob q = false ∧ ((a = p ∧ b = q) ∨ (a = q ∧ b = p))).
Proof.
  induction l as [|q l IH]; intros g td Hwf; cbv zeta; simpl.
  - split_and!; [done| |intros x Hx; by left|intros x o Hx; exact Hx| ].
    + intros x. rewrite elem_of_nil. naive_solver.
    + intros a b. split; [auto|]. intros [?|(q & Hq & _)]; [done|].
      by apply elem_of_nil in Hq.
  - destruct (oob q) eqn:Eq.
    + replace (visit size shred_config dn p (g, td) q) with (g, td)
        by (unfold visit; by rewrite Eq).
      destruct (IH g td Hwf) as (H1 & H2 & H3 & H4 & H5).
      split_and!; [done| | | exact H4 | ].
      * intros x. rewrite H2, elem_of_cons. split.
        -- intros [?|(? & ? & ?)]; auto.
        -- intros [?|([->|?] & ? & ?)]; [auto|congruence|auto].
      * intros x Hx. destruct (H3 x Hx) as [?|[?|[? ?]]]; auto.
        right; right. rewrite elem_of_cons; auto.
      * intros a b. rewrite H5. split; (intros [?|(q' & Hq' & Ho & Hab)]; [by left|right]).
        -- exists q'. rewrite elem_of_cons. auto.
        -- apply elem_of_cons in Hq' as [->|Hq']; [congruence|eauto].
    + set (g' := nx.add_edge g p q).
      assert (Hwf' : nx.wf g') by by apply nx_facts.wf_add_edge.
      set (td' := if bool_decide (q ∈ dn) || bool_decide (q ∈ td)
                  then td else td ∪ {[ q ]}).
      assert (Htd' : ∀ x, x ∈ td' ↔ x ∈ td ∨ (x = q ∧ q ∉ dn)).
      { intros x. unfold td'.
        destruct (bool_decide (q ∈ dn)) eqn:E1; simpl.
        - apply bool_decide_eq_true in E1. naive_solver.
        - apply bool_decide_eq_false in E1.
          destruct (bool_decide (q ∈ td)) eqn:E2; simpl.
          + apply bool_decide_eq_true in E2. naive_solver.
          + set_solver. }
      replace (visit size shred_config dn p (g, td) q) with (g', td')
        by (unfold visit, td', g'; rewrite Eq; simpl; by destruct (_ || _)).
      destruct (IH g' td' Hwf') as (H1 & H2 & H3 & H4 & H5).
      split_and!; [done| | | | ].
      * intros x. rewrite H2, Htd', elem_of_cons. split.
        -- intros [[?|[-> ?]]|(? & ? & ?)]; auto.
        -- intros [?|([->|?] & ? & ?)]; auto.
      * intros x Hx. destruct (H3 x Hx) as [Hg|[?|[? ?]]]; auto.
        -- unfold g' in Hg. rewrite nx_facts.nodes_add_edge in Hg.
           rewrite elem_of_cons. set_solver.
        -- right; right. rewrite elem_of_cons; auto.
      * intros x o Hx. apply H4. by apply nx_facts.node_add_edge_old.
      * intros a b. rewrite H5. unfold g'.
        rewrite nx_facts.has_edge_add_edge by done. split.
        -- intros [[?|Hab]|(q' & Hq' & Ho & Hab)]; [by left| |].
           ++ right. exists q. rewrite elem_of_cons. auto.
           ++ right. exists q'. rewrite elem_of_cons. auto.
        -- intros [?|(q' & Hq' & Ho & Hab)]; [by left; left|].
           apply elem_of_cons in Hq' as [->|Hq']; [left; right; done|].
           right. eauto.
Qed.

Lemma invariant_init : Inv (init).
Proof.
  split; unfold init; simpl.
  - apply nx_facts.wf_empty.
  - set_solver.
  - intros p Hp. assert (p = (0, 0)) as -> by set_solver. constructor.
  - set_solver.
  - set_solver.
  - unfold nx.nodes, nx.empty; simpl. rewrite dom_empty_L. set_solver.
  - set_solver.
  - intros a b. unfold nx.has_edge, nx.empty; simpl. split.
    + intros (s & Hs & _). by rewrite lookup_empty in Hs.
    + intros [[H _]|[H _]]; set_solver.
Qed.

Lemma invariant_body p st : Inv st → p ∈ todo st → Inv (body p st).
Proof.
  intros [Hwf Hdisj Hreach Hroot Hclosed Hnodes Hattr Hedges] Hp.
  unfold loop_body.
  set (dn := done st ∪ {[ p ]}).
  set (g := nx.add_node (graph st) p (to_slice p mshape)).
  assert (Hwfg : nx.wf g) by by apply nx_facts.wf_add_node.
  destruct (foldl_visit dn p (nbrs p) g (todo st ∖ {[ p ]}) Hwfg)
    as (F1 & F2 & F3 & F4 & F5).
  assert (Hpd : p ∉ done st) by set_solver.
  split; simpl.
  - exact F1.
  - intros x Hx1 Hx2. apply F2 in Hx2. unfold dn in *. set_solver.
  - intros x Hx. apply elem_of_union in Hx as [Hx|Hx].
    + unfold dn in Hx. apply Hreach. set_solver.
    + apply F2 in Hx as [Hx|(Hx & Ho & _)].
      * apply Hreach. set_solver.
      * apply reach_step with p; [apply Hreach; set_solver|done|done].
  - apply elem_of_union. destruct (decide ((0, 0) = p)) as [<-|Hne].
    + left. unfold dn. set_solver.
    + apply elem_of_union in Hroot as [Hr|Hr].
      * left. unfold dn. set_solver.
      * right. apply F2. left. set_solver.
  - intros x q Hx Hq Ho. apply elem_of_union.
    destruct (decide (q ∈ dn)) as [|Hqd]; [by left|right].
    apply F2. unfold dn in Hx. apply elem_of_union in Hx as [Hx|Hx].
    + left. pose proof (Hclosed x q Hx Hq Ho) as Hc. unfold dn in Hqd.
      clear -Hc Hqd. set_solver.
    + apply elem_of_singleton in Hx as ->. right. done.
  - intros x Hx. apply F3 in Hx as [Hx|[->|[Hx Ho]]].
    + unfold g in Hx. rewrite nx_facts.nodes_add_node in Hx.
      apply elem_of_union in Hx as [Hx|Hx].
      * unfold dn. set_solver.
      * apply Hnodes in Hx. apply elem_of_union.
        destruct (decide (x = p)) as [->|Hne]; [left; unfold dn; set_solver|].
        apply elem_of_union in Hx as [Hx|Hx]; [left; unfold dn; set_solver|].
        right. apply F2. left. set_solver.
    + unfold dn. set_solver.
    + apply elem_of_union.
      destruct (decide (x ∈ dn)) as [|Hxd]; [by left|right].
      apply F2. by right.
  - intros x Hx. apply F4. unfold g. rewrite nx_facts.node_add_node.
    destruct (decide (p = x)) as [->|Hne]; [done|].
    apply Hattr. unfold dn in Hx. set_solver.
  - intros a b. rewrite F5. unfold g.
    rewrite nx_facts.has_edge_add_node by done. rewrite Hedges.
    unfold dn. split.
    + intros [[(Ha & Hb & Ho)|(Hb & Ha & Ho)]|(q & Hq & Ho & [[-> ->]|[-> ->]])].
      * left. split; [set_solver|done].
      * right. split; [set_solver|done].
      * left. split; [set_solver|done].
      * right. split; [set_solver|done].
    + intros [(Ha & Hb & Ho)|(Hb & Ha & Ho)].
      * apply elem_of_union in Ha as [Ha|Ha]; [left; left; done|].
        apply elem_of_singleton in Ha as ->. right. exists b. auto.
      * apply elem_of_union in Hb as [Hb|Hb]; [left; right; done|].
        apply elem_of_singleton in Hb as ->. right. exists a. auto.
Qed.

Lemma invariant_step st st' : Inv st → step size shred_config st st' → Inv st'.
Proof. intros HI (p & Hp & ->). by apply invariant_body. Qed.

Lemma invariant_rtc st st' :
  Inv st → rtc (step size shred_config) st st' → Inv st'.
Proof. intros HI Hr. induction Hr; eauto using invariant_step. Qed.

Lemma invariant_reachable st : rtc (step size shred_config) init st → Inv st.
Proof. apply invariant_rtc, invariant_init. Qed.

(** When the loop exits, [done] is exactly the reachable positions. *)
Lemma final_done st p :
  Inv st → todo st = ∅ → p ∈ done st ↔ reach size shred_config p.
Proof.
  intros [Hwf Hdisj Hreach Hroot Hclosed Hnodes Hattr Hedges] Htodo.
  rewrite Htodo in *. split.
  - intros Hp. apply Hreach. set_solver.
  - induction 1 as [|p q Hp IH Hq Ho].
    + set_solver.
    + pose proof (Hclosed p q IH Hq Ho). set_solver.
Qed.

Lemma final_nodes st :
  Inv st → todo st = ∅ → nx.nodes (graph st) = done st.
Proof.
  intros HI Htodo. destruct HI as [Hwf Hdisj Hreach Hroot Hclosed Hnodes Hattr Hedges].
  rewrite Htodo in *. apply set_eq. intros x. split.
  - intros Hx. apply Hnodes in Hx. set_solver.
  - intros Hx. apply Hattr in Hx. unfold nx.nodes. by apply elem_of_dom_2 in Hx.
Qed.

(** *** Termination *)

Lemma reach_positions p : reach size shred_config p → p ∈ positions size shred_config.
Proof.
  intros Hp. unfold positions. apply elem_of_union.
  destruct Hp as [|p q _ Hq Ho]; [left; by apply elem_of_singleton|right].
  pose proof (neighbors_range _ _ Hq) as [R1 R2].
  pose proof (proj1 (out_of_bounds_false q) Ho) as (H1 & H2 & _).
  apply elem_of_list_to_set, list_elem_of_bind. exists q.1. split.
  - apply list_elem_of_bind. exists q.2. split.
    + replace (q.1, q.2) with q by by destruct q. rewrite Ho.
      apply list_elem_of_here.
    + apply elem_of_seqZ. lia.
  - apply elem_of_seqZ. lia.
Qed.

Lemma invariant_size st :
  Inv st → (base.size (done st)  + base.size (todo st) ≤ max_iterations size shred_config)%nat.
Proof.
  intros HI. rewrite <- size_union by apply HI.
  apply subseteq_size. intros x Hx. apply reach_positions. by apply (inv_reach _ _ _ HI).
Qed.

Lemma step_done_size st st' :
  Inv st → step size shred_config st st' → base.size (done st') = S (base.size (done st)).
Proof.
  intros HI (p & Hp & ->). simpl.
  rewrite size_union, size_singleton; [lia|].
  pose proof (inv_disj _ _ _ HI). set_solver.
Qed.

Lemma nsteps_done_size n st st' :
  Inv st → nsteps (step size shred_config) n st st' →
  Inv st' ∧ base.size (done st') = (base.size (done st) + n)%nat.
Proof.
  intros HI Hn. induction Hn as [|n x y z Hxy Hyz IH]; [split; [done|lia]|].
  destruct (IH (invariant_step _ _ HI Hxy)) as [HI' Hs].
  split; [done|]. rewrite Hs, (step_done_size _ _ HI Hxy). lia.
Qed.

Lemma while_todo_terminates pop (Hpop : pop_policy pop) fuel : ∀ st,
  Inv st →
  (max_iterations size shred_config ≤ fuel + base.size (done st))%nat →
  ∃ st', while_todo size shred_config pop fuel st = Some st'
         ∧ rtc (step size shred_config) st st' ∧ todo st' = ∅.
Proof.
  induction fuel as [|fuel IH]; intros st HI Hsz.
  - simpl. destruct (pop (todo st)) as [p|] eqn:E.
    + apply (pop_elem _ Hpop) in E. pose proof (invariant_size _ HI) as Hle.
      assert (base.size (todo st) ≠ 0%nat).
      { intros H0. apply size_empty_inv in H0. set_solver. }
      lia.
    + exists st. split; [done|]. split; [constructor|]. by apply (pop_none _ Hpop).
  - simpl. destruct (pop (todo st)) as [p|] eqn:E.
    + apply (pop_elem _ Hpop) in E.
      assert (Hst : step size shred_config st (body p st)) by (by exists p).
      destruct (IH (body p st)) as (st' & H1 & H2 & H3).
      * by apply invariant_body.
      * rewrite (step_done_size _ _ HI Hst). lia.
      * exists st'. split; [done|]. split; [|done]. by econstructor.
    + exists st. split; [done|]. split; [constructor|]. by apply (pop_none _ Hpop).
Qed.

Lemma while_todo_sound pop (Hpop : pop_policy pop) fuel : ∀ st st',
  while_todo size shred_config pop fuel st = Some st' →
  rtc (step size shred_config) st st' ∧ todo st' = ∅.
Proof.
  induction fuel as [|fuel IH]; intros st st'; simpl;
    destruct (pop (todo st)) as [p|] eqn:E; try done.
  - intros [= <-]. split; [constructor|]. by apply (pop_none _ Hpop).
  - intros H. destruct (IH _ _ H) as [H1 H2]. split; [|done].
    econstructor; [|done]. exists p. split; [|done]. by apply (pop_elem _ Hpop).
  - intros [= <-]. split; [constructor|]. by apply (pop_none _ Hpop).
Qed.

Lemma cut_to_shreds_sound pop (Hpop : pop_policy pop) fuel g :
  cut_to_shreds size shred_config pop fuel = Some (Return g) →
  cut_to_shreds_returns size shred_config g.
Proof.
  unfold cut_to_shreds. destruct (while_todo _ _ _ _ _) as [st|] eqn:E; simpl; [|done].
  intros [= <-]. destruct (while_todo_sound _ Hpop _ _ _ E). by constructor.
Qed.

Lemma returns_inv g :
  cut_to_shreds_returns size shred_config g →
  ∃ st, Inv st ∧ todo st = ∅ ∧ graph st = g.
Proof.
  inversion 1 as [st Hr Ht]; subst. exists st. split; [|done].
  by apply invariant_reachable.
Qed.

(** *** The graph that is returned *)

Lemma returns_spec g :
  cut_to_shreds_returns size shred_config g →
  nx.wf g
  ∧ (∀ p, p ∈ nx.nodes g ↔ reach size shred_config p)
  ∧ (∀ p, p ∈ nx.nodes g →
          nx.node g !! p = Some (Some (to_slice p mshape)))
  ∧ (∀ a b, nx.has_edge g a b ↔
            a ∈ nx.nodes g ∧ b ∈ nx.nodes g ∧ b ∈ nbrs a
            ∧ (accepted size shred_config a ∨ accepted size shred_config b)).
Proof.
  intros (st & HI & Htodo & <-)%returns_inv.
  pose proof (final_nodes _ HI Htodo) as Hn.
  pose proof (λ p, final_done st p HI Htodo) as Hd.
  split; [apply HI|]. split; [intros p; rewrite Hn; apply Hd|].
  split; [intros p; rewrite Hn; apply HI|].
  intros a b. rewrite (inv_edges _ _ _ HI), Hn, !out_of_bounds_false. split.
  - intros [(Ha & Hb & Ho)|(Hb & Ha & Ho)].
    + assert (reach size shred_config b) as Hrb.
      { apply reach_step with a; [by apply Hd|done|by apply out_of_bounds_false]. }
      split; [done|]. split; [by apply Hd|]. split; [done|by right].
    + assert (reach size shred_config a) as Hra.
      { apply reach_step with b; [by apply Hd|done|by apply out_of_bounds_false]. }
      split; [by apply Hd|]. split; [done|]. split; [|by left].
      apply neighbors_sym; [|done]. apply reach_range. by apply Hd.
  - intros (Ha & Hb & Hab & [Ho|Ho]).
    + right. split; [done|]. split; [|done].
      apply neighbors_sym; [|done]. apply reach_range. by apply Hd.
    + left. done.
Qed.

Lemma returns_deterministic g1 g2 :
  cut_to_shreds_returns size shred_config g1 →
  cut_to_shreds_returns size shred_config g2 → g1 = g2.
Proof.
  intros (W1 & N1 & A1 & E1)%returns_spec (W2 & N2 & A2 & E2)%returns_spec.
  assert (HN : ∀ p, p ∈ nx.nodes g1 ↔ p ∈ nx.nodes g2).
  { intros p. by rewrite N1, N2. }
  apply nx_facts.graph_ext; [done|done| |].
  - intros p. destruct (decide (p ∈ nx.nodes g1)) as [Hp|Hp].
    + rewrite (A1 p Hp). symmetry. by apply A2, HN.
    + rewrite (not_elem_of_dom_1 _ _ Hp). symmetry. apply not_elem_of_dom.
      intros Hp'. by apply Hp, HN.
  - intros a b. by rewrite E1, E2, !HN.
Qed.

Lemma reach_connected g p :
  cut_to_shreds_returns size shred_config g →
  reach size shred_config p → connected_to g (0, 0) p.
Proof.
  intros (W & N & A & E)%returns_spec. induction 1 as [|p q Hp IH Hq Ho].
  - constructor.
  - eapply rtc_r; [apply IH|]. apply E. split; [by apply N|].
    split; [apply N; by apply reach_step with p|]. split; [done|].
    right. by apply out_of_bounds_false.
Qed.

(** *** Without overflow

    Under [no_overflow] the int64 operations of the loop are those of the
    integers, at the root and at every position inside the document. *)

Lemma lattice_step_sym a b :
  lattice_step shred_config a b → lattice_step shred_config b a.
Proof.
  unfold lattice_step, vsub.
  destruct a as [a1 a2], b as [b1 b2], (right shred_config) as [r1 r2],
    (bottom shred_config) as [d1 d2]. cbn [fst snd].
  intros [H|[H|[H|H]]]; injection H as H1 H2;
    [right; left|left|do 3 right|do 2 right; left]; f_equal; lia.
Qed.

Lemma in_bounds_root q :
  in_bounds size shred_config q → in_bounds size shred_config (0, 0).
Proof. unfold in_bounds; cbn [fst snd]. lia. Qed.

Lemma in_bounds_accepted p :
  no_overflow size shred_config →
  in_bounds size shred_config p → accepted size shred_config p.
Proof.
  unfold no_overflow, in_bounds, accepted, shape. cbn [fst snd].
  intros [N1 N2] (H1 & H2 & H3 & H4).
  rewrite !int64_id by (unfold int64_min, int64_max in *; lia). done.
Qed.

Lemma no_overflow_neighbors p q :
  no_overflow size shred_config →
  p = (0, 0) ∨ in_bounds size shred_config p →
  q ∈ nbrs p ↔ lattice_step shred_config p q.
Proof.
  intros [N1 N2] Hp. rewrite elem_of_neighbors.
  assert (Hr : (0 ≤ p.1 ≤ Z.max size.1 mshape.1)
               ∧ (0 ≤ p.2 ≤ Z.max size.2 mshape.2)).
  { unfold in_bounds, shape in *. cbn [fst snd] in *.
    destruct Hp as [-> | ?]; cbn [fst snd]; lia. }
  clear Hp. unfold np_sub, np_add, lattice_step, vsub.
  revert N1 N2 Hr.
  destruct p as [p1 p2], q as [q1 q2], (right shred_config) as [r1 r2],
    (bottom shred_config) as [b1 b2]. cbn [fst snd]. intros N1 N2 [Hr1 Hr2].
  rewrite !int64_id by (unfold int64_min, int64_max in *; lia).
  split.
  - intros [H|[H|[H|H]]]; injection H as -> ->;
      [right; left|left|do 3 right|do 2 right; left]; f_equal; lia.
  - intros [H|[H|[H|H]]]; injection H as H1 H2;
      [right; left|left|do 3 right|do 2 right; left]; f_equal; lia.
Qed.

Lemma no_overflow_accepted p q :
  no_overflow size shred_config →
  p = (0, 0) ∨ in_bounds size shred_config p →
  q ∈ nbrs p →
  accepted size shred_config q ↔ in_bounds size shred_config q.
Proof.
  intros Hno Hp Hq. apply (no_overflow_neighbors p q Hno Hp) in Hq.
  destruct Hno as [N1 N2].
  assert (Hr : (0 ≤ p.1 ≤ Z.max size.1 mshape.1 - mshape.1)
               ∧ (0 ≤ p.2 ≤ Z.max size.2 mshape.2 - mshape.2)).
  { unfold in_bounds, shape in *. cbn [fst snd] in *.
    destruct Hp as [-> | ?]; cbn [fst snd]; lia. }
  clear Hp. unfold lattice_step, vsub, accepted, in_bounds, shape in *.
  revert N1 N2 Hr Hq.
  destruct p as [p1 p2], q as [q1 q2], (right shred_config) as [r1 r2],
    (bottom shred_config) as [b1 b2]. cbn [fst snd]. intros N1 N2 [Hr1 Hr2] Hq.
  assert ((int64_min ≤ q1 + Z.of_nat (length (mask shred_config)) ≤ int64_max)
          ∧ (int64_min ≤ q2 + Z.of_nat (width (mask shred_config)) ≤ int64_max))
    as [Q1 Q2].
  { unfold int64_min, int64_max in *.
    destruct Hq as [H|[H|[H|H]]]; injection H as H1 H2; lia. }
  by rewrite !int64_id.
Qed.

(** The positions reached are the root and positions inside the document. *)
Lemma no_overflow_reach p :
  no_overflow size shred_config →
  reach size shred_config p →
  p = (0, 0) ∨ in_bounds size shred_config p.
Proof.
  intros Hno. induction 1 as [|p q _ IH Hq Ho]; [by left|right].
  apply (no_overflow_accepted p q); [done..|]. by apply out_of_bounds_false.
Qed.

Lemma returns_spec_no_overflow g a b :
  no_overflow size shred_config →
  cut_to_shreds_returns size shred_config g →
  nx.has_edge g a b ↔
  a ∈ nx.nodes g ∧ lattice_step shred_config a b
  ∧ in_bounds size shred_config a ∧ in_bounds size shred_config b.
Proof.
  intros Hno (W & N & A & E)%returns_spec. rewrite E. split.
  - intros (Ha & Hb & Hab & Hacc).
    pose proof (no_overflow_reach a Hno (proj1 (N a) Ha)) as Hsa.
    pose proof (no_overflow_reach b Hno (proj1 (N b) Hb)) as Hsb.
    split; [done|]. split; [by apply no_overflow_neighbors|].
    assert (in_bounds size shred_config a ∨ in_bounds size shred_config b) as Hin.
    { destruct Hacc as [Hacc|Hacc].
      - left. apply (no_overflow_accepted b a); [done..| |done].
        apply neighbors_sym; [|done]. apply reach_range. by apply N.
      - right. by apply (no_overflow_accepted a b). }
    assert (in_bounds size shred_config (0, 0)) as H0
      by (destruct Hin as [Hin|Hin]; by apply in_bounds_root in Hin).
    split; [by destruct Hsa as [-> | ?]|by destruct Hsb as [-> | ?]].
  - intros (Ha & Hs & Hia & Hib).
    assert (b ∈ nbrs a) as Hab by (apply no_overflow_neighbors; auto).
    split; [done|]. split; [|split; [done|]].
    + apply N. apply reach_step with a; [by apply N|done|].
      by apply out_of_bounds_false, in_bounds_accepted.
    + right. by apply in_bounds_accepted.
Qed.

Lemma never_raises e : ¬ cut_to_shreds_outcome size shred_config (Raise e).
Proof. inversion 1. Qed.

End traversal.

(** ** Runs of the scenarios *)

Lemma pop_first_policy : pop_policy pop_first.
Proof.
  split; unfold pop_first.
  - intros s p Hp. apply elem_of_elements. destruct (elements s); simplify_eq/=. set_solver.
  - intros s Hs. apply leibniz_equiv, elements_empty_inv.
    destruct (elements s); simplify_eq/=. done.
Qed.

Lemma pop_last_policy : pop_policy pop_last.
Proof.
  split; unfold pop_last.
  - intros s p Hp. by apply elem_of_elements, last_Some_elem_of.
  - intros s Hs. by apply leibniz_equiv, elements_empty_inv, last_None.
Qed.

Lemma run_A_returns :
  cut_to_shreds (220, 220) config_A pop_first 4 = Some (Return graph_A).
Proof. vm_compute. reflexivity. Qed.

Lemma graph_A_returned : cut_to_shreds_returns (220, 220) config_A graph_A.
Proof.
  apply cut_to_shreds_sound with pop_first 4%nat;
    [apply pop_first_policy|exact run_A_returns].
Qed.

Lemma run_A_last_returns :
  cut_to_shreds (220, 220) config_A pop_last 4 = Some (Return graph_A_last).
Proof. vm_compute. reflexivity. Qed.

Lemma graph_A_last_returned : cut_to_shreds_returns (220, 220) config_A graph_A_last.
Proof.
  apply cut_to_shreds_sound with pop_last 4%nat;
    [apply pop_last_policy|exact run_A_last_returns].
Qed.

Lemma run_B_returns :
  cut_to_shreds (3, 3) config_B pop_first 3 = Some (Return graph_B).
Proof. vm_compute. reflexivity. Qed.

Lemma graph_B_returned : cut_to_shreds_returns (3, 3) config_B graph_B.
Proof.
  apply cut_to_shreds_sound with pop_first 3%nat;
    [apply pop_first_policy|exact run_B_returns].
Qed.

Lemma run_C_returns :
  cut_to_shreds (1, 1) config_C pop_first 1 = Some (Return graph_C).
Proof. vm_compute. reflexivity. Qed.

Lemma graph_C_returned : cut_to_shreds_returns (1, 1) config_C graph_C.
Proof.
  apply cut_to_shreds_sound with pop_first 1%nat;
    [apply pop_first_policy|exact run_C_returns].
Qed.

Lemma run_A_swapped_returns :
  cut_to_shreds (220, 220) config_A_swapped pop_first 4
  = Some (Return graph_A_swapped).
Proof. vm_compute. reflexivity. Qed.

Lemma graph_A_swapped_returned :
  cut_to_shreds_returns (220, 220) config_A_swapped graph_A_swapped.
Proof.
  apply cut_to_shreds_sound with pop_first 4%nat;
    [apply pop_first_policy|exact run_A_swapped_returns].
Qed.

Lemma run_C_larger_returns :
  cut_to_shreds (3, 3) config_C pop_first 4 = Some (Return graph_C_larger).
Proof. vm_compute. reflexivity. Qed.

Lemma graph_C_larger_returned :
  cut_to_shreds_returns (3, 3) config_C graph_C_larger.
Proof.
  apply cut_to_shreds_sound with pop_first 4%nat;
    [apply pop_first_policy|exact run_C_larger_returns].
Qed.

Lemma run_wrap_returns :
  cut_to_shreds (3, 3) config_wrap pop_first 6 = Some (Return graph_wrap).
Proof. vm_compute. reflexivity. Qed.

Lemma graph_wrap_returned : cut_to_shreds_returns (3, 3) config_wrap graph_wrap.
Proof.
  apply cut_to_shreds_sound with pop_first 6%nat;
    [apply pop_first_policy|exact run_wrap_returns].
Qed.

Lemma in_bounds_A p :
  in_bounds (220, 220) config_A p ↔ 0 ≤ p.1 ≤ 120 ∧ 0 ≤ p.2 ≤ 120.
Proof. unfold in_bounds, shape, width; simpl. lia. Qed.

Lemma no_overflow_A : no_overflow (220, 220) config_A.
Proof. unfold no_overflow, shape, width, int64_max; simpl. lia. Qed.

Lemma no_overflow_C : no_overflow (1, 1) config_C.
Proof. unfold no_overflow, shape, width, int64_max; simpl. lia. Qed.

(** With the offset [int64_max], the sum of the bounds test at
    (0, int64_max) wraps to [int64_min] and passes the test. *)
Lemma not_in_bounds_wrap : ¬ in_bounds (3, 3) config_wrap (0, int64_max).
Proof. unfold in_bounds, shape, width, int64_max; simpl. lia. Qed.

(** ** The claims about cut_to_shreds *)

(** C1, as stated, fails.  Scenario B on a 3x3 document with a 1x1 mask
    ([right = (0,1)], [bottom = (0,0)]) is malformed, yet the call returns:
    a graph on the nodes (0,0), (0,1), (0,2), each with a self-loop.
    Raising [InvalidConfiguration] is not among its outcomes. *)
Lemma degenerate_offsets_return :
  malformed (3, 3) config_B
  ∧ cut_to_shreds (3, 3) config_B pop_first 3 = Some (Return graph_B)
  ∧ cut_to_shreds_outcome (3, 3) config_B (Return graph_B)
  ∧ nx.nodes graph_B = {[ (0, 0); (0, 1); (0, 2) ]}
  ∧ nx.has_edgeb graph_B (0, 0) (0, 0) = true
  ∧ ¬ cut_to_shreds_outcome (3, 3) config_B (Raise InvalidConfiguration).
Proof.
  split; [right; left; reflexivity|].
  split; [exact run_B_returns|].
  split; [exact graph_B_returned|].
  split; [vm_compute; reflexivity|].
  split; [vm_compute; reflexivity|apply never_raises].
Qed.

(** C1, amended.  cut_to_shreds validates nothing and never fails: for
    every size and shred configuration, malformed or not, and every way of
    popping, the loop takes at most [max_iterations] turns, a turn is always
    possible while [todo] is non-empty, the call returns a graph, and no
    exception is among its outcomes. *)
Theorem cut_to_shreds_total size shred_config pop :
  pop_policy pop →
  (∃ g, cut_to_shreds size shred_config pop (max_iterations size shred_config)
        = Some (Return g))
  ∧ (∀ n st, nsteps (step size shred_config) n init st →
             (n ≤ max_iterations size shred_config)%nat)
  ∧ (∀ st, todo st ≠ ∅ → ∃ st', step size shred_config st st')
  ∧ (∀ e, ¬ cut_to_shreds_outcome size shred_config (Raise e)).
Proof.
  intros Hpop. split; [|split; [|split]].
  - destruct (while_todo_terminates size shred_config pop Hpop
                (max_iterations size shred_config) init)
      as (st & Hst & _ & _).
    + apply invariant_init.
    + apply Nat.le_add_r.
    + exists (graph st). unfold cut_to_shreds. by rewrite Hst.
  - intros n st Hn.
    destruct (nsteps_done_size size shred_config n init st (invariant_init _ _) Hn)
      as [HI Hs].
    pose proof (invariant_size _ _ _ HI).
    change (done init) with (∅ : gset point) in Hs. rewrite size_empty in Hs. lia.
  - intros st Hne. apply set_choose_L in Hne as [p Hp].
    by exists (loop_body size shred_config p st), p.
  - intros e. apply never_raises.
Qed.

Lemma cut_to_shreds_total_witness :
  pop_policy pop_first
  ∧ (∃ g, cut_to_shreds (3, 3) config_B pop_first (max_iterations (3, 3) config_B)
          = Some (Return g))
  ∧ (∀ n st, nsteps (step (3, 3) config_B) n init st →
             (n ≤ max_iterations (3%Z, 3%Z) config_B)%nat)
  ∧ (∀ st, todo st ≠ ∅ → ∃ st', step (3, 3) config_B st st')
  ∧ (∀ e, ¬ cut_to_shreds_outcome (3, 3) config_B (Raise e)).
Proof.
  split; [exact pop_first_policy|].
  exact (cut_to_shreds_total (3, 3) config_B pop_first pop_first_policy).
Defined.

(** C3, as stated, fails.  On a 3x3 document with a 1x1 mask,
    [right = (0, int64_max)] and [bottom = (1, 0)], the int64 sum
    [neighbor + mask.shape] of the bounds test wraps around at
    (0, int64_max) and the test passes: every returned graph has the edge
    from (0,0) to (0, int64_max), a step of [right], although the slice at
    (0, int64_max) is outside the document. *)
Lemma wrapped_edge_out_of_bounds :
  cut_to_shreds (3, 3) config_wrap pop_first 6 = Some (Return graph_wrap)
  ∧ (∀ g, cut_to_shreds_returns (3, 3) config_wrap g →
          nx.has_edge g (0, 0) (0, int64_max))
  ∧ lattice_step config_wrap (0, 0) (0, int64_max)
  ∧ ¬ in_bounds (3, 3) config_wrap (0, int64_max).
Proof.
  split; [exact run_wrap_returns|]. split.
  - intros g Hg.
    rewrite (returns_deterministic _ _ _ _ Hg graph_wrap_returned).
    apply nx_facts.has_edgeb_true. vm_compute. reflexivity.
  - split; [by left|exact not_in_bounds_wrap].
Qed.

(** C3, amended.  When no int64 operation of the loop can wrap around
    ([no_overflow]) and a or b is a node of the returned graph, (a, b) is
    an edge if and only if b − a is one of ±right, ±bottom and the slices of
    a and of b both lie within the document. *)
Theorem edge_iff_lattice_step_from_node size shred_config g a b :
  no_overflow size shred_config →
  cut_to_shreds_returns size shred_config g →
  a ∈ nx.nodes g ∨ b ∈ nx.nodes g →
  nx.has_edge g a b ↔
  lattice_step shred_config a b
  ∧ in_bounds size shred_config a ∧ in_bounds size shred_config b.
Proof.
  intros Hno Hg Hnode.
  rewrite (returns_spec_no_overflow size shred_config g a b Hno Hg). split.
  - intros (_ & H). exact H.
  - intros (Hs & Hia & Hib). split; [|done].
    destruct Hnode as [Ha|Hb]; [done|].
    assert (nx.has_edge g b a) as Hba.
    { apply (returns_spec_no_overflow size shred_config g b a Hno Hg).
      split; [done|]. split; [by apply lattice_step_sym|done]. }
    apply (returns_spec size shred_config g Hg) in Hba.
    by destruct Hba as (_ & Ha & _).
Qed.

Lemma edge_iff_lattice_step_from_node_witness :
  no_overflow (220, 220) config_A
  ∧ cut_to_shreds_returns (220, 220) config_A graph_A
  ∧ (0, 110) ∈ nx.nodes graph_A
  ∧ (nx.has_edge graph_A (0, 110) (110, 110) ↔
     lattice_step config_A (0, 110) (110, 110)
     ∧ in_bounds (220, 220) config_A (0, 110)
     ∧ in_bounds (220, 220) config_A (110, 110)).
Proof.
  assert (H : (0, 110) ∈ nx.nodes graph_A)
    by (apply (bool_decide_unpack _); vm_compute; exact I).
  split; [exact no_overflow_A|]. split; [exact graph_A_returned|].
  split; [exact H|].
  exact (edge_iff_lattice_step_from_node (220, 220) config_A graph_A
           (0, 110) (110, 110) no_overflow_A graph_A_returned (or_introl H)).
Defined.

(** C4, as stated, fails.  On a 3x3 document with a 1x1 mask, which fits,
    [right = (0, int64_max)] and [bottom = (1, 0)], the int64 sum of the
    bounds test wraps around: every returned graph has six nodes, among
    them (0, int64_max), a position whose slice is outside the document. *)
Lemma wrapped_node_out_of_bounds :
  (shape (mask config_wrap)).1 ≤ 3 ∧ (shape (mask config_wrap)).2 ≤ 3
  ∧ cut_to_shreds (3, 3) config_wrap pop_first 6 = Some (Return graph_wrap)
  ∧ (∀ g, cut_to_shreds_returns (3, 3) config_wrap g →
          (0, int64_max) ∈ nx.nodes g ∧ nx.number_of_nodes g = 6%nat)
  ∧ ¬ in_bounds (3, 3) config_wrap (0, int64_max).
Proof.
  split; [vm_compute; discriminate|]. split; [vm_compute; discriminate|].
  split; [exact run_wrap_returns|]. split; [|exact not_in_bounds_wrap].
  intros g Hg. rewrite (returns_deterministic _ _ _ _ Hg graph_wrap_returned).
  split; [apply (bool_decide_unpack _); vm_compute; exact I|].
  vm_compute. reflexivity.
Qed.

(** C4, amended.  When mask.shape ≤ size component-wise and no int64
    operation of the loop can wrap around ([no_overflow]), every node p of
    the returned graph is in bounds, and its slice attribute is the
    rectangle of shape mask.shape anchored at p, inside [0, size). *)
Theorem nodes_in_bounds size shred_config g p :
  no_overflow size shred_config →
  (shape (mask shred_config)).1 ≤ size.1 →
  (shape (mask shred_config)).2 ≤ size.2 →
  cut_to_shreds_returns size shred_config g →
  p ∈ nx.nodes g →
  in_bounds size shred_config p
  ∧ ∃ rows cols,
      nx.node g !! p = Some (Some (rows, cols))
      ∧ 0 ≤ start rows ∧ stop rows ≤ size.1
      ∧ 0 ≤ start cols ∧ stop cols ≤ size.2
      ∧ start rows = p.1 ∧ start cols = p.2
      ∧ stop rows - start rows = (shape (mask shred_config)).1
      ∧ stop cols - start cols = (shape (mask shred_config)).2.
Proof.
  intros Hno Hm1 Hm2 Hg Hp. destruct (returns_spec _ _ _ Hg) as (W & N & A & E).
  assert (Hb : in_bounds size shred_config p).
  { apply N in Hp.
    destruct (no_overflow_reach size shred_config p Hno Hp) as [-> | ?]; [|done].
    unfold in_bounds; cbn [fst snd]. lia. }
  split; [done|]. eexists _, _. split; [by apply A|].
  unfold in_bounds in Hb. cbn [fst snd start stop]. lia.
Qed.

Lemma nodes_in_bounds_witness :
  no_overflow (220, 220) config_A
  ∧ (shape (mask config_A)).1 ≤ 220 ∧ (shape (mask config_A)).2 ≤ 220
  ∧ cut_to_shreds_returns (220, 220) config_A graph_A
  ∧ (110, 110) ∈ nx.nodes graph_A
  ∧ in_bounds (220, 220) config_A (110, 110).
Proof.
  assert (H1 : (shape (mask config_A)).1 ≤ 220) by (vm_compute; discriminate).
  assert (H2 : (shape (mask config_A)).2 ≤ 220) by (vm_compute; discriminate).
  assert (H3 : (110, 110) ∈ nx.nodes graph_A)
    by (apply (bool_decide_unpack _); vm_compute; exact I).
  split; [exact no_overflow_A|].
  split; [exact H1|]. split; [exact H2|]. split; [exact graph_A_returned|].
  split; [exact H3|].
  exact (proj1 (nodes_in_bounds (220, 220) config_A graph_A (110, 110)
                  no_overflow_A H1 H2 graph_A_returned H3)).
Defined.

(** C6.  For nonzero offsets, every node of the returned graph is reachable
    from (0,0) along edges of the graph, and the graph has no self-loop. *)
Theorem graph_connected_no_self_loops size shred_config g :
  right shred_config ≠ (0, 0) →
  bottom shred_config ≠ (0, 0) →
  cut_to_shreds_returns size shred_config g →
  (∀ p, p ∈ nx.nodes g → connected_to g (0, 0) p)
  ∧ (∀ p, ¬ nx.has_edge g p p).
Proof.
  intros Hr Hb Hg. split.
  - intros p Hp. apply reach_connected with size shred_config; [done|].
    by apply (returns_spec _ _ _ Hg).
  - intros p Hpp. destruct (returns_spec _ _ _ Hg) as (W & N & A & E).
    apply E in Hpp as (Hp & _ & Hs & _).
    apply neighbors_self in Hs as [?|?]; [done|done|].
    apply (reach_range size shred_config). by apply N.
Qed.

Lemma graph_connected_no_self_loops_witness :
  right config_A ≠ (0, 0) ∧ bottom config_A ≠ (0, 0)
  ∧ cut_to_shreds_returns (220, 220) config_A graph_A
  ∧ (∀ p, p ∈ nx.nodes graph_A → connected_to graph_A (0, 0) p)
  ∧ (∀ p, ¬ nx.has_edge graph_A p p).
Proof.
  assert (H1 : right config_A ≠ (0, 0)) by discriminate.
  assert (H2 : bottom config_A ≠ (0, 0)) by discriminate.
  split; [exact H1|]. split; [exact H2|]. split; [exact graph_A_returned|].
  exact (graph_connected_no_self_loops (220, 220) config_A graph_A
           H1 H2 graph_A_returned).
Defined.

(** C7.  Scenario A: size (220,220), right (0,110), bottom (110,0) and a
    100x100 mask give exactly the nodes (0,0), (0,110), (110,0), (110,110)
    and exactly four edges, which form the cycle
    (0,0) - (0,110) - (110,110) - (110,0) - (0,0). *)
Theorem scenario_A_four_cycle g :
  cut_to_shreds_returns (220, 220) config_A g →
  nx.nodes g = {[ (0, 0); (0, 110); (110, 0); (110, 110) ]}
  ∧ nx.number_of_nodes g = 4%nat
  ∧ nx.number_of_edges g = 4%nat
  ∧ nx.neighbors g (0, 0) = {[ (0, 110); (110, 0) ]}
  ∧ nx.neighbors g (0, 110) = {[ (0, 0); (110, 110) ]}
  ∧ nx.neighbors g (110, 110) = {[ (0, 110); (110, 0) ]}
  ∧ nx.neighbors g (110, 0) = {[ (110, 110); (0, 0) ]}.
Proof.
  intros Hg. rewrite (returns_deterministic _ _ _ _ Hg graph_A_returned).
  vm_compute. repeat split; reflexivity.
Qed.

Lemma scenario_A_four_cycle_witness :
  cut_to_shreds_returns (220, 220) config_A graph_A
  ∧ nx.number_of_nodes graph_A = 4%nat
  ∧ nx.number_of_edges graph_A = 4%nat.
Proof.
  split; [exact graph_A_returned|].
  pose proof (scenario_A_four_cycle graph_A graph_A_returned) as (_ & H1 & H2 & _).
  exact (conj H1 H2).
Defined.

(** C8.  The returned graph does not depend on the order in which [todo]
    is popped: any two runs on the same size and configuration end with the
    same nodes, the same edges and the same slice attributes. *)
Theorem traversal_order_irrelevant size shred_config g1 g2 :
  cut_to_shreds_returns size shred_config g1 →
  cut_to_shreds_returns size shred_config g2 →
  nx.nodes g1 = nx.nodes g2
  ∧ (∀ a b, nx.has_edge g1 a b ↔ nx.has_edge g2 a b)
  ∧ (∀ p, nx.node g1 !! p = nx.node g2 !! p)
  ∧ g1 = g2.
Proof.
  intros H1 H2. by rewrite (returns_deterministic size shred_config g1 g2 H1 H2).
Qed.

Lemma traversal_order_irrelevant_witness :
  cut_to_shreds (220, 220) config_A pop_first 4 = Some (Return graph_A)
  ∧ cut_to_shreds (220, 220) config_A pop_last 4 = Some (Return graph_A_last)
  ∧ graph_A = graph_A_last.
Proof.
  split; [exact run_A_returns|]. split; [exact run_A_last_returns|].
  exact (proj2 (proj2 (proj2
    (traversal_order_irrelevant (220, 220) config_A graph_A graph_A_last
       graph_A_returned graph_A_last_returned)))).
Defined.

(** C10.  Whatever the size and the configuration, also when the mask
    exceeds the document, the returned graph has the node (0,0) with its
    slice attribute: it is never empty. *)
Theorem root_is_always_a_node size shred_config g :
  cut_to_shreds_returns size shred_config g →
  nx.node g !! (0, 0) = Some (Some (to_slice (0, 0) (shape (mask shred_config))))
  ∧ (0, 0) ∈ nx.nodes g
  ∧ nx.nodes g ≠ ∅.
Proof.
  intros (W & N & A & E)%returns_spec.
  assert (H0 : (0, 0) ∈ nx.nodes g) by (apply N; constructor).
  split; [by apply A|]. split; [done|]. set_solver.
Qed.

Lemma root_is_always_a_node_witness :
  cut_to_shreds_returns (1, 1) config_C graph_C
  ∧ ¬ in_bounds (1, 1) config_C (0, 0)
  ∧ nx.node graph_C !! (0, 0)
    = Some (Some ({| start := 0; stop := 2 |}, {| start := 0; stop := 2 |})).
Proof.
  split; [exact graph_C_returned|]. split.
  - unfold in_bounds, shape, width; simpl. lia.
  - exact (proj1 (root_is_always_a_node (1, 1) config_C graph_C graph_C_returned)).
Defined.

(** ** Arrays *)

Section arrays.

Implicit Types (img a b : ndarray) (h w r c : nat).

Lemma pixel_Some img r c v :
  pixel img r c = Some v ↔ ∃ row, img !! r = Some row ∧ row !! c = Some v.
Proof.
  unfold pixel. destruct (img !! r) as [row|]; simpl; [|naive_solver].
  split; [eauto|]. by intros (? & [= <-] & ?).
Qed.

Lemma pixel_map2d f img r c : pixel (map2d f img) r c = f <$> pixel img r c.
Proof.
  unfold pixel, map2d. rewrite list_lookup_fmap.
  destruct (img !! r) as [row|]; simpl; [|done]. apply list_lookup_fmap.
Qed.

Lemma pixel_zip2d f a b r c :
  pixel (zip2d f a b) r c
  = x ← pixel a r c; y ← pixel b r c; Some (f x y).
Proof.
  unfold pixel, zip2d. rewrite lookup_zip_with.
  destruct (a !! r) as [ra|]; simpl; [|done].
  destruct (b !! r) as [rb|]; simpl.
  - rewrite lookup_zip_with. by destruct (ra !! c).
  - by destruct (ra !! c).
Qed.

Lemma pixel_imap2d f img r c : pixel (imap2d f img) r c = f r c <$> pixel img r c.
Proof.
  unfold pixel, imap2d. rewrite list_lookup_imap.
  destruct (img !! r) as [row|]; simpl; [|done]. apply list_lookup_imap.
Qed.

Lemma has_shape_lookup h w img r row :
  has_shape h w img → img !! r = Some row → (r < h)%nat ∧ length row = w.
Proof.
  intros [Hh Hw] Hr. split.
  - rewrite <- Hh. by apply lookup_lt_Some in Hr.
  - by apply (Forall_lookup_1 _ _ _ _ Hw Hr).
Qed.

Lemma has_shape_pixel h w img r c :
  has_shape h w img → is_Some (pixel img r c) ↔ (r < h)%nat ∧ (c < w)%nat.
Proof.
  intros Hs. split.
  - intros [v (row & Hr & Hc)%pixel_Some].
    destruct (has_shape_lookup _ _ _ _ _ Hs Hr) as [? <-].
    split; [done|]. by apply lookup_lt_Some in Hc.
  - intros [Hr Hc]. destruct Hs as [Hh Hw].
    destruct (lookup_lt_is_Some_2 img r) as [row Hrow]; [lia|].
    pose proof (Forall_lookup_1 _ _ _ _ Hw Hrow) as Hl. simpl in Hl.
    destruct (lookup_lt_is_Some_2 row c) as [v Hv]; [lia|].
    exists v. apply pixel_Some. eauto.
Qed.

Lemma has_shape_width h w img : has_shape h w img → h ≠ 0%nat → width img = w.
Proof.
  intros [Hh Hw] Hne. unfold width. destruct img as [|row img]; [done|]. simpl.
  by inversion Hw.
Qed.

Lemma has_shape_map2d f h w img : has_shape h w img → has_shape h w (map2d f img).
Proof.
  intros [Hh Hw]. split; unfold map2d.
  - by rewrite length_fmap.
  - apply Forall_fmap. eapply Forall_impl; [done|]. intros row Hr; simpl.
    by rewrite length_map.
Qed.

Lemma has_shape_imap2d f h w img : has_shape h w img → has_shape h w (imap2d f img).
Proof.
  intros [Hh Hw]. split; unfold imap2d.
  - by rewrite length_imap.
  - apply Forall_lookup. intros i row. rewrite list_lookup_imap.
    destruct (img !! i) as [row'|] eqn:E; simpl; [|done]. intros [= <-].
    rewrite length_imap. by apply (Forall_lookup_1 _ _ _ _ Hw E).
Qed.

Lemma has_shape_zip2d f h w a b :
  has_shape h w a → has_shape h w b → has_shape h w (zip2d f a b).
Proof.
  intros [Ha Hwa] [Hb Hwb]. split; unfold zip2d.
  - rewrite length_zip_with. lia.
  - apply Forall_lookup. intros i row. rewrite lookup_zip_with.
    destruct (a !! i) as [ra|] eqn:Ea; simpl; [|done].
    destruct (b !! i) as [rb|] eqn:Eb; simpl; [|done]. intros [= <-].
    rewrite length_zip_with.
    pose proof (Forall_lookup_1 _ _ _ _ Hwa Ea) as H1.
    pose proof (Forall_lookup_1 _ _ _ _ Hwb Eb) as H2. simpl in *. lia.
Qed.

Lemma is_binary_pixel img r c v :
  is_binary img → pixel img r c = Some v → v = 0 ∨ v = 255.
Proof.
  intros Hb (row & Hr & Hc)%pixel_Some.
  pose proof (Forall_lookup_1 _ _ _ _ Hb Hr) as Hrow. simpl in Hrow.
  by apply (Forall_lookup_1 _ _ _ _ Hrow Hc).
Qed.

Lemma is_binary_intro img :
  (∀ r c v, pixel img r c = Some v → v = 0 ∨ v = 255) → is_binary img.
Proof.
  intros H. apply Forall_lookup. intros r row Hr.
  apply Forall_lookup. intros c v Hc. apply (H r c). apply pixel_Some. eauto.
Qed.

(** Two arrays with the same rows and pixels are equal. *)
Lemma imap2d_ext f g img :
  (∀ r c v, pixel img r c = Some v → f r c v = g r c v) →
  imap2d f img = imap2d g img.
Proof.
  intros H. unfold imap2d. apply imap_ext. intros r row Hr.
  apply imap_ext. intros c v Hc. apply H. apply pixel_Some. eauto.
Qed.

Lemma imap2d_imap2d f g img :
  imap2d f (imap2d g img) = imap2d (λ r c v, f r c (g r c v)) img.
Proof.
  unfold imap2d. apply list_eq. intros r. rewrite !list_lookup_imap.
  destruct (img !! r) as [row|]; simpl; [|done]. f_equal.
  apply list_eq. intros c. rewrite !list_lookup_imap. by destruct (row !! c).
Qed.

Lemma map2d_imap2d f g img :
  map2d f (imap2d g img) = imap2d (λ r c v, f (g r c v)) img.
Proof.
  unfold imap2d, map2d. apply list_eq. intros r.
  rewrite list_lookup_fmap, !list_lookup_imap.
  destruct (img !! r) as [row|]; simpl; [|done]. f_equal.
  apply list_eq. intros c. rewrite list_lookup_fmap, !list_lookup_imap.
  by destruct (row !! c).
Qed.

Lemma map2d_as_imap2d f img : map2d f img = imap2d (λ _ _, f) img.
Proof.
  unfold imap2d, map2d. apply list_eq. intros r.
  rewrite list_lookup_fmap, list_lookup_imap.
  destruct (img !! r) as [row|]; simpl; [|done]. f_equal.
  apply list_eq. intros c. by rewrite list_lookup_fmap, list_lookup_imap.
Qed.

Lemma zip2d_diag f img : zip2d f img img = map2d (λ v, f v v) img.
Proof.
  unfold zip2d, map2d. apply list_eq. intros r.
  rewrite lookup_zip_with, list_lookup_fmap.
  destruct (img !! r) as [row|]; simpl; [|done]. f_equal.
  apply list_eq. intros c. rewrite lookup_zip_with, list_lookup_fmap.
  by destruct (row !! c).
Qed.

(** Zipping with an array whose pixels depend on the position only. *)
Lemma zip2d_imap2d_const f (k : nat → nat → Z) h w a b :
  has_shape h w a → has_shape h w b →
  zip2d f a (imap2d (λ r c _, k r c) b) = imap2d (λ r c v, f v (k r c)) a.
Proof.
  intros Ha Hb. unfold zip2d, imap2d. apply list_eq. intros r.
  rewrite lookup_zip_with, !list_lookup_imap.
  destruct (a !! r) as [ra|] eqn:Ea; simpl; [|done].
  destruct (has_shape_lookup _ _ _ _ _ Ha Ea) as [Hr Hla].
  destruct (lookup_lt_is_Some_2 b r) as [rb Eb]; [destruct Hb; lia|].
  destruct (has_shape_lookup _ _ _ _ _ Hb Eb) as [_ Hlb].
  rewrite Eb; simpl. f_equal. apply list_eq. intros c.
  rewrite lookup_zip_with, !list_lookup_imap.
  destruct (ra !! c) as [v|] eqn:Ec; simpl; [|done].
  destruct (lookup_lt_is_Some_2 rb c) as [v' Ec'].
  { apply lookup_lt_Some in Ec. lia. }
  by rewrite Ec'.
Qed.

Lemma slice_1_m1_framed {A} (x y : A) (l : list A) : slice_1_m1 (x :: l ++ [y]) = l.
Proof.
  unfold slice_1_m1. cbn [length drop]. rewrite length_app; cbn [length].
  replace (S (length l + 1) - 2)%nat with (length l) by lia.
  by rewrite drop_0, take_app_length.
Qed.

(** Slicing the border off a padded array gives the array back, also
    under a map that knows the positions. *)
Lemma inner_imap2d_pad f img :
  inner (imap2d f (pad_image img 1)) = imap2d (λ r c v, f (S r) (S c) v) img.
Proof.
  unfold inner, imap2d, pad_image. cbn [replicate app].
  rewrite imap_cons, imap_app. cbn [imap].
  rewrite slice_1_m1_framed. rewrite imap_fmap, fmap_imap.
  apply imap_ext. intros r row Hr. cbn [compose].
  rewrite imap_cons, imap_app. cbn [imap]. by rewrite slice_1_m1_framed.
Qed.

Lemma length_pad_image img : length (pad_image img 1) = S (S (length img)).
Proof. unfold pad_image; simpl. rewrite length_app, length_fmap; simpl. lia. Qed.

Lemma width_pad_image img : width (pad_image img 1) = S (S (width img)).
Proof. unfold pad_image, width at 1; simpl. rewrite length_replicate. lia. Qed.

Lemma elem_of_argwhere_eq img v r c :
  (r, c) ∈ argwhere_eq img v ↔ pixel img r c = Some v.
Proof.
  unfold argwhere_eq. rewrite list_elem_of_join. split.
  - intros (l & Hin & Hl). apply elem_of_lookup_imap in Hl as (r' & row & -> & Hr).
    apply list_elem_of_join in Hin as (l' & Hin & Hl').
    apply elem_of_lookup_imap in Hl' as (c' & x & -> & Hc).
    case_bool_decide; [|by apply elem_of_nil in Hin].
    apply list_elem_of_singleton in Hin as [= -> ->]. subst.
    apply pixel_Some. eauto.
  - intros (row & Hr & Hc)%pixel_Some.
    pose proof (elem_of_lookup_imap_2
      (λ c x, if bool_decide (x = v) then [(r, c)] else []) row v c Hc) as H1.
    cbv beta in H1. rewrite bool_decide_eq_true_2 in H1 by done.
    pose proof (elem_of_lookup_imap_2
      (λ r row, mjoin (imap (λ c x, if bool_decide (x = v) then [(r, c)] else [])
                         row)) img row r Hr) as H2.
    cbv beta in H2. eexists. split; [|exact H2]. apply list_elem_of_join.
    eexists. split; [|exact H1]. apply list_elem_of_here.
Qed.

Lemma elem_of_all_pixels img r c :
  (r, c) ∈ all_pixels img ↔ is_Some (pixel img r c).
Proof.
  unfold all_pixels. rewrite list_elem_of_join. split.
  - intros (l & Hin & Hl). apply elem_of_lookup_imap in Hl as (r' & row & -> & Hr).
    apply elem_of_lookup_imap in Hin as (c' & x & [= -> ->] & Hc).
    exists x. apply pixel_Some. eauto.
  - intros [v (row & Hr & Hc)%pixel_Some].
    pose proof (elem_of_lookup_imap_2 (λ c (_ : Z), (r, c)) row v c Hc) as H1.
    pose proof (elem_of_lookup_imap_2
      (λ r row, imap (λ c (_ : Z), (r, c)) row) img row r Hr) as H2.
    cbv beta in H1, H2. eauto.
Qed.

Lemma np_size_shape h w img : has_shape h w img → np_size img = (h * w)%nat.
Proof.
  intros [<- Hw]. unfold np_size. induction img as [|row img IH]; [done|].
  inversion Hw as [|?? Hrow Hrest]; subst. simpl in *.
  rewrite length_app, IH by done. lia.
Qed.

End arrays.

(** ** The flood fill *)

Section flood_fill.

Implicit Types (wo : ndarray) (q p : position) (filled : gset position).

Lemma width_map2d f img : width (map2d f img) = width img.
Proof. unfold width, map2d. destruct img; simpl; [done|]. by rewrite length_map. Qed.

Lemma length_map2d f img : length (map2d f img) = length img.
Proof. unfold map2d. by rewrite length_fmap. Qed.

Lemma is_binary_uint8 img r c v :
  is_binary img → pixel img r c = Some v → 0 ≤ v ≤ 255.
Proof. intros Hb Hv. destruct (is_binary_pixel _ _ _ _ Hb Hv); lia. Qed.

Lemma pixel_pad_image img r c v :
  pixel img r c = Some v → pixel (pad_image img 1) (S r) (S c) = Some v.
Proof.
  intros (row & Hr & Hc)%pixel_Some. apply pixel_Some.
  exists (0 :: row ++ [0]). split.
  - unfold pad_image. cbn [replicate app]. rewrite lookup_cons_ne_0 by done.
    cbn [pred]. apply lookup_app_l_Some. by rewrite list_lookup_fmap, Hr.
  - rewrite lookup_cons_ne_0 by done. cbn [pred]. by apply lookup_app_l_Some.
Qed.

Lemma pixel_fill_mask h w wo r c v :
  has_shape h w wo → pixel wo r c = Some v →
  pixel (fill_mask wo) (S r) (S c) = Some (u8 (255 - v)).
Proof.
  intros Hs Hv. unfold fill_mask, set_border, rsub.
  rewrite pixel_imap2d, pixel_map2d, (pixel_pad_image _ _ _ _ Hv).
  cbn [fmap option_fmap option_map].
  destruct (proj1 (has_shape_pixel _ _ _ r c Hs)) as [Hr Hc]; [by eexists|].
  rewrite bool_decide_eq_false_2; [done|].
  rewrite length_map2d, length_pad_image, width_map2d, width_pad_image.
  rewrite (has_shape_width h w) by (done || lia).
  destruct Hs as [Hh _]. lia.
Qed.

Lemma fillable_spec h w wo filled q :
  has_shape h w wo → is_binary wo →
  (fillable wo (fill_mask wo) filled q = true
   ↔ (q ∉ filled) ∧ opened wo q
     ∧ ∃ p, p ∈ neighbours4 q ∧ p ∈ filled ∧ opened wo p).
Proof.
  intros Hs Hb. unfold fillable, opened.
  rewrite andb_true_iff, bool_decide_eq_true.
  destruct (pixel wo q.1 q.2) as [v|] eqn:Ev.
  - rewrite (pixel_fill_mask _ _ _ _ _ _ Hs Ev).
    pose proof (is_binary_uint8 _ _ _ _ Hb Ev) as Hv.
    assert (Hu : u8 (255 - v) = 0 ↔ v = 255).
    { unfold u8. rewrite Z.mod_small by lia. lia. }
    destruct (u8 (255 - v)) eqn:Eu.
    + assert (v = 255) as -> by by apply Hu.
      rewrite existsb_exists. split.
      * intros (Hq & p & Hp & (H1 & H2)%andb_true_iff).
        apply bool_decide_eq_true in H1, H2. split; [done|]. split; [done|].
        exists p. by rewrite list_elem_of_In.
      * intros (Hq & _ & p & Hp & H1 & H2). split; [done|]. exists p.
        rewrite <- list_elem_of_In. split; [done|].
        apply andb_true_iff. by rewrite !bool_decide_eq_true.
    + split; [intros [_ [=]]|]. intros (_ & [= ->] & _). lia.
    + split; [intros [_ [=]]|]. intros (_ & [= ->] & _). lia.
  - split; [|by intros (_ & [=] & _)]. intros [_ H].
    by destruct (pixel (fill_mask wo) (S q.1) (S q.2)) as [[]|].
Qed.

Lemma elem_of_grow h w wo filled q :
  has_shape h w wo → is_binary wo →
  q ∈ grow wo (fill_mask wo) filled ↔
  q ∈ filled ∨ (opened wo q ∧ ∃ p, p ∈ neighbours4 q ∧ p ∈ filled ∧ opened wo p).
Proof.
  intros Hs Hb. unfold grow.
  rewrite elem_of_union, elem_of_list_to_set, list_elem_of_filter.
  rewrite (fillable_spec h w) by done. split.
  - intros [?|[(_ & ? & ?) _]]; auto.
  - intros [?|[Ho Hp]]; [by left|].
    destruct (decide (q ∈ filled)); [by left|right]. split; [done|].
    destruct q as [r c]. apply elem_of_all_pixels. by eexists.
Qed.

Lemma grow_subseteq wo msk filled : filled ⊆ grow wo msk filled.
Proof. unfold grow. set_solver. Qed.

Lemma iter_grow_mono wo msk s n m :
  (n ≤ m)%nat → Nat.iter n (grow wo msk) s ⊆ Nat.iter m (grow wo msk) s.
Proof.
  induction 1 as [|m _ IH]; [done|]. simpl.
  etrans; [exact IH|]. apply grow_subseteq.
Qed.

Lemma iter_grow_opened h w wo seed n q :
  has_shape h w wo → is_binary wo → opened wo seed →
  q ∈ Nat.iter n (grow wo (fill_mask wo)) {[ seed ]} → opened wo q.
Proof.
  intros Hs Hb Hseed. revert q. induction n as [|n IH]; intros q; simpl.
  - by intros ->%elem_of_singleton.
  - rewrite (elem_of_grow h w) by done. intros [?|[? _]]; auto.
Qed.

(** Two working images of one shape, the second opened only where the
    first is, and opened on all that the first fill reaches: the fills
    agree round by round. *)
Lemma iter_grow_agree h w wo wo' seed fuel n :
  has_shape h w wo → is_binary wo →
  has_shape h w wo' → is_binary wo' →
  opened wo seed →
  (∀ q, opened wo' q → opened wo q) →
  (∀ q, q ∈ Nat.iter fuel (grow wo (fill_mask wo)) {[ seed ]} → opened wo' q) →
  (n ≤ fuel)%nat →
  Nat.iter n (grow wo' (fill_mask wo')) {[ seed ]}
  = Nat.iter n (grow wo (fill_mask wo)) {[ seed ]}.
Proof.
  intros Hs Hb Hs' Hb' Hseed Hsub Hreg. induction n as [|n IH]; intros Hn; [done|].
  simpl. rewrite IH by lia. apply set_eq. intros q.
  rewrite (elem_of_grow h w wo), (elem_of_grow h w wo') by done.
  set (s := Nat.iter n (grow wo (fill_mask wo)) {[ seed ]}).
  assert (Hs_reg : ∀ p, p ∈ grow wo (fill_mask wo) s → opened wo' p).
  { intros p Hp. apply Hreg.
    apply (iter_grow_mono wo (fill_mask wo) {[ seed ]} (S n) fuel Hn). exact Hp. }
  split.
  - intros [?|(Hq & p & Hp & Hps & Hpo)]; [by left|right].
    split; [by apply Hsub|]. exists p. auto.
  - intros [?|(Hq & p & Hp & Hps & Hpo)]; [by left|right].
    split.
    + apply Hs_reg. apply (elem_of_grow h w); [done..|]. right. eauto.
    + exists p. split; [done|]. split; [done|]. apply Hs_reg, grow_subseteq, Hps.
Qed.

Lemma fill_region_opened h w wo seed :
  has_shape h w wo → is_binary wo → opened wo seed →
  fill_region wo (fill_mask wo) seed
  = Nat.iter (h * w) (grow wo (fill_mask wo)) {[ seed ]}.
Proof.
  intros Hs Hb Hseed. unfold fill_region, opened in *.
  rewrite (pixel_fill_mask _ _ _ _ _ _ Hs Hseed), Hseed.
  by rewrite (np_size_shape h w).
Qed.

Lemma fill_region_agree h w wo wo' seed :
  has_shape h w wo → is_binary wo →
  has_shape h w wo' → is_binary wo' →
  opened wo seed → opened wo' seed →
  (∀ q, opened wo' q → opened wo q) →
  (∀ q, q ∈ fill_region wo (fill_mask wo) seed → opened wo' q) →
  fill_region wo' (fill_mask wo') seed = fill_region wo (fill_mask wo) seed.
Proof.
  intros Hs Hb Hs' Hb' Hseed Hseed' Hsub Hreg.
  rewrite (fill_region_opened h w wo) in * by done.
  rewrite (fill_region_opened h w wo') by done.
  by apply (iter_grow_agree h w wo wo' seed (h * w)).
Qed.

End flood_fill.

Section fill_adequacy.

Variables (h w : nat) (wo : ndarray) (seed : position).
Hypothesis Hs : has_shape h w wo.
Hypothesis Hb : is_binary wo.
Hypothesis Hseed : opened wo seed.

#[local] Abbreviation round n := (Nat.iter n (grow wo (fill_mask wo)) {[ seed ]}).

Lemma size_list_to_set_le (l : list position) :
  (size (list_to_set l : gset position) ≤ length l)%nat.
Proof.
  induction l as [|x l IH].
  - by rewrite list_to_set_nil, size_empty.
  - rewrite list_to_set_cons, size_union_alt, size_singleton. cbn [length].
    assert (list_to_set l ∖ {[ x ]} ⊆ (list_to_set l : gset position)) as Hsub
      by set_solver.
    apply subseteq_size in Hsub. lia.
Qed.

Lemma length_join_imap {A B} (f : nat → list A → list B) (ls : list (list A)) :
  (∀ i l, length (f i l) = length l) →
  length (mjoin (imap f ls)) = length (mjoin ls).
Proof.
  revert f. induction ls as [|l ls IH]; intros f Hf; [done|].
  rewrite imap_cons. cbn [mjoin list_join]. rewrite !length_app, Hf.
  f_equal. apply IH. intros i l'. apply Hf.
Qed.

Lemma length_all_pixels : length (all_pixels wo) = (h * w)%nat.
Proof.
  unfold all_pixels. rewrite length_join_imap by (intros; apply length_imap).
  by apply np_size_shape.
Qed.

Lemma round_size n : (size (round n) ≤ h * w)%nat.
Proof.
  rewrite <- length_all_pixels.
  etrans; [|apply (size_list_to_set_le (all_pixels wo))].
  apply subseteq_size. intros [r c] Hq. apply elem_of_list_to_set, elem_of_all_pixels.
  apply (iter_grow_opened h w) in Hq; [|done..]. by eexists.
Qed.

Lemma round_fixed_or_larger n :
  grow wo (fill_mask wo) (round n) = round n ∨ (n + 1 ≤ size (round n))%nat.
Proof.
  induction n as [|n IH].
  - right. change (1 ≤ size ({[ seed ]} : gset position))%nat.
    by rewrite size_singleton.
  - destruct IH as [IH|IH]; [left; simpl; by rewrite !IH|].
    destruct (decide (grow wo (fill_mask wo) (round n) = round n)) as [E|E].
    + left. simpl. by rewrite !E.
    + right. simpl.
      assert (round n ⊂ grow wo (fill_mask wo) (round n)) as Hlt%subset_size.
      { split; [apply grow_subseteq|]. intros Hsub. apply E.
        apply set_eq. intros q. split; [apply Hsub|apply grow_subseteq]. }
      lia.
Qed.

(** The rounds of [fill_region] reach a fixed point. *)
Lemma fill_region_fixed :
  grow wo (fill_mask wo) (fill_region wo (fill_mask wo) seed)
  = fill_region wo (fill_mask wo) seed.
Proof.
  rewrite (fill_region_opened h w) by done.
  destruct (round_fixed_or_larger (h * w)) as [E|E]; [done|].
  pose proof (round_size (h * w)). lia.
Qed.

(** [fill_region] is the connected component of the seed. *)
Lemma fill_region_reach q :
  q ∈ fill_region wo (fill_mask wo) seed ↔ fill_reach wo seed q.
Proof.
  split.
  - rewrite (fill_region_opened h w) by done. generalize (h * w)%nat as n.
    intros n. revert q. induction n as [|n IH]; intros q; simpl.
    + intros ->%elem_of_singleton. constructor.
    + rewrite (elem_of_grow h w) by done.
      intros [?|(Hq & p & Hp & Hin & _)]; [by apply IH|].
      apply fill_reach_step with p; auto.
  - induction 1 as [|p q _ IH Hp Hq].
    + rewrite (fill_region_opened h w) by done.
      apply (iter_grow_mono _ _ _ 0); [lia|]. set_solver.
    + rewrite <- fill_region_fixed. apply (elem_of_grow h w); [done..|].
      right. split; [done|]. exists p. split; [done|]. split; [done|].
      rewrite (fill_region_opened h w) in IH by done.
      by apply (iter_grow_opened h w wo seed (h * w)).
Qed.

End fill_adequacy.

(** ** preserve_outermost *)

Section filter.

Variables (h w : nat) (img fg : ndarray).
Hypothesis Himg : has_shape h w img.
Hypothesis Hfg : has_shape h w fg.

#[local] Abbreviation outside := (threshold_binary_inv fg 254 255).

Lemma has_shape_outside : has_shape h w outside.
Proof. by apply has_shape_map2d. Qed.

Lemma has_shape_with_outside : has_shape h w (with_outside_of img fg).
Proof. apply has_shape_zip2d; [done|apply has_shape_outside]. Qed.

Lemma pixel_outside r c :
  pixel outside r c = (λ v, if v >? 254 then 0 else 255) <$> pixel fg r c.
Proof. apply pixel_map2d. Qed.

Lemma pixel_with_outside r c :
  pixel (with_outside_of img fg) r c
  = i ← pixel img r c; m ← pixel fg r c;
    Some (Z.max i (if m >? 254 then 0 else 255)).
Proof.
  unfold with_outside_of, np_maximum. rewrite pixel_zip2d, pixel_outside.
  destruct (pixel img r c); simpl; [|done]. by destruct (pixel fg r c).
Qed.

Lemma is_binary_with_outside : is_binary img → is_binary (with_outside_of img fg).
Proof.
  intros Hb. apply is_binary_intro. intros r c v. rewrite pixel_with_outside.
  destruct (pixel img r c) as [i|] eqn:Ei; simpl; [|done].
  destruct (pixel fg r c) as [m|]; simpl; [|done]. intros [= <-].
  destruct (is_binary_pixel _ _ _ _ Hb Ei) as [-> | ->]; destruct (m >? 254); lia.
Qed.

Lemma opened_with_outside r c :
  is_binary img →
  opened (with_outside_of img fg) (r, c) ↔
  ∃ i m, pixel img r c = Some i ∧ pixel fg r c = Some m ∧ (i = 255 ∨ m ≤ 254).
Proof.
  intros Hb. unfold opened. cbn [fst snd]. rewrite pixel_with_outside.
  destruct (pixel img r c) as [i|] eqn:Ei; simpl; [|naive_solver].
  destruct (pixel fg r c) as [m|]; simpl; [|naive_solver].
  destruct (is_binary_pixel _ _ _ _ Hb Ei) as [-> | ->].
  - destruct (Z.gtb_spec m 254); split.
    + intros [=].
    + intros (? & ? & [= <-] & [= <-] & [?|?]); lia.
    + intros _. exists 0, m. split; [done|]. split; [done|]. right; lia.
    + done.
  - split; [intros _; exists 255, m; auto|]. intros _. f_equal.
    destruct (m >? 254); lia.
Qed.

Lemma seed_opened seed :
  is_binary img →
  argwhere_eq outside 255 !! 0%nat = Some seed →
  opened (with_outside_of img fg) seed.
Proof.
  intros Hb Hs. apply list_elem_of_lookup_2 in Hs. destruct seed as [r c].
  apply elem_of_argwhere_eq in Hs. rewrite pixel_outside in Hs.
  destruct (pixel fg r c) as [m|] eqn:Em; simpl in Hs; [|done].
  destruct (proj2 (has_shape_pixel h w img r c Himg)) as [i Hi].
  { apply (has_shape_pixel h w fg r c Hfg). by eexists. }
  apply opened_with_outside; [done|]. exists i, m. split; [done|]. split; [done|].
  right. destruct (Z.gtb_spec m 254); [by inversion Hs|lia].
Qed.

(** What the filter returns when a seed is found. *)
Lemma preserve_outermost_seeded seed :
  is_binary img →
  argwhere_eq outside 255 !! 0%nat = Some seed →
  preserve_outermost img fg
  = Return (keep_region
              (fill_region (with_outside_of img fg)
                           (fill_mask (with_outside_of img fg)) seed) img).
Proof.
  intros Hb Hs. unfold preserve_outermost. cbv zeta. rewrite Hs.
  fold (with_outside_of img fg). set (wo := with_outside_of img fg).
  unfold floodFill. cbn [fst snd]. fold (fill_mask wo).
  replace (seed.1, seed.2) with seed by by destruct seed.
  set (filled := fill_region wo (fill_mask wo) seed).
  f_equal. unfold bitwise_and, eq_scalar, mark, fill_mask, set_border, rsub.
  rewrite (map2d_as_imap2d _ (pad_image wo 1)).
  rewrite !imap2d_imap2d, map2d_imap2d, inner_imap2d_pad.
  assert (Hwo : has_shape h w wo) by apply has_shape_with_outside.
  assert (Hbwo : is_binary wo) by by apply is_binary_with_outside.
  rewrite (imap2d_ext _ (λ r c _, if bool_decide ((r, c) ∈ filled) then 1 else 0) wo).
  - rewrite zip2d_diag.
    rewrite (zip2d_imap2d_const _ _ h w) by (done || by apply has_shape_map2d).
    rewrite map2d_as_imap2d, imap2d_imap2d. unfold keep_region.
    apply imap2d_ext. intros r c v _. rewrite Z.land_diag.
    by destruct (bool_decide ((r, c) ∈ filled)).
  - intros r c v Hv.
    destruct (bool_decide ((r, c) ∈ filled)); [done|].
    destruct (proj1 (has_shape_pixel _ _ _ r c Hwo)) as [Hr Hc]; [by eexists|].
    set (msk := imap2d (λ (_ _ : nat) (v0 : Z), u8 (255 - v0)) (pad_image wo 1)).
    assert (Hborder : ¬ (S r = 0%nat ∨ S (S r) = length msk
                         ∨ S c = 0%nat ∨ S (S c) = width msk)).
    { unfold msk.
      change (imap2d (λ (_ _ : nat) (v0 : Z), u8 (255 - v0)) (pad_image wo 1))
        with (imap2d (λ _ _, (λ v0, u8 (255 - v0))) (pad_image wo 1)).
      rewrite <- map2d_as_imap2d.
      rewrite length_map2d, length_pad_image, width_map2d, width_pad_image.
      rewrite (has_shape_width h w) by (done || lia).
      destruct Hwo as [Hh _]. lia. }
    rewrite (bool_decide_eq_false_2 _ Hborder).
    pose proof (is_binary_uint8 _ _ _ _ Hbwo Hv) as Hu.
    unfold u8. rewrite Z.mod_small by lia.
    rewrite bool_decide_eq_false_2; [done|].
    destruct (is_binary_pixel _ _ _ _ Hbwo Hv); lia.
Qed.

End filter.

Lemma has_shape_keep_region h w filled img :
  has_shape h w img → has_shape h w (keep_region filled img).
Proof. apply has_shape_imap2d. Qed.

Lemma pixel_keep_region filled img r c :
  pixel (keep_region filled img) r c
  = (λ v, if bool_decide ((r, c) ∈ filled) then v else 0) <$> pixel img r c.
Proof. apply pixel_imap2d. Qed.

Lemma is_binary_keep_region filled img :
  is_binary img → is_binary (keep_region filled img).
Proof.
  intros Hb. apply is_binary_intro. intros r c v. rewrite pixel_keep_region.
  destruct (pixel img r c) as [i|] eqn:Ei; simpl; [|done]. intros [= <-].
  case_bool_decide; [by apply (is_binary_pixel _ _ _ _ Hb Ei)|by left].
Qed.

Lemma keep_region_idemp filled img :
  keep_region filled (keep_region filled img) = keep_region filled img.
Proof.
  unfold keep_region. rewrite imap2d_imap2d. apply imap2d_ext.
  intros r c v _. by case_bool_decide.
Qed.

Lemma fill_region_in_opened h w wo seed q :
  has_shape h w wo → is_binary wo → opened wo seed →
  q ∈ fill_region wo (fill_mask wo) seed → opened wo q.
Proof.
  intros Hs Hb Hseed. rewrite (fill_region_opened h w) by done.
  by apply (iter_grow_opened h w).
Qed.

(** The second pass fills the region of the first. *)
Lemma fill_region_second_pass h w img fg seed :
  has_shape h w img → has_shape h w fg → is_binary img →
  argwhere_eq (threshold_binary_inv fg 254 255) 255 !! 0%nat = Some seed →
  let wo := with_outside_of img fg in
  let filled := fill_region wo (fill_mask wo) seed in
  let wo' := with_outside_of (keep_region filled img) fg in
  fill_region wo' (fill_mask wo') seed = filled.
Proof.
  intros Himg Hfg Hb Hs wo filled wo'.
  assert (Hwo : has_shape h w wo) by by apply has_shape_with_outside.
  assert (Hbwo : is_binary wo) by by apply is_binary_with_outside.
  assert (Hk : has_shape h w (keep_region filled img))
    by by apply has_shape_keep_region.
  assert (Hbk : is_binary (keep_region filled img))
    by by apply is_binary_keep_region.
  assert (Hseed : opened wo seed) by by apply (seed_opened h w).
  apply (fill_region_agree h w).
  - done.
  - done.
  - by apply has_shape_with_outside.
  - by apply is_binary_with_outside.
  - done.
  - by apply (seed_opened h w).
  - intros [r c]. unfold wo', wo. rewrite !opened_with_outside by done.
    rewrite pixel_keep_region.
    intros (j & m & Hj & Hm & Hor).
    destruct (pixel img r c) as [i|]; simpl in Hj; [|done].
    exists i, m. split; [done|]. split; [done|].
    destruct Hor as [->|?]; [left|by right].
    revert Hj. case_bool_decide; intros [=]. done.
  - intros [r c] Hq.
    pose proof (fill_region_in_opened h w wo seed (r, c) Hwo Hbwo Hseed Hq) as Ho.
    unfold wo in Ho. apply opened_with_outside in Ho as (i & m & Hi & Hm & Hor); [|done].
    unfold wo'. apply opened_with_outside; [done|].
    exists i, m. split; [|done]. rewrite pixel_keep_region, Hi. simpl.
    by rewrite bool_decide_eq_true_2.
Qed.

Lemma valid_pair_seed h w img fg :
  valid_pair h w img fg →
  ∃ seed, argwhere_eq (threshold_binary_inv fg 254 255) 255 !! 0%nat = Some seed.
Proof.
  intros (_ & _ & _ & Hu & r & c & m & Hm & Hne).
  assert (Hin : (r, c) ∈ argwhere_eq (threshold_binary_inv fg 254 255) 255).
  { apply elem_of_argwhere_eq. unfold threshold_binary_inv.
    rewrite pixel_map2d, Hm. simpl.
    assert (0 ≤ m ≤ 255).
    { apply pixel_Some in Hm as (row & Hr & Hc).
      pose proof (Forall_lookup_1 _ _ _ _ Hu Hr) as Hrow. simpl in Hrow.
      apply (Forall_lookup_1 _ _ _ _ Hrow Hc). }
    destruct (Z.gtb_spec m 254); [lia|done]. }
  destruct (argwhere_eq (threshold_binary_inv fg 254 255) 255) as [|seed l].
  - by apply elem_of_nil in Hin.
  - by exists seed.
Qed.

(** C5 *)
Theorem preserve_outermost_idempotent h w img fg :
  valid_pair h w img fg →
  ∃ out, preserve_outermost img fg = Return out
         ∧ preserve_outermost out fg = Return out.
Proof.
  intros Hv. destruct (valid_pair_seed _ _ _ _ Hv) as [seed Hs].
  destruct Hv as (Himg & Hfg & Hb & _).
  eexists. split; [by apply (preserve_outermost_seeded h w)|].
  rewrite (preserve_outermost_seeded h w (keep_region _ img) fg
             (has_shape_keep_region _ _ _ _ Himg) Hfg seed
             (is_binary_keep_region _ _ Hb) Hs).
  rewrite (fill_region_second_pass h w img fg seed) by done.
  by rewrite keep_region_idemp.
Qed.

Lemma preserve_outermost_idempotent_witness :
  valid_pair 5 5 example_image example_mask
  ∧ preserve_outermost example_image example_mask = Return example_filtered
  ∧ ∃ out, preserve_outermost example_image example_mask = Return out
           ∧ preserve_outermost out example_mask = Return out.
Proof.
  assert (Hv : valid_pair 5 5 example_image example_mask).
  { split; [split; [reflexivity|repeat constructor]|].
    split; [split; [reflexivity|repeat constructor]|].
    split; [repeat first [apply Forall_nil_2|apply Forall_cons_2|by left|by right]|].
    split; [repeat first [apply Forall_nil_2|apply Forall_cons_2|lia]|].
    exists 0%nat, 0%nat, 0. split; [reflexivity|lia]. }
  split; [exact Hv|]. split; [vm_compute; reflexivity|].
  exact (preserve_outermost_idempotent 5 5 example_image example_mask Hv).
Defined.

(** C2 counterexample *)
Lemma all_white_mask_raises_IndexError :
  has_shape 1 1 [[0]] ∧ has_shape 1 1 [[255]]
  ∧ (∀ r c v, pixel [[255]] r c = Some v → v = 255)
  ∧ preserve_outermost [[0]] [[255]] = Raise IndexError
  ∧ preserve_outermost [[0]] [[255]] ≠ Raise InvalidMask.
Proof.
  split; [split; [reflexivity|repeat constructor]|].
  split; [split; [reflexivity|repeat constructor]|].
  split.
  - intros [|r] [|c] v; try done; cbn; try by intros [= <-].
  - split; [reflexivity|discriminate].
Qed.

(** C2 amended *)
Theorem preserve_outermost_no_seed h w img fg :
  has_shape h w img → has_shape h w fg →
  (∀ r c v, pixel fg r c = Some v → v = 255) →
  preserve_outermost img fg = Raise IndexError.
Proof.
  intros _ _ Hall. unfold preserve_outermost. cbv zeta.
  destruct (argwhere_eq _ 255 !! 0%nat) as [[r c]|] eqn:E; [|done].
  apply list_elem_of_lookup_2, elem_of_argwhere_eq in E.
  unfold threshold_binary_inv in E. rewrite pixel_map2d in E.
  destruct (pixel fg r c) as [m|] eqn:Em; simpl in E; [|done].
  rewrite (Hall _ _ _ Em) in E. done.
Qed.

Lemma preserve_outermost_no_seed_witness :
  has_shape 1 1 [[0]] ∧ has_shape 1 1 [[255]]
  ∧ (∀ r c v, pixel [[255]] r c = Some v → v = 255)
  ∧ preserve_outermost [[0]] [[255]] = Raise IndexError.
Proof.
  assert (H1 : has_shape 1 1 [[0]]) by (split; [reflexivity|repeat constructor]).
  assert (H2 : has_shape 1 1 [[255]]) by (split; [reflexivity|repeat constructor]).
  assert (H3 : ∀ r c v, pixel [[255]] r c = Some v → v = 255).
  { intros [|r] [|c] v; try done; cbn; try by intros [= <-]. }
  split; [exact H1|]. split; [exact H2|]. split; [exact H3|].
  exact (preserve_outermost_no_seed 1 1 [[0]] [[255]] H1 H2 H3).
Defined.

(** ** More on the graph of cut_to_shreds *)

Lemma size_list_to_set_bound `{Countable A} (l : list A) :
  (size (list_to_set l : gset A) ≤ length l)%nat.
Proof.
  induction l as [|x l IH].
  - by rewrite list_to_set_nil, size_empty.
  - rewrite list_to_set_cons, size_union_alt, size_singleton. cbn [length].
    assert (list_to_set l ∖ {[ x ]} ⊆ (list_to_set l : gset A)) as Hsub
      by set_solver.
    apply subseteq_size in Hsub. lia.
Qed.

Lemma elem_of_nx_neighbors g a b : b ∈ nx.neighbors g a ↔ nx.has_edge g a b.
Proof.
  unfold nx.neighbors, nx.has_edge. rewrite lookup_total_alt.
  destruct (nx.adj g !! a) as [s|]; simpl.
  - split; [eauto|]. by intros (? & [= <-] & ?).
  - split; [set_solver|]. by intros (? & [=] & _).
Qed.

Lemma graph_A_edge : nx.has_edge graph_A (0, 0) (0, 110).
Proof. apply nx_facts.has_edgeb_true. vm_compute. reflexivity. Qed.

(** The nodes of the returned graph are exactly the positions that can be
    reached from (0,0) by int64 steps of ±right and ±bottom through
    positions that pass the bounds test of the loop, and every node carries
    the slice of shape mask.shape anchored at it. *)
Theorem nodes_are_the_reachable_positions size shred_config g p :
  cut_to_shreds_returns size shred_config g →
  (p ∈ nx.nodes g ↔ reach size shred_config p)
  ∧ (p ∈ nx.nodes g →
     nx.node g !! p = Some (Some (to_slice p (shape (mask shred_config))))).
Proof.
  intros (W & N & A & E)%returns_spec. split; [apply N|apply A].
Qed.

Lemma nodes_are_the_reachable_positions_witness :
  cut_to_shreds_returns (3, 3) config_wrap graph_wrap
  ∧ ((0, int64_max) ∈ nx.nodes graph_wrap
     ↔ reach (3, 3) config_wrap (0, int64_max)).
Proof.
  split; [exact graph_wrap_returned|].
  exact (proj1 (nodes_are_the_reachable_positions (3, 3) config_wrap graph_wrap
                  (0, int64_max) graph_wrap_returned)).
Defined.

(** The returned graph is undirected and has no dangling edge: with the
    edge (a, b) it has the edge (b, a), and both ends are nodes. *)
Theorem edges_are_symmetric_between_nodes size shred_config g a b :
  cut_to_shreds_returns size shred_config g →
  nx.has_edge g a b →
  nx.has_edge g b a ∧ a ∈ nx.nodes g ∧ b ∈ nx.nodes g.
Proof.
  intros Hg Hab. destruct (returns_spec _ _ _ Hg) as (W & N & A & E).
  apply E in Hab as (Ha & Hb & Hs & Hacc).
  split; [|done]. apply E. split; [done|]. split; [done|]. split.
  - apply neighbors_sym; [|done]. apply (reach_range size shred_config).
    by apply N.
  - destruct Hacc; auto.
Qed.

Lemma edges_are_symmetric_between_nodes_witness :
  cut_to_shreds_returns (220, 220) config_A graph_A
  ∧ nx.has_edge graph_A (0, 0) (0, 110)
  ∧ nx.has_edge graph_A (0, 110) (0, 0).
Proof.
  split; [exact graph_A_returned|]. split; [exact graph_A_edge|].
  exact (proj1 (edges_are_symmetric_between_nodes (220, 220) config_A graph_A
                  (0, 0) (0, 110) graph_A_returned graph_A_edge)).
Defined.

(** A position has at most four neighbours in the returned graph, all of
    them among its left, right, top and bottom positions. *)
Theorem at_most_four_neighbours size shred_config g a :
  cut_to_shreds_returns size shred_config g →
  nx.neighbors g a ⊆ list_to_set (neighbors shred_config a)
  ∧ (base.size (nx.neighbors g a) ≤ 4)%nat.
Proof.
  intros Hg. destruct (returns_spec _ _ _ Hg) as (W & N & A & E).
  assert (Hsub : nx.neighbors g a ⊆ list_to_set (neighbors shred_config a)).
  { intros b Hb. apply elem_of_nx_neighbors, E in Hb as (_ & _ & Hs & _).
    by apply elem_of_list_to_set. }
  split; [done|]. etrans; [apply subseteq_size, Hsub|].
  apply (size_list_to_set_bound (neighbors shred_config a)).
Qed.

Lemma at_most_four_neighbours_witness :
  cut_to_shreds_returns (220, 220) config_A graph_A
  ∧ (base.size (nx.neighbors graph_A (0%Z, 0%Z)) ≤ 4)%nat.
Proof.
  split; [exact graph_A_returned|].
  exact (proj2 (at_most_four_neighbours (220, 220) config_A graph_A (0, 0)
                  graph_A_returned)).
Defined.

(** The [while] loop takes one turn per node: a run that ends with an
    empty [todo] after [n] turns has built a graph of [n] nodes, and [done]
    holds exactly the nodes; no position is popped twice. *)
Theorem one_turn_per_node size shred_config n st :
  nsteps (step size shred_config) n init st → todo st = ∅ →
  n = nx.number_of_nodes (graph st) ∧ done st = nx.nodes (graph st).
Proof.
  intros Hn Ht.
  destruct (nsteps_done_size size shred_config n init st (invariant_init _ _) Hn)
    as [HI Hs].
  change (done init) with (∅ : gset point) in Hs. rewrite size_empty in Hs.
  pose proof (final_nodes _ _ _ HI Ht) as Hnodes. split; [|done].
  unfold nx.number_of_nodes. rewrite <- size_dom. fold (nx.nodes (graph st)).
  rewrite Hnodes. lia.
Qed.

Lemma one_turn_per_node_witness :
  nsteps (step (1, 1) config_C) 1 init (loop_body (1, 1) config_C (0, 0) init)
  ∧ todo (loop_body (1, 1) config_C (0, 0) init) = ∅
  ∧ 1%nat = nx.number_of_nodes (graph (loop_body (1, 1) config_C (0, 0) init)).
Proof.
  assert (H1 : nsteps (step (1, 1) config_C) 1 init
                 (loop_body (1, 1) config_C (0, 0) init)).
  { apply nsteps_once. exists (0, 0). split; [|reflexivity].
    apply (bool_decide_unpack _). vm_compute. exact I. }
  assert (H2 : todo (loop_body (1, 1) config_C (0, 0) init) = ∅)
    by (vm_compute; reflexivity).
  split; [exact H1|]. split; [exact H2|].
  exact (proj1 (one_turn_per_node (1, 1) config_C 1
                  (loop_body (1, 1) config_C (0, 0) init) H1 H2)).
Defined.

(** A mask larger than the document gives the graph of the single node
    (0,0), without edges, when no int64 operation of the loop can wrap
    around. *)
Theorem oversized_mask_gives_single_node size shred_config g :
  no_overflow size shred_config →
  ¬ ((shape (mask shred_config)).1 ≤ size.1
     ∧ (shape (mask shred_config)).2 ≤ size.2) →
  cut_to_shreds_returns size shred_config g →
  nx.nodes g = {[ (0, 0) ]} ∧ ∀ a b, ¬ nx.has_edge g a b.
Proof.
  intros Hover Hbig Hg. destruct (returns_spec _ _ _ Hg) as (W & N & A & E).
  assert (Hno : ∀ q, ¬ in_bounds size shred_config q).
  { intros q Hq. apply Hbig. unfold in_bounds in Hq. lia. }
  split.
  - apply set_eq. intros p. rewrite N, elem_of_singleton. split.
    + intros Hp.
      destruct (no_overflow_reach size shred_config p Hover Hp) as [-> | Hp'];
        [done|]. by apply Hno in Hp'.
    + intros ->. constructor.
  - intros a b Hab.
    apply (returns_spec_no_overflow size shred_config g a b Hover Hg) in Hab
      as (_ & _ & Ha & _).
    by apply Hno in Ha.
Qed.

Lemma oversized_mask_gives_single_node_witness :
  no_overflow (1, 1) config_C
  ∧ ¬ ((shape (mask config_C)).1 ≤ 1 ∧ (shape (mask config_C)).2 ≤ 1)
  ∧ cut_to_shreds_returns (1, 1) config_C graph_C
  ∧ nx.nodes graph_C = {[ (0, 0) ]}.
Proof.
  assert (H1 : ¬ ((shape (mask config_C)).1 ≤ 1 ∧ (shape (mask config_C)).2 ≤ 1)).
  { unfold shape, width; simpl. lia. }
  split; [exact no_overflow_C|].
  split; [exact H1|]. split; [exact graph_C_returned|].
  exact (proj1 (oversized_mask_gives_single_node (1, 1) config_C graph_C
                  no_overflow_C H1 graph_C_returned)).
Defined.

(** ** The grid of an axis-aligned configuration *)

Lemma le_div_iff a s i : 0 < s → i ≤ a / s ↔ i * s ≤ a.
Proof.
  intros Hs. split.
  - intros Hi. pose proof (Z.mul_div_le a s Hs). nia.
  - intros Hi. apply Z.div_le_lower_bound; lia.
Qed.

Lemma length_bind_const {A B} (f : A → list B) (l : list A) k :
  (∀ x, x ∈ l → length (f x) = k) → length (l ≫= f) = (length l * k)%nat.
Proof.
  induction l as [|x l IH]; intros Hf; [done|].
  rewrite bind_cons, length_app, IH, Hf; [done|left|].
  intros y Hy. apply Hf. by right.
Qed.

Section axis_aligned.

Variables (size : point) (shred_config : ShredConfig) (sh sw : Z).
Hypothesis Hno : no_overflow size shred_config.
Hypothesis Hright : right shred_config = (0, sw).
Hypothesis Hbottom : bottom shred_config = (sh, 0).
Hypothesis Hsh : 0 < sh.
Hypothesis Hsw : 0 < sw.
Hypothesis Hfit : in_bounds size shred_config (0, 0).

#[local] Abbreviation rows := ((size.1 - (shape (mask shred_config)).1) / sh + 1).
#[local] Abbreviation cols := ((size.2 - (shape (mask shred_config)).2) / sw + 1).

Lemma grid_in_bounds i j :
  0 ≤ i → 0 ≤ j →
  in_bounds size shred_config (i * sh, j * sw) ↔ i < rows ∧ j < cols.
Proof.
  intros Hi Hj. unfold in_bounds. cbn [fst snd].
  pose proof (le_div_iff (size.1 - (shape (mask shred_config)).1) sh i Hsh).
  pose proof (le_div_iff (size.2 - (shape (mask shred_config)).2) sw j Hsw).
  split.
  - intros (_ & _ & ? & ?). lia.
  - intros [? ?]. split; [nia|]. split; [nia|]. lia.
Qed.

Lemma grid_nonempty : 0 < rows ∧ 0 < cols.
Proof. apply (proj1 (grid_in_bounds 0 0 (Z.le_refl 0) (Z.le_refl 0))), Hfit. Qed.

(** The four lattice neighbours of a grid point. *)
Lemma grid_lattice_step i j q :
  lattice_step shred_config (i * sh, j * sw) q
  ↔ q = (i * sh, (j + 1) * sw) ∨ q = (i * sh, (j - 1) * sw)
    ∨ q = ((i + 1) * sh, j * sw) ∨ q = ((i - 1) * sh, j * sw).
Proof.
  unfold lattice_step, vsub. rewrite Hright, Hbottom.
  destruct q as [q1 q2]. cbn [fst snd]. split.
  - intros [H|[H|[H|H]]]; injection H as H1 H2;
      [left|right; left|do 2 right; left|do 3 right]; f_equal; lia.
  - intros [H|[H|[H|H]]]; injection H as -> ->;
      [left|right; left|do 2 right; left|do 3 right]; f_equal; lia.
Qed.

(** A step from a grid point inside the document to a point inside the
    document is a turn of the [for] loop that passes the bounds test. *)
Lemma grid_step p q :
  reach size shred_config p →
  in_bounds size shred_config p →
  lattice_step shred_config p q →
  in_bounds size shred_config q →
  reach size shred_config q.
Proof.
  intros Hp Hip Hs Hiq. apply reach_step with p; [done| |].
  - by apply (proj2 (no_overflow_neighbors size shred_config p q Hno
                       (or_intror Hip))).
  - by apply out_of_bounds_false, in_bounds_accepted.
Qed.

Lemma reach_grid p :
  reach size shred_config p
  ↔ ∃ i j, 0 ≤ i < rows ∧ 0 ≤ j < cols ∧ p = (i * sh, j * sw).
Proof.
  split.
  - induction 1 as [|p q _ IH Hq Hb].
    + exists 0, 0. pose proof grid_nonempty. split; [lia|]. split; [lia|done].
    + destruct IH as (i & j & Hi & Hj & ->).
      assert (Hp : in_bounds size shred_config (i * sh, j * sw))
        by (apply grid_in_bounds; lia).
      apply out_of_bounds_false in Hb.
      apply (no_overflow_accepted size shred_config (i * sh, j * sw) q) in Hb;
        [|done|by right|done].
      apply (no_overflow_neighbors size shred_config (i * sh, j * sw) q) in Hq;
        [|done|by right].
      apply grid_lattice_step in Hq as [-> | [-> | [-> | ->]]].
      * apply grid_in_bounds in Hb; [|lia..].
        exists i, (j + 1). split; [lia|]. split; [lia|done].
      * assert (0 ≤ j - 1) by (destruct Hb as (_ & ? & _); cbn [fst snd] in *; nia).
        apply grid_in_bounds in Hb; [|lia..].
        exists i, (j - 1). split; [lia|]. split; [lia|done].
      * apply grid_in_bounds in Hb; [|lia..].
        exists (i + 1), j. split; [lia|]. split; [lia|done].
      * assert (0 ≤ i - 1) by (destruct Hb as (? & _); cbn [fst snd] in *; nia).
        apply grid_in_bounds in Hb; [|lia..].
        exists (i - 1), j. split; [lia|]. split; [lia|done].
  - intros (i & j & Hi & Hj & ->).
    assert (Hcol : ∀ n : nat, Z.of_nat n < rows →
              reach size shred_config (Z.of_nat n * sh, 0 * sw)).
    { induction n as [|n IHn]; intros Hn; [constructor|].
      apply grid_step with (Z.of_nat n * sh, 0 * sw).
      - apply IHn. lia.
      - apply grid_in_bounds; [lia|lia|]. pose proof grid_nonempty. lia.
      - apply grid_lattice_step. do 2 right; left. f_equal. lia.
      - apply grid_in_bounds; [lia|lia|]. pose proof grid_nonempty. lia. }
    assert (Hrow : ∀ m : nat, Z.of_nat m < cols →
              reach size shred_config (i * sh, Z.of_nat m * sw)).
    { induction m as [|m IHm]; intros Hm.
      - replace i with (Z.of_nat (Z.to_nat i)) by lia. apply Hcol. lia.
      - apply grid_step with (i * sh, Z.of_nat m * sw).
        + apply IHm. lia.
        + apply grid_in_bounds; lia.
        + apply grid_lattice_step. left. f_equal. lia.
        + apply grid_in_bounds; lia. }
    replace j with (Z.of_nat (Z.to_nat j)) by lia. apply Hrow. lia.
Qed.

Lemma NoDup_grid :
  NoDup (i ← seqZ 0 rows; j ← seqZ 0 cols; [(i * sh, j * sw)]).
Proof.
  apply NoDup_bind.
  - intros i1 i2 p _ _ (j1 & Hp1 & _)%list_elem_of_bind (j2 & Hp2 & _)%list_elem_of_bind.
    apply list_elem_of_singleton in Hp1, Hp2. subst p. injection Hp2 as Hi _. nia.
  - intros i _. apply NoDup_bind.
    + intros j1 j2 p _ _ Hp1%list_elem_of_singleton Hp2%list_elem_of_singleton.
      subst p. injection Hp2 as Hj. nia.
    + intros j _. apply NoDup_singleton.
    + apply NoDup_seqZ.
  - apply NoDup_seqZ.
Qed.

Lemma nodes_grid g :
  cut_to_shreds_returns size shred_config g →
  nx.nodes g = list_to_set (i ← seqZ 0 rows; j ← seqZ 0 cols; [(i * sh, j * sw)]).
Proof.
  intros (W & N & A & E)%returns_spec. apply set_eq. intros p.
  rewrite N, reach_grid, elem_of_list_to_set, list_elem_of_bind. split.
  - intros (i & j & Hi & Hj & ->). exists i. rewrite elem_of_seqZ. split; [|lia].
    apply list_elem_of_bind. exists j. rewrite elem_of_seqZ. split; [left|lia].
  - intros (i & (j & Hp & Hj)%list_elem_of_bind & Hi).
    apply list_elem_of_singleton in Hp. apply elem_of_seqZ in Hi, Hj.
    exists i, j. split; [lia|]. split; [lia|done].
Qed.

End axis_aligned.

(** Offsets along the axes, [right = (0, sw)] and [bottom = (sh, 0)] with
    positive strides, a mask that fits the document, and sizes for which no
    int64 operation of the loop can wrap around: the nodes are the grid
    points (i * sh, j * sw) whose slice lies inside the document, which
    makes ((H - mh) / sh + 1) * ((W - mw) / sw + 1) nodes for a document of
    size (H, W) and a mask of shape (mh, mw). *)
Theorem axis_aligned_grid size shred_config sh sw g :
  no_overflow size shred_config →
  right shred_config = (0, sw) → bottom shred_config = (sh, 0) →
  0 < sh → 0 < sw →
  in_bounds size shred_config (0, 0) →
  cut_to_shreds_returns size shred_config g →
  let rows := (size.1 - (shape (mask shred_config)).1) / sh + 1 in
  let cols := (size.2 - (shape (mask shred_config)).2) / sw + 1 in
  (∀ p, p ∈ nx.nodes g
        ↔ ∃ i j, 0 ≤ i < rows ∧ 0 ≤ j < cols ∧ p = (i * sh, j * sw))
  ∧ nx.number_of_nodes g = Z.to_nat (rows * cols).
Proof.
  intros Hno Hr Hb Hsh Hsw Hfit Hg rows cols. subst rows cols. split.
  - intros p. rewrite <- (reach_grid size shred_config sh sw) by done.
    by apply (returns_spec _ _ _ Hg).
  - unfold nx.number_of_nodes. rewrite <- size_dom. fold (nx.nodes g).
    rewrite (nodes_grid size shred_config sh sw) by done.
    rewrite size_list_to_set by by apply NoDup_grid.
    rewrite (length_bind_const _ _
      (Z.to_nat ((size.2 - (shape (mask shred_config)).2) / sw + 1))).
    + rewrite length_seqZ.
      pose proof (grid_nonempty size shred_config sh sw Hsh Hsw Hfit). lia.
    + intros i _. rewrite (length_bind_const _ _ 1%nat) by done.
      rewrite length_seqZ. lia.
Qed.

Lemma axis_aligned_grid_witness :
  no_overflow (220, 220) config_A
  ∧ right config_A = (0, 110) ∧ bottom config_A = (110, 0)
  ∧ in_bounds (220, 220) config_A (0, 0)
  ∧ cut_to_shreds_returns (220, 220) config_A graph_A
  ∧ nx.number_of_nodes graph_A = 4%nat.
Proof.
  assert (H1 : in_bounds (220, 220) config_A (0, 0)).
  { rewrite in_bounds_A; simpl. lia. }
  split; [exact no_overflow_A|].
  split; [reflexivity|]. split; [reflexivity|]. split; [exact H1|].
  split; [exact graph_A_returned|].
  exact (proj2 (axis_aligned_grid (220, 220) config_A 110 110 graph_A
                  no_overflow_A eq_refl eq_refl eq_refl eq_refl H1
                  graph_A_returned)).
Defined.

(** ** Counting pixels *)

Lemma count_nonzero_le_size img : (count_nonzero img ≤ np_size img)%nat.
Proof. apply length_filter. Qed.

Lemma np_size_imap2d f img : np_size (imap2d f img) = np_size img.
Proof.
  unfold np_size, imap2d. apply length_join_imap. intros; apply length_imap.
Qed.

Lemma count_nonzero_imap_le (f : nat → Z → Z) (row : list Z) :
  (∀ c v, f c v ≠ 0 → v ≠ 0) →
  (length (filter (λ v, v ≠ 0%Z) (imap f row))
   ≤ length (filter (λ v, v ≠ 0%Z) row))%nat.
Proof.
  revert f. induction row as [|x row IH]; intros f Hf; [done|].
  rewrite imap_cons, !filter_cons.
  specialize (IH (f ∘ S) (λ c v, Hf (S c) v)).
  destruct (decide (f 0%nat x ≠ 0)) as [Hx|Hx].
  - rewrite decide_True by by apply (Hf 0%nat). cbn [length]. lia.
  - destruct (decide (x ≠ 0)); cbn [length]; lia.
Qed.

(** A pixelwise change that makes no zero pixel nonzero. *)
Lemma count_nonzero_imap2d_le f img :
  (∀ r c v, f r c v ≠ 0 → v ≠ 0) →
  (count_nonzero (imap2d f img) ≤ count_nonzero img)%nat.
Proof.
  unfold count_nonzero, imap2d. revert f.
  induction img as [|row img IH]; intros f Hf; [done|].
  rewrite imap_cons. cbn [mjoin list_join]. rewrite !filter_app, !length_app.
  apply Nat.add_le_mono.
  - apply count_nonzero_imap_le, Hf.
  - apply (IH (λ r, f (S r))). intros r c v. apply Hf.
Qed.

(** Two arrays of one shape with the same pixels are equal. *)
Lemma ndarray_ext h w (a b : ndarray) :
  has_shape h w a → has_shape h w b →
  (∀ r c, pixel a r c = pixel b r c) → a = b.
Proof.
  intros Ha Hb Hp. apply list_eq. intros r.
  destruct (a !! r) as [ra|] eqn:Ea.
  - destruct (has_shape_lookup _ _ _ _ _ Ha Ea) as [Hr Hla].
    destruct (lookup_lt_is_Some_2 b r) as [rb Eb]; [destruct Hb; lia|].
    destruct (has_shape_lookup _ _ _ _ _ Hb Eb) as [_ Hlb].
    rewrite Eb. f_equal. apply list_eq. intros c.
    specialize (Hp r c). unfold pixel in Hp. by rewrite Ea, Eb in Hp.
  - symmetry. apply lookup_ge_None. apply lookup_ge_None in Ea.
    destruct Ha, Hb. lia.
Qed.

Lemma imap2d_id img : imap2d (λ _ _ v, v) img = img.
Proof.
  unfold imap2d. apply list_eq. intros r. rewrite list_lookup_imap.
  destruct (img !! r) as [row|]; simpl; [|done]. f_equal.
  apply list_eq. intros c. rewrite list_lookup_imap. by destruct (row !! c).
Qed.

(** ** masked_shred *)

Lemma has_shape_1_2 (a b : Z) : has_shape 1 2 [[a; b]].
Proof. split; [reflexivity|repeat constructor]. Qed.

Lemma is_uint8b_spec img : is_uint8b img = true ↔ is_uint8 img.
Proof.
  unfold is_uint8b, is_uint8. induction img as [|row img IH]; simpl.
  - split; [constructor|done].
  - rewrite andb_true_iff, IH, Forall_cons.
    assert (forallb (λ v, (0 <=? v) && (v <=? 255)) row = true
            ↔ Forall (λ v, 0 ≤ v ≤ 255) row) as ->; [|done].
    clear. induction row as [|v row IH]; simpl.
    + split; [constructor|done].
    + rewrite !andb_true_iff, IH, Forall_cons, Z.leb_le, Z.leb_le. done.
Qed.

Lemma has_shape_lengths h w img : has_shape h w img → length <$> img = replicate h w.
Proof.
  intros [<- Hw]. induction img as [|row img IH]; [done|].
  inversion Hw as [|?? Hrow Hrest]; subst. cbn [fmap list_fmap length replicate].
  f_equal. by apply IH.
Qed.

Lemma same_shape_true h w a b :
  has_shape h w a → has_shape h w b → same_shape a b = true.
Proof.
  intros Ha Hb. apply bool_decide_eq_true.
  by rewrite (has_shape_lengths h w a), (has_shape_lengths h w b).
Qed.

Lemma pixel_bitwise_and src m r c :
  pixel (bitwise_and src src m) r c
  = v ← pixel src r c; k ← pixel m r c;
    Some (if bool_decide (k = 0) then 0 else v).
Proof.
  unfold bitwise_and.
  rewrite zip2d_diag, pixel_zip2d, pixel_map2d.
  destruct (pixel src r c) as [v|]; simpl; [|done].
  by rewrite Z.land_diag.
Qed.

(** The array that [cv2.bitwise_and(src, src, mask=m)] computes, as a
    pixelwise change of the source. *)
Lemma bitwise_and_imap2d h w src m :
  has_shape h w src → has_shape h w m →
  bitwise_and src src m
  = imap2d (λ r c v, if bool_decide (pixel m r c = Some 0) then 0 else v) src.
Proof.
  intros Hs Hm. apply (ndarray_ext h w).
  - unfold bitwise_and.
    apply has_shape_zip2d; [|done]. by apply has_shape_zip2d.
  - by apply has_shape_imap2d.
  - intros r c. rewrite pixel_bitwise_and, pixel_imap2d.
    destruct (pixel src r c) as [v|] eqn:Ev; simpl; [|done].
    destruct (proj2 (has_shape_pixel h w m r c Hm)) as [k Hk].
    { apply (has_shape_pixel h w src r c Hs). by eexists. }
    rewrite Hk. simpl. f_equal.
    destruct (decide (k = 0)) as [->|Hk0].
    + by rewrite !bool_decide_eq_true_2.
    + rewrite !bool_decide_eq_false_2; [done| |done]. by intros [= ?].
Qed.

Section masked_shred_facts.

(** The array a shred is turned into by a mask. *)
#[local] Abbreviation masked mask shred :=
  (imap2d (λ r c v, if bool_decide (pixel mask r c = Some 0) then 0 else v) shred).

Lemma is_uint8_0_1 : is_uint8 [[0; 1]].
Proof. repeat first [apply Forall_nil_2|apply Forall_cons_2|lia]. Qed.

(** On a shred with pixels and a uint8 mask of its shape the call returns
    an array. *)
Lemma masked_shred_returns h w shred mask :
  has_shape h w shred → has_shape h w mask → is_uint8 mask → (h * w ≠ 0)%nat →
  masked_shred shred mask = Return (Some (masked mask shred)).
Proof.
  intros Hs Hm Hu Hne. unfold masked_shred, cv2_bitwise_and_masked. cbv zeta.
  rewrite (proj2 (is_uint8b_spec mask) Hu), (same_shape_true h w mask shred)
    by done.
  cbn [andb negb].
  rewrite bool_decide_eq_false_2 by (by rewrite (np_size_shape h w)).
  by rewrite (bitwise_and_imap2d h w).
Qed.

(** The array that a call returns. *)
Lemma masked_shred_Some h w shred mask out :
  has_shape h w shred → has_shape h w mask →
  masked_shred shred mask = Return (Some out) →
  out = masked mask shred ∧ (h * w ≠ 0)%nat ∧ is_uint8 mask.
Proof.
  intros Hs Hm. unfold masked_shred, cv2_bitwise_and_masked. cbv zeta.
  destruct (is_uint8b mask) eqn:Eu; [|done]. cbn [andb].
  destruct (same_shape mask shred); [|done]. cbn [negb].
  case_bool_decide as Hz; [done|]. intros [= <-].
  split; [by apply (bitwise_and_imap2d h w)|].
  split; [by rewrite <- (np_size_shape h w shred)|by apply is_uint8b_spec].
Qed.

Lemma has_shape_masked h w shred mask :
  has_shape h w shred → has_shape h w (masked mask shred).
Proof. apply has_shape_imap2d. Qed.

Lemma count_nonzero_masked shred mask :
  (count_nonzero (masked mask shred) ≤ count_nonzero shred)%nat.
Proof. apply count_nonzero_imap2d_le. intros r c v. by case_bool_decide. Qed.

(** A mask of zeros blanks the shred. *)
Lemma masked_zero_mask h w shred mask :
  has_shape h w shred → has_shape h w mask →
  (∀ r c k, pixel mask r c = Some k → k = 0) →
  count_nonzero (masked mask shred) = 0%nat.
Proof.
  intros Hs Hm Hz.
  assert (E : masked mask shred = imap2d (λ _ _ _, 0) shred).
  { apply imap2d_ext.
    intros r c v Hv. rewrite bool_decide_eq_true_2; [done|].
    destruct (proj2 (has_shape_pixel h w mask r c Hm)) as [k Hk].
    { apply (has_shape_pixel h w shred r c Hs). by eexists. }
    by rewrite Hk, (Hz _ _ _ Hk). }
  rewrite E. unfold count_nonzero.
  destruct (filter _ _) as [|x l] eqn:Ef; [done|].
  assert (Hx : x ∈ filter (λ v : Z, v ≠ 0) (mjoin (imap2d (λ _ _ _, 0) shred)))
    by (rewrite Ef; left).
  apply list_elem_of_filter in Hx as [Hne Hx]. exfalso. apply Hne.
  apply list_elem_of_join in Hx as (row' & Hx & Hl).
  unfold imap2d in Hl. apply elem_of_lookup_imap in Hl as (r & row & -> & _).
  by apply elem_of_lookup_imap in Hx as (c & y & -> & _).
Qed.

Lemma zero_mask_is_uint8 mask :
  (∀ r c k, pixel mask r c = Some k → k = 0) → is_uint8 mask.
Proof.
  intros Hz. apply Forall_lookup. intros r row Hr.
  apply Forall_lookup. intros c v Hc.
  assert (v = 0) as ->; [|lia]. apply (Hz r c). apply pixel_Some. eauto.
Qed.

End masked_shred_facts.

(** For a shred with pixels and a uint8 mask of its shape, masked_shred
    returns an array of that shape; a pixel is that of the shred where the
    mask is nonzero and 0 where the mask is 0. *)
Theorem masked_shred_pixels h w shred mask :
  has_shape h w shred → has_shape h w mask → is_uint8 mask → (h * w ≠ 0)%nat →
  ∃ out, masked_shred shred mask = Return (Some out)
    ∧ has_shape h w out
    ∧ ∀ r c v k, pixel shred r c = Some v → pixel mask r c = Some k →
        pixel out r c = Some (if bool_decide (k = 0) then 0 else v).
Proof.
  intros Hs Hm Hu Hne. eexists. split; [by apply (masked_shred_returns h w)|].
  split; [by apply has_shape_masked|].
  intros r c v k Hv Hk. rewrite pixel_imap2d, Hv, Hk. simpl. f_equal.
  destruct (decide (k = 0)) as [->|Hk0].
  - by rewrite !bool_decide_eq_true_2.
  - rewrite !bool_decide_eq_false_2; [done|done|]. by intros [= ?].
Qed.

Lemma masked_shred_pixels_witness :
  has_shape 1 2 [[7; 9]] ∧ has_shape 1 2 [[0; 1]] ∧ is_uint8 [[0; 1]]
  ∧ ∃ out, masked_shred [[7; 9]] [[0; 1]] = Return (Some out)
      ∧ has_shape 1 2 out
      ∧ ∀ r c v k, pixel [[7; 9]] r c = Some v → pixel [[0; 1]] r c = Some k →
          pixel out r c = Some (if bool_decide (k = 0) then 0 else v).
Proof.
  split; [apply has_shape_1_2|]. split; [apply has_shape_1_2|].
  split; [exact is_uint8_0_1|].
  exact (masked_shred_pixels 1 2 [[7; 9]] [[0; 1]]
           (has_shape_1_2 7 9) (has_shape_1_2 0 1) is_uint8_0_1
           (Nat.neq_succ_0 1)).
Defined.

(** Masking twice with one mask is masking once. *)
Theorem masked_shred_idempotent h w shred mask :
  has_shape h w shred → has_shape h w mask → is_uint8 mask → (h * w ≠ 0)%nat →
  ∃ out, masked_shred shred mask = Return (Some out)
    ∧ masked_shred out mask = Return (Some out).
Proof.
  intros Hs Hm Hu Hne. eexists. split; [by apply (masked_shred_returns h w)|].
  rewrite (masked_shred_returns h w) by (done || by apply has_shape_masked).
  do 2 f_equal. rewrite imap2d_imap2d. apply imap2d_ext. intros r c v _.
  by case_bool_decide.
Qed.

Lemma masked_shred_idempotent_witness :
  has_shape 1 2 [[7; 9]] ∧ has_shape 1 2 [[0; 1]] ∧ is_uint8 [[0; 1]]
  ∧ ∃ out, masked_shred [[7; 9]] [[0; 1]] = Return (Some out)
      ∧ masked_shred out [[0; 1]] = Return (Some out).
Proof.
  split; [apply has_shape_1_2|]. split; [apply has_shape_1_2|].
  split; [exact is_uint8_0_1|].
  exact (masked_shred_idempotent 1 2 [[7; 9]] [[0; 1]]
           (has_shape_1_2 7 9) (has_shape_1_2 0 1) is_uint8_0_1
           (Nat.neq_succ_0 1)).
Defined.

(** Masking with two masks gives the same shred in either order. *)
Theorem masked_shred_commutes h w shred mask1 mask2 :
  has_shape h w shred → has_shape h w mask1 → has_shape h w mask2 →
  is_uint8 mask1 → is_uint8 mask2 → (h * w ≠ 0)%nat →
  ∃ out1 out2 out,
    masked_shred shred mask1 = Return (Some out1)
    ∧ masked_shred shred mask2 = Return (Some out2)
    ∧ masked_shred out1 mask2 = Return (Some out)
    ∧ masked_shred out2 mask1 = Return (Some out).
Proof.
  intros Hs H1 H2 U1 U2 Hne. eexists _, _, _.
  split; [by apply (masked_shred_returns h w)|].
  split; [by apply (masked_shred_returns h w)|].
  split; [apply (masked_shred_returns h w); (done || by apply has_shape_masked)|].
  rewrite (masked_shred_returns h w) by (done || by apply has_shape_masked).
  do 2 f_equal. rewrite !imap2d_imap2d. apply imap2d_ext. intros r c v _.
  by repeat case_bool_decide.
Qed.

Lemma masked_shred_commutes_witness :
  has_shape 1 2 [[7; 9]] ∧ has_shape 1 2 [[0; 1]] ∧ has_shape 1 2 [[255; 0]]
  ∧ is_uint8 [[0; 1]] ∧ is_uint8 [[255; 0]]
  ∧ ∃ out1 out2 out,
      masked_shred [[7; 9]] [[0; 1]] = Return (Some out1)
      ∧ masked_shred [[7; 9]] [[255; 0]] = Return (Some out2)
      ∧ masked_shred out1 [[255; 0]] = Return (Some out)
      ∧ masked_shred out2 [[0; 1]] = Return (Some out).
Proof.
  assert (U : is_uint8 [[255; 0]])
    by (repeat first [apply Forall_nil_2|apply Forall_cons_2|lia]).
  split; [apply has_shape_1_2|]. split; [apply has_shape_1_2|].
  split; [apply has_shape_1_2|]. split; [exact is_uint8_0_1|].
  split; [exact U|].
  exact (masked_shred_commutes 1 2 [[7; 9]] [[0; 1]] [[255; 0]]
           (has_shape_1_2 7 9) (has_shape_1_2 0 1) (has_shape_1_2 255 0)
           is_uint8_0_1 U (Nat.neq_succ_0 1)).
Defined.

(** Masking keeps the number of pixels and never adds a nonzero pixel. *)
Theorem masked_shred_count_nonzero h w shred mask :
  has_shape h w shred → has_shape h w mask → is_uint8 mask → (h * w ≠ 0)%nat →
  ∃ out, masked_shred shred mask = Return (Some out)
    ∧ np_size out = np_size shred
    ∧ (count_nonzero out ≤ count_nonzero shred)%nat.
Proof.
  intros Hs Hm Hu Hne. eexists. split; [by apply (masked_shred_returns h w)|].
  split; [apply np_size_imap2d|apply count_nonzero_masked].
Qed.

Lemma masked_shred_count_nonzero_witness :
  has_shape 1 2 [[7; 9]] ∧ has_shape 1 2 [[0; 1]] ∧ is_uint8 [[0; 1]]
  ∧ ∃ out, masked_shred [[7; 9]] [[0; 1]] = Return (Some out)
      ∧ np_size out = np_size [[7; 9]]
      ∧ Nat.le (count_nonzero out) (count_nonzero [[7; 9]]).
Proof.
  split; [apply has_shape_1_2|]. split; [apply has_shape_1_2|].
  split; [exact is_uint8_0_1|].
  exact (masked_shred_count_nonzero 1 2 [[7; 9]] [[0; 1]]
           (has_shape_1_2 7 9) (has_shape_1_2 0 1) is_uint8_0_1
           (Nat.neq_succ_0 1)).
Defined.

(** A uint8 mask without a zero pixel leaves a shred with pixels as it
    is. *)
Theorem masked_shred_full_mask h w shred mask :
  has_shape h w shred → has_shape h w mask → is_uint8 mask → (h * w ≠ 0)%nat →
  (∀ r c k, pixel mask r c = Some k → k ≠ 0) →
  masked_shred shred mask = Return (Some shred).
Proof.
  intros Hs Hm Hu Hne Hfull. rewrite (masked_shred_returns h w) by done.
  do 2 f_equal. rewrite <- (imap2d_id shred) at 2. apply imap2d_ext.
  intros r c v _. case_bool_decide as Hk; [|done]. by apply Hfull in Hk.
Qed.

Lemma masked_shred_full_mask_witness :
  has_shape 1 2 [[7; 9]] ∧ has_shape 1 2 [[1; 255]] ∧ is_uint8 [[1; 255]]
  ∧ (∀ r c k, pixel [[1; 255]] r c = Some k → k ≠ 0)
  ∧ masked_shred [[7; 9]] [[1; 255]] = Return (Some [[7; 9]]).
Proof.
  assert (U : is_uint8 [[1; 255]])
    by (repeat first [apply Forall_nil_2|apply Forall_cons_2|lia]).
  assert (H : ∀ r c k, pixel [[1; 255]] r c = Some k → k ≠ 0).
  { intros [|r] [|[|c]] k; cbn; intros [= <-]; discriminate. }
  split; [apply has_shape_1_2|]. split; [apply has_shape_1_2|].
  split; [exact U|]. split; [exact H|].
  exact (masked_shred_full_mask 1 2 [[7; 9]] [[1; 255]]
           (has_shape_1_2 7 9) (has_shape_1_2 1 255) U (Nat.neq_succ_0 1) H).
Defined.



(** ** Binary64 division against 0.05 *)

Section binary64.

#[local] Abbreviation dg p := (Zpos (digits2_pos p)).

Lemma digits2_pos_bounds p : 2 ^ (dg p - 1) ≤ Zpos p < 2 ^ dg p.
Proof.
  induction p as [p IH|p IH|]; cbn [digits2_pos].
  - rewrite Pos2Z.inj_succ. replace (Z.succ (dg p) - 1) with (Z.succ (dg p - 1)) by lia.
    rewrite !Z.pow_succ_r by lia. lia.
  - rewrite Pos2Z.inj_succ. replace (Z.succ (dg p) - 1) with (Z.succ (dg p - 1)) by lia.
    rewrite !Z.pow_succ_r by lia. lia.
  - simpl. lia.
Qed.

Lemma digits2_pos_unique p d :
  2 ^ (d - 1) ≤ Zpos p < 2 ^ d → dg p = d.
Proof.
  intros [Hlo Hhi]. pose proof (digits2_pos_bounds p) as [Hlo' Hhi'].
  assert (0 < d).
  { destruct (Z.ltb_spec 0 d); [done|].
    destruct (Z.eq_dec d 0) as [->|]; [simpl in Hhi; lia|].
    rewrite Z.pow_neg_r in Hhi by lia. lia. }
  assert (dg p - 1 < d).
  { apply (Z.pow_lt_mono_r_iff 2); lia. }
  assert (d - 1 < dg p).
  { apply (Z.pow_lt_mono_r_iff 2); lia. }
  lia.
Qed.

(** A canonical mantissa is left as it is. *)
Lemma binary_round_aux_canonical m e :
  dg m = 53 → -1074 ≤ e ≤ 971 →
  binary_round_aux 53 1024 false (Zpos m) e loc_Exact = S754_finite false m e.
Proof.
  intros Hd He. unfold binary_round_aux, shr_fexp, fexp, emin. cbn [Zdigits2].
  rewrite Hd. replace (Z.max (53 + e - 53) (3 - 1024 - 53) - e) with 0 by lia.
  cbn [shr shr_record_of_loc shr_m loc_of_shr_record round_nearest_even Zdigits2].
  rewrite Hd. replace (Z.max (53 + e - 53) (3 - 1024 - 53) - e) with 0 by lia.
  cbn [shr shr_m]. replace (e <=? 1024 - 53) with true by lia. done.
Qed.

Lemma pos_iter_xO m d : Zpos (Pos.iter xO m d) = Zpos m * 2 ^ Zpos d.
Proof.
  induction d as [|d IH] using Pos.peano_ind.
  - simpl. lia.
  - rewrite Pos.iter_succ, Pos2Z.inj_xO, IH, Pos2Z.inj_succ, Z.pow_succ_r by lia. lia.
Qed.

Lemma scaled_mantissa_bounds p k :
  0 ≤ k → 2 ^ (dg p - 1 + k) ≤ Zpos p * 2 ^ k < 2 ^ (dg p + k).
Proof.
  intros Hk. pose proof (digits2_pos_bounds p) as [Hlo Hhi].
  assert (0 < 2 ^ k) by (apply Z.pow_pos_nonneg; lia).
  rewrite !Z.pow_add_r by lia. split.
  - apply Z.mul_le_mono_nonneg_r; lia.
  - apply Z.mul_lt_mono_pos_r; lia.
Qed.

(** [float(k)] for a positive integer of at most 53 bits: exact. *)
Lemma float_of_Z_pos p :
  dg p ≤ 53 →
  ∃ m, Zpos m = Zpos p * 2 ^ (53 - dg p) ∧ dg m = 53
       ∧ float_of_Z (Zpos p) = S754_finite false m (dg p - 53).
Proof.
  intros Hd. unfold float_of_Z, binary_normalize, binary_round, shl_align, fexp, emin.
  destruct (Z.max (dg p + 0 - 53) (3 - 1024 - 53) - 0) as [|d|d] eqn:E; [| lia |].
  - assert (Hp : dg p = 53) by lia. exists p. rewrite Hp. split; [simpl; lia|].
    split; [done|]. by apply binary_round_aux_canonical.
  - assert (Hk : Zpos d = 53 - dg p) by lia.
    exists (Pos.iter xO p d). split; [by rewrite pos_iter_xO, Hk|].
    assert (Hm : dg (Pos.iter xO p d) = 53).
    { apply digits2_pos_unique. rewrite pos_iter_xO, Hk.
      pose proof (scaled_mantissa_bounds p (53 - dg p)) as H.
      replace (dg p - 1 + (53 - dg p)) with (53 - 1) in H by lia.
      replace (dg p + (53 - dg p)) with 53 in H by lia. apply H. lia. }
    split; [done|].
    replace (Z.max (dg p + 0 - 53) (3 - 1024 - 53)) with (dg p - 53) by lia.
    apply binary_round_aux_canonical; [done|]. lia.
Qed.

Lemma binary_round_aux_tail mx ex lx :
  binary_round_aux 53 1024 false mx ex lx
  = round_tail (shr_m (shr_fexp 53 1024 mx ex lx).1)
               (loc_of_shr_record (shr_fexp 53 1024 mx ex lx).1)
               (shr_fexp 53 1024 mx ex lx).2.
Proof. unfold binary_round_aux, round_tail. by destruct (shr_fexp 53 1024 mx ex lx). Qed.

Lemma round_nearest_even_cases m l :
  round_nearest_even m l = m ∨ round_nearest_even m l = m + 1.
Proof. destruct l as [|[| |]]; simpl; auto. destruct (Z.even m); auto. Qed.

Lemma shr_fexp_53 m e l :
  dg m = 53 → -1074 ≤ e →
  shr_fexp 53 1024 (Zpos m) e l = (shr_record_of_loc (Zpos m) l, e).
Proof.
  intros Hd He. unfold shr_fexp, fexp, emin. cbn [Zdigits2]. rewrite Hd.
  replace (Z.max (53 + e - 53) (3 - 1024 - 53) - e) with 0 by lia. done.
Qed.

Lemma shr_m_of_loc m l : shr_m (shr_record_of_loc m l) = m.
Proof. by destruct l as [|[| |]]. Qed.

Lemma loc_of_shr_record_of_loc m l : loc_of_shr_record (shr_record_of_loc m l) = l.
Proof. by destruct l as [|[| |]]. Qed.

Lemma round_tail_53 m l e :
  dg m = 53 → -1074 ≤ e ≤ 970 →
  ∃ m' e', round_tail (Zpos m) l e = S754_finite false m' e' ∧ dg m' = 53
    ∧ ((Zpos m' = round_nearest_even (Zpos m) l ∧ e' = e)
       ∨ (round_nearest_even (Zpos m) l = 2 ^ 53 ∧ Zpos m' = 2 ^ 52 ∧ e' = e + 1)).
Proof.
  intros Hd He. unfold round_tail.
  destruct (round_nearest_even_cases (Zpos m) l) as [-> | ->].
  - rewrite shr_fexp_53 by (done || lia). cbn [shr_record_of_loc shr_m].
    replace (e <=? 1024 - 53) with true by lia. exists m, e. auto.
  - pose proof (digits2_pos_bounds m) as Hb. rewrite Hd in Hb.
    destruct (Z.eq_dec (Zpos m + 1) (2 ^ 53)) as [E|E].
    + rewrite E. change (2 ^ 53) with 9007199254740992.
      unfold shr_fexp, fexp, emin.
      change (Zdigits2 9007199254740992) with 54.
      replace (Z.max (54 + e - 53) (3 - 1024 - 53) - e) with 1 by lia.
      cbn. replace (e + 1 <=? 1024 - 53) with true by lia.
      exists 4503599627370496%positive, (e + 1).
      split; [reflexivity|]. split; [reflexivity|]. right. auto.
    + replace (Zpos m + 1) with (Zpos (m + 1)) by lia.
      assert (Hd' : dg (m + 1) = 53) by (apply digits2_pos_unique; lia).
      rewrite shr_fexp_53 by (done || lia). cbn [shr_record_of_loc shr_m].
      replace (e <=? 1024 - 53) with true by lia. exists (m + 1)%positive, e. auto.
Qed.

Lemma new_location_Exact my r :
  new_location my r = loc_Exact ↔ r = 0.
Proof.
  unfold new_location, new_location_even, new_location_odd.
  destruct (Z.even my), (Z.eqb_spec r 0); split; (done || lia).
Qed.

Lemma new_location_Gt my r :
  new_location my r = loc_Inexact Gt ↔ r ≠ 0 ∧ my < 2 * r.
Proof.
  unfold new_location, new_location_even, new_location_odd.
  destruct (Z.even my) eqn:Ev, (Z.eqb_spec r 0); try (split; [done|lia]).
  - destruct (Z.compare_spec (2 * r) my); split; intros Hx; try done; try lia.
  - assert (Z.odd my = true) as Hodd by (by rewrite <- Z.negb_even, Ev).
    apply Z.odd_spec in Hodd as [j Hj].
    destruct (Z.compare_spec (2 * r + 1) my); split; intros Hx; try done; try lia.
Qed.

Lemma round_nearest_even_gt d q l :
  Z.even d = true →
  d < round_nearest_even q l ↔ d < q ∨ (q = d ∧ l = loc_Inexact Gt).
Proof.
  intros Hd. destruct l as [|[| |]]; simpl.
  - split; [auto|]. intros [?|[_ [=]]]; done.
  - destruct (Z.even q) eqn:Eq.
    + split; [auto|]. intros [?|[_ [=]]]; done.
    + split; [|intros [?|[_ [=]]]; lia]. intros H.
      destruct (Z.eq_dec q d) as [->|]; [congruence|]. left; lia.
  - split; [auto|]. intros [?|[_ [=]]]; done.
  - split; [|intros [?|[-> _]]; lia]. intros H.
    destruct (Z.eq_dec q d) as [->|]; [by right|]. left; lia.
Qed.

Lemma shr_fexp_54 m e l :
  dg m = 54 → -1074 ≤ e →
  shr_fexp 53 1024 (Zpos m) e l = (shr_1 (shr_record_of_loc (Zpos m) l), e + 1).
Proof.
  intros Hd He. unfold shr_fexp, fexp, emin. cbn [Zdigits2]. rewrite Hd.
  replace (Z.max (54 + e - 53) (3 - 1024 - 53) - e) with 1 by lia. done.
Qed.

Lemma shr_1_of_loc m l :
  (1 < m)%positive →
  ∃ p, shr_m (shr_1 (shr_record_of_loc (Zpos m) l)) = Zpos p
       ∧ Zpos p = Zpos m / 2
       ∧ (loc_of_shr_record (shr_1 (shr_record_of_loc (Zpos m) l)) = loc_Inexact Gt
          ↔ Z.odd (Zpos m) = true ∧ l ≠ loc_Exact).
Proof.
  intros Hm. destruct m as [p|p|]; [| |lia]; exists p.
  - split; [by destruct l as [|[| |]]|]. split.
    + rewrite Pos2Z.inj_xI. apply Z.div_unique with 1; lia.
    + destruct l as [|[| |]]; simpl; split; try done; intros [_ H]; done.
  - split; [by destruct l as [|[| |]]|]. split.
    + rewrite Pos2Z.inj_xO. apply Z.div_unique with 0; lia.
    + destruct l as [|[| |]]; simpl; split; try done; intros [H _]; done.
Qed.

Lemma SFltb_finite_pos m1 e1 m2 e2 :
  SFltb (S754_finite false m1 e1) (S754_finite false m2 e2)
  = match e1 ?= e2 with
    | Lt => true
    | Gt => false
    | Eq => match Zpos m1 ?= Zpos m2 with Lt => true | _ => false end
    end.
Proof.
  unfold SFltb, SFcompare. destruct (e1 ?= e2); reflexivity.
Qed.

Lemma SFltb_0_05 m e :
  SFltb float_0_05 (S754_finite false m e) = true
  ↔ -57 < e ∨ (e = -57 ∧ 7205759403792794 < Zpos m).
Proof.
  unfold float_0_05. rewrite SFltb_finite_pos.
  destruct (Z.compare_spec (-57) e) as [He|He|He].
  - destruct (Z.compare_spec 7205759403792794 (Zpos m)) as [Hm|Hm|Hm].
    + split; [discriminate|]. intros [?|[_ ?]]; exfalso; lia.
    + split; [intros _; right; lia|intros _; reflexivity].
    + split; [discriminate|]. intros [?|[_ ?]]; exfalso; lia.
  - split; [intros _; left; lia|intros _; reflexivity].
  - split; [discriminate|]. intros [?|[? _]]; exfalso; lia.
Qed.

Lemma SFdiv_canonical mx ex my ey :
  dg mx = 53 → dg my = 53 → -52 ≤ ex ≤ 0 → -52 ≤ ey ≤ 0 →
  SFdiv 53 1024 (S754_finite false mx ex) (S754_finite false my ey)
  = binary_round_aux 53 1024 false
      (Zpos mx * 2 ^ 53 / Zpos my) (ex - ey - 53)
      (new_location (Zpos my) ((Zpos mx * 2 ^ 53) mod Zpos my)).
Proof.
  intros Hx Hy Hex Hey. unfold SFdiv, SFdiv_core_binary, fexp, emin.
  cbn [Zdigits2 xorb]. rewrite Hx, Hy.
  replace (Z.min (Z.max (53 + ex - (53 + ey) - 53) (3 - 1024 - 53)) (ex - ey))
    with (ex - ey - 53) by lia.
  replace (ex - ey - (ex - ey - 53)) with 53 by lia.
  cbv iota. rewrite Z.shiftl_mul_pow2 by lia.
  unfold Z.div, Z.modulo. by destruct (Z.div_eucl _ _).
Qed.

(** The quotient of two canonical mantissas has 53 or 54 bits. *)
Lemma quotient_bounds mx my :
  dg mx = 53 → dg my = 53 →
  2 ^ 52 ≤ Zpos mx * 2 ^ 53 / Zpos my < 2 ^ 54.
Proof.
  intros Hx Hy. pose proof (digits2_pos_bounds mx) as Bx.
  pose proof (digits2_pos_bounds my) as By. rewrite Hx in Bx. rewrite Hy in By.
  change (2 ^ (53 - 1)) with 4503599627370496 in *.
  change (2 ^ 53) with 9007199254740992 in *.
  change (2 ^ 52) with 4503599627370496.
  change (2 ^ 54) with 18014398509481984.
  split.
  - apply Z.div_le_lower_bound; [lia|]. nia.
  - apply Z.div_lt_upper_bound; [lia|]. nia.
Qed.

(** The quotient of two floats against 0.05, in integers: the quotient is
    above 0.05 exactly when the exact ratio is above the midpoint between
    0.05 and the next float, (2 * 7205759403792794 + 1) / 2^58. *)
Lemma SFdiv_gt_0_05 mx ex my ey :
  dg mx = 53 → dg my = 53 → -52 ≤ ex ≤ 0 → -52 ≤ ey ≤ 0 →
  SFltb float_0_05
    (SFdiv 53 1024 (S754_finite false mx ex) (S754_finite false my ey)) = true
  ↔ 14411518807585589 * Zpos my < Zpos mx * 2 ^ (58 + ex - ey).
Proof.
  intros Hx Hy Hex Hey. rewrite SFdiv_canonical, binary_round_aux_tail by done.
  pose proof (quotient_bounds mx my Hx Hy) as Hq.
  pose proof (Z.div_mod (Zpos mx * 2 ^ 53) (Zpos my) ltac:(lia)) as Hdiv.
  pose proof (Z.mod_pos_bound (Zpos mx * 2 ^ 53) (Zpos my) ltac:(lia)) as Hr.
  pose proof (digits2_pos_bounds mx) as Bx. pose proof (digits2_pos_bounds my) as By.
  rewrite Hx in Bx. rewrite Hy in By.
  set (q := Zpos mx * 2 ^ 53 / Zpos my) in *.
  set (r := (Zpos mx * 2 ^ 53) mod Zpos my) in *.
  set (l := new_location (Zpos my) r).
  pose proof (new_location_Gt (Zpos my) r) as Hl. fold l in Hl.
  pose proof (new_location_Exact (Zpos my) r) as Hl0. fold l in Hl0.
  set (E := ex - ey) in *.
  replace (ex - ey - 53) with (E - 53) by lia.
  replace (58 + ex - ey) with (58 + E) by lia.
  assert (HE : -52 ≤ E ≤ 52) by lia.
  assert (HP : 0 < 2 ^ (58 + E)) by (apply Z.pow_pos_nonneg; lia).
  change (2 ^ (53 - 1)) with 4503599627370496 in *.
  change (2 ^ 53) with 9007199254740992 in *.
  change (2 ^ 52) with 4503599627370496 in *.
  change (2 ^ 54) with 18014398509481984 in *.
  destruct q as [|pq|pq] eqn:Eq; [lia| |lia].
  destruct (Z_lt_ge_dec (Zpos pq) 9007199254740992) as [Hlt|Hge].
  - (* a quotient of 53 bits *)
    assert (Hd : dg pq = 53) by (apply digits2_pos_unique; lia).
    rewrite shr_fexp_53 by (done || lia). cbn [fst snd].
    rewrite shr_m_of_loc, loc_of_shr_record_of_loc.
    destruct (round_tail_53 pq l (E - 53) Hd ltac:(lia))
      as (m' & e' & -> & Hd' & Hcase).
    rewrite SFltb_0_05.
    pose proof (round_nearest_even_gt 7205759403792794 (Zpos pq) l eq_refl) as Hrne.
    pose proof (round_nearest_even_cases (Zpos pq) l) as Hrc.
    destruct (Z_le_gt_dec (-3) E) as [H3|H3].
    { assert (2 ^ 55 ≤ 2 ^ (58 + E)) as HP' by (apply Z.pow_le_mono_r; lia).
      change (2 ^ 55) with 36028797018963968 in HP'.
      split; [intros _; nia|intros _; left; lia]. }
    destruct (Z_le_gt_dec E (-6)) as [H6|H6].
    { assert (2 ^ (58 + E) ≤ 2 ^ 52) as HP' by (apply Z.pow_le_mono_r; lia).
      change (2 ^ 52) with 4503599627370496 in HP'.
      split; [|intros; nia]. intros [?|[? ?]]; lia. }
    assert (E = -4 ∨ E = -5) as [HE'|HE'] by lia; rewrite HE' in *.
    + change (2 ^ (58 + -4)) with 18014398509481984 in *.
      split.
      * intros Hres.
        assert (7205759403792794 < round_nearest_even (Zpos pq) l) as Hgt by lia.
        apply Hrne in Hgt as [Hgt|[Hgt [Hr0 Hr2]%Hl]]; nia.
      * intros Hcond.
        assert (7205759403792794 < round_nearest_even (Zpos pq) l) as Hgt.
        { apply Hrne.
          destruct (Z_lt_ge_dec 7205759403792794 (Zpos pq)); [by left|right].
          assert (Zpos pq = 7205759403792794) by nia.
          split; [done|]. apply Hl. nia. }
        lia.
    + change (2 ^ (58 + -5)) with 9007199254740992 in *.
      split; [|intros; nia]. intros [?|[? ?]]; lia.
  - (* a quotient of 54 bits *)
    assert (Hd : dg pq = 54) by (apply digits2_pos_unique; lia).
    rewrite shr_fexp_54 by (done || lia). cbn [fst snd].
    destruct (shr_1_of_loc pq l ltac:(lia)) as (p & -> & Hp & Hl').
    set (l' := loc_of_shr_record (shr_1 (shr_record_of_loc (Zpos pq) l))) in *.
    assert (Hodd : Zpos pq = 2 * Zpos p + (if Z.odd (Zpos pq) then 1 else 0)).
    { rewrite Hp. pose proof (Z.div_mod (Zpos pq) 2 ltac:(lia)) as H2.
      rewrite Zmod_odd in H2. lia. }
    assert (Hdp : dg p = 53) by (apply digits2_pos_unique; destruct (Z.odd (Zpos pq)); lia).
    destruct (round_tail_53 p l' (E - 53 + 1) Hdp ltac:(lia))
      as (m' & e' & -> & Hd' & Hcase).
    rewrite SFltb_0_05.
    pose proof (round_nearest_even_gt 7205759403792794 (Zpos p) l' eq_refl) as Hrne.
    pose proof (round_nearest_even_cases (Zpos p) l') as Hrc.
    destruct (Z_le_gt_dec (-4) E) as [H3|H3].
    { assert (2 ^ 54 ≤ 2 ^ (58 + E)) as HP' by (apply Z.pow_le_mono_r; lia).
      change (2 ^ 54) with 18014398509481984 in HP'.
      split; [intros _; nia|intros _; left; lia]. }
    destruct (Z_le_gt_dec E (-6)) as [H6|H6].
    { assert (2 ^ (58 + E) ≤ 2 ^ 52) as HP' by (apply Z.pow_le_mono_r; lia).
      change (2 ^ 52) with 4503599627370496 in HP'.
      split; [|intros; nia]. intros [?|[? ?]]; lia. }
    assert (E = -5) as HE' by lia; rewrite HE' in *.
    change (2 ^ (58 + -5)) with 9007199254740992 in *.
    split.
    + intros Hres.
      assert (7205759403792794 < round_nearest_even (Zpos p) l') as Hgt by lia.
      apply Hrne in Hgt as [Hgt|[Hgt [Ho Hne]%Hl']].
      * destruct (Z.odd (Zpos pq)); nia.
      * rewrite Ho in Hodd. assert (r ≠ 0) by (intros ?; apply Hne, Hl0; done). nia.
    + intros Hcond.
      assert (7205759403792794 < round_nearest_even (Zpos p) l') as Hgt.
      { apply Hrne.
        destruct (Z_lt_ge_dec 7205759403792794 (Zpos p)); [by left|right].
        assert (Zpos p = 7205759403792794) by (destruct (Z.odd (Zpos pq)); nia).
        split; [done|]. apply Hl'.
        destruct (Z.odd (Zpos pq)) eqn:Ho.
        - split; [done|]. intros Hex'. apply Hl0 in Hex'. nia.
        - nia. }
      lia.
Qed.

End binary64.

Lemma SFltb_finite_zero m e s :
  SFltb (S754_finite false m e) (S754_zero s) = false.
Proof. reflexivity. Qed.

Lemma float_of_Z_small z :
  0 < z < 2 ^ 53 →
  ∃ m e, float_of_Z z = S754_finite false m e
         ∧ Zpos (digits2_pos m) = 53 ∧ -52 ≤ e ≤ 0
         ∧ Zpos m = z * 2 ^ (- e).
Proof.
  intros Hz. destruct z as [|p|p]; [lia| |lia].
  pose proof (digits2_pos_bounds p) as Hb.
  assert (Hd : Zpos (digits2_pos p) ≤ 53).
  { destruct (Z_le_gt_dec (Zpos (digits2_pos p)) 53) as [|Hgt]; [done|].
    assert (2 ^ 53 ≤ 2 ^ (Zpos (digits2_pos p) - 1))
      by (apply Z.pow_le_mono_r; lia). lia. }
  destruct (float_of_Z_pos p Hd) as (m & Hm & Hdm & ->).
  exists m, (Zpos (digits2_pos p) - 53). split; [done|]. split; [done|].
  split; [lia|]. rewrite Hm. f_equal. f_equal. lia.
Qed.

(** The comparison of [is_good_node] on the two counts. *)
Lemma good_ratio_spec n s :
  0 ≤ n ≤ s → 0 < s < 2 ^ 52 →
  SFltb float_0_05 (SFdiv 53 1024 (float_of_Z n) (float_of_Z s)) = true
  ↔ s < 20 * n.
Proof.
  intros Hn Hs.
  assert (H52 : 2 ^ 52 < 2 ^ 53) by (apply Z.pow_lt_mono_r; lia).
  destruct (float_of_Z_small s ltac:(lia)) as (my & ey & -> & Hdy & Hey & Hmy).
  destruct (Z.eq_dec n 0) as [->|Hn0].
  - change (float_of_Z 0) with (S754_zero false). cbn [SFdiv xorb].
    unfold float_0_05. rewrite SFltb_finite_zero. split; [discriminate|lia].
  - destruct (float_of_Z_small n ltac:(lia)) as (mx & ex & -> & Hdx & Hex & Hmx).
    rewrite SFdiv_gt_0_05 by done. rewrite Hmx, Hmy.
    assert (HP : 0 < 2 ^ (- ey)) by (apply Z.pow_pos_nonneg; lia).
    replace (n * 2 ^ (- ex) * 2 ^ (58 + ex - ey))
      with (n * 2 ^ 58 * 2 ^ (- ey)).
    2:{ rewrite <- !Z.mul_assoc, <- !Z.pow_add_r by lia. do 2 f_equal. lia. }
    rewrite Z.mul_assoc, <- (Z.mul_lt_mono_pos_r (2 ^ (- ey))) by done.
    change (2 ^ 58) with 288230376151711744.
    change (2 ^ 52) with 4503599627370496 in Hs. lia.
Qed.

(** ** is_good_node *)

Lemma is_good_node_spec img :
  np_size img ≠ 0%nat → Z.of_nat (np_size img) < 2 ^ 52 →
  is_good_node img
  = Return (bool_decide (np_size img < 20 * count_nonzero img)%nat).
Proof.
  intros Hne Hlt. unfold is_good_node. cbv zeta.
  pose proof (count_nonzero_le_size img) as Hle.
  destruct (np_size img) as [|n] eqn:En; [done|]. rewrite <- En in *. f_equal.
  pose proof (good_ratio_spec (Z.of_nat (count_nonzero img)) (Z.of_nat (np_size img))
                ltac:(lia) ltac:(lia)) as Hspec.
  destruct (SFltb _ _); symmetry.
  - apply bool_decide_eq_true_2. destruct Hspec as [Hspec _].
    specialize (Hspec eq_refl). lia.
  - apply bool_decide_eq_false_2. intros Hc. destruct Hspec as [_ Hspec].
    by discriminate Hspec; lia.
Qed.

Lemma is_good_node_mono img img' :
  np_size img' = np_size img →
  (count_nonzero img' ≤ count_nonzero img)%nat →
  Z.of_nat (np_size img) < 2 ^ 52 →
  is_good_node img' = Return true → is_good_node img = Return true.
Proof.
  intros Hsz Hle Hlt Hgood.
  assert (Hne : np_size img ≠ 0%nat).
  { intros Hz. unfold is_good_node in Hgood. by rewrite Hsz, Hz in Hgood. }
  rewrite is_good_node_spec in Hgood by (rewrite Hsz; done).
  rewrite is_good_node_spec by done.
  injection Hgood as Hgood. apply bool_decide_eq_true in Hgood.
  f_equal. apply bool_decide_eq_true_2. lia.
Qed.

(** C9, as stated, fails on the arrays without pixels: they are all-zero
    images, of sizes such as 0x0 and 2x0, and the call does not return false
    on them, it raises [ZeroDivisionError]. *)
Lemma empty_image_raises :
  count_nonzero [] = 0%nat ∧ count_nonzero [[]; []] = 0%nat
  ∧ is_good_node [] = Raise ZeroDivisionError
  ∧ is_good_node [[]; []] = Raise ZeroDivisionError
  ∧ is_good_node [] ≠ Return false.
Proof. repeat split; try reflexivity. discriminate. Qed.

(** C9, amended.  On an image with at least one and fewer than 2^52
    pixels, is_good_node returns a boolean, and it returns true exactly
    when the fraction of nonzero pixels strictly exceeds 5/100: the binary64
    division and comparison with 0.05 decide the exact inequality.  In
    particular an all-zero image gives false and an image with 10% nonzero
    pixels gives true. *)
Theorem is_good_node_exceeds_threshold img :
  np_size img ≠ 0%nat → Z.of_nat (np_size img) < 2 ^ 52 →
  (∃ b, is_good_node img = Return b)
  ∧ (is_good_node img = Return true
     ↔ (5 * np_size img < 100 * count_nonzero img)%nat)
  ∧ (count_nonzero img = 0%nat → is_good_node img = Return false)
  ∧ ((10 * count_nonzero img = np_size img)%nat →
     is_good_node img = Return true).
Proof.
  intros Hne Hlt. rewrite (is_good_node_spec img Hne Hlt).
  split; [by eexists|]. split; [|split].
  - split.
    + intros [= H%bool_decide_eq_true]. lia.
    + intros H. f_equal. apply bool_decide_eq_true_2. lia.
  - intros H0. f_equal. apply bool_decide_eq_false_2. lia.
  - intros H10. f_equal. apply bool_decide_eq_true_2. lia.
Qed.

Lemma is_good_node_exceeds_threshold_witness :
  np_size [[0; 0; 0; 0; 0; 0; 0; 0; 0; 255]] ≠ 0%nat
  ∧ Z.of_nat (np_size [[0; 0; 0; 0; 0; 0; 0; 0; 0; 255]]) < 2 ^ 52
  ∧ is_good_node [[0; 0; 0; 0; 0; 0; 0; 0; 0; 255]] = Return true.
Proof.
  assert (H1 : np_size [[0; 0; 0; 0; 0; 0; 0; 0; 0; 255]] ≠ 0%nat) by discriminate.
  assert (H2 : Z.of_nat (np_size [[0; 0; 0; 0; 0; 0; 0; 0; 0; 255]]) < 2 ^ 52)
    by reflexivity.
  split; [exact H1|]. split; [exact H2|].
  exact (proj2 (proj2 (proj2
    (is_good_node_exceeds_threshold [[0; 0; 0; 0; 0; 0; 0; 0; 0; 255]] H1 H2)))
    eq_refl).
Defined.

(** The only exception of is_good_node is [ZeroDivisionError], raised
    exactly on the arrays without pixels. *)
Theorem is_good_node_raises_iff_empty h w img e :
  has_shape h w img →
  is_good_node img = Raise e ↔ (h = 0 ∨ w = 0)%nat ∧ e = ZeroDivisionError.
Proof.
  intros Hs. unfold is_good_node. rewrite (np_size_shape h w) by done.
  destruct (h * w)%nat eqn:E; split.
  - intros [= <-]. split; [lia|done].
  - by intros [_ ->].
  - done.
  - intros [? _]. lia.
Qed.

Lemma is_good_node_raises_iff_empty_witness :
  has_shape 0 3 [] ∧ is_good_node [] = Raise ZeroDivisionError.
Proof.
  assert (H : has_shape 0 3 []) by (split; [reflexivity|constructor]).
  split; [exact H|].
  exact (proj2 (is_good_node_raises_iff_empty 0 3 [] ZeroDivisionError H)
           (conj (or_introl eq_refl) eq_refl)).
Defined.

(** On an array of fewer than 2^52 pixels the binary64 comparison with 0.05
    is exact: the node is good if and only if more than one pixel in twenty
    is nonzero. *)
Theorem is_good_node_threshold img :
  np_size img ≠ 0%nat → Z.of_nat (np_size img) < 2 ^ 52 →
  is_good_node img
  = Return (bool_decide (np_size img < 20 * count_nonzero img)%nat).
Proof. apply is_good_node_spec. Qed.

Lemma is_good_node_threshold_witness :
  np_size [[0; 255]] ≠ 0%nat ∧ Z.of_nat (np_size [[0; 255]]) < 2 ^ 52
  ∧ is_good_node [[0; 255]] = Return true.
Proof.
  assert (H1 : np_size [[0; 255]] ≠ 0%nat) by discriminate.
  assert (H2 : Z.of_nat (np_size [[0; 255]]) < 2 ^ 52) by reflexivity.
  split; [exact H1|]. split; [exact H2|].
  exact (is_good_node_threshold [[0; 255]] H1 H2).
Defined.

(** Masking cannot make a shred good: a shred whose masked version is a
    good node is a good node. *)
Theorem good_masked_shred_was_good h w shred mask out :
  has_shape h w shred → has_shape h w mask →
  Z.of_nat (h * w) < 2 ^ 52 →
  masked_shred shred mask = Return (Some out) →
  is_good_node out = Return true →
  is_good_node shred = Return true.
Proof.
  intros Hs Hm Hlt Hout.
  destruct (masked_shred_Some h w shred mask out Hs Hm Hout) as (-> & _ & _).
  apply is_good_node_mono.
  - apply np_size_imap2d.
  - apply count_nonzero_masked.
  - by rewrite (np_size_shape h w).
Qed.

Lemma good_masked_shred_was_good_witness :
  has_shape 1 2 [[255; 0]] ∧ has_shape 1 2 [[1; 1]]
  ∧ Z.of_nat (1 * 2) < 2 ^ 52
  ∧ masked_shred [[255; 0]] [[1; 1]] = Return (Some [[255; 0]])
  ∧ is_good_node [[255; 0]] = Return true.
Proof.
  assert (H1 : Z.of_nat (1 * 2) < 2 ^ 52) by reflexivity.
  assert (H2 : masked_shred [[255; 0]] [[1; 1]] = Return (Some [[255; 0]]))
    by reflexivity.
  assert (H3 : is_good_node [[255; 0]] = Return true)
    by (vm_compute; reflexivity).
  split; [apply has_shape_1_2|]. split; [apply has_shape_1_2|].
  split; [exact H1|]. split; [exact H2|].
  exact (good_masked_shred_was_good 1 2 [[255; 0]] [[1; 1]] [[255; 0]]
           (has_shape_1_2 255 0) (has_shape_1_2 1 1) H1 H2 H3).
Defined.

(** A shred masked by zeros is not a good node. *)
Theorem zero_mask_is_never_good h w shred mask :
  has_shape h w shred → has_shape h w mask →
  (h * w ≠ 0)%nat → Z.of_nat (h * w) < 2 ^ 52 →
  (∀ r c k, pixel mask r c = Some k → k = 0) →
  ∃ out, masked_shred shred mask = Return (Some out)
    ∧ is_good_node out = Return false.
Proof.
  intros Hs Hm Hne Hlt Hz. eexists. split.
  - apply (masked_shred_returns h w); [done..| |done].
    by apply zero_mask_is_uint8.
  - assert (Hsz : np_size (imap2d
        (λ r c v, if bool_decide (pixel mask r c = Some 0) then 0 else v) shred)
        = (h * w)%nat) by (by rewrite np_size_imap2d, (np_size_shape h w)).
    rewrite is_good_node_spec by (rewrite Hsz; done).
    rewrite (masked_zero_mask h w) by done. apply f_equal.
    apply bool_decide_eq_false_2. lia.
Qed.

Lemma zero_mask_is_never_good_witness :
  has_shape 1 2 [[255; 0]] ∧ has_shape 1 2 [[0; 0]]
  ∧ (1 * 2 ≠ 0)%nat ∧ Z.of_nat (1 * 2) < 2 ^ 52
  ∧ (∀ r c k, pixel [[0; 0]] r c = Some k → k = 0)
  ∧ ∃ out, masked_shred [[255; 0]] [[0; 0]] = Return (Some out)
      ∧ is_good_node out = Return false.
Proof.
  assert (H0 : (1 * 2 ≠ 0)%nat) by discriminate.
  assert (H1 : Z.of_nat (1 * 2) < 2 ^ 52) by reflexivity.
  assert (H2 : ∀ r c k, pixel [[0; 0]] r c = Some k → k = 0).
  { intros [|r] [|[|c]] k; cbn; intros [= <-]; reflexivity. }
  split; [apply has_shape_1_2|]. split; [apply has_shape_1_2|].
  split; [exact H0|]. split; [exact H1|]. split; [exact H2|].
  exact (zero_mask_is_never_good 1 2 [[255; 0]] [[0; 0]]
           (has_shape_1_2 255 0) (has_shape_1_2 0 0) H0 H1 H2).
Defined.

(** ** real_distance *)

Lemma real_distance_zero `{Countable K} (key1 key2 : K) edges :
  real_distance key1 key2 edges = 0 ↔ ∃ s, edges !! key1 = Some s ∧ key2 ∈ s.
Proof.
  unfold real_distance. destruct (edges !! key1) as [s|].
  - case_bool_decide; split; try done; [eauto|]. by intros (? & [= <-] & ?).
  - split; [done|]. by intros (? & [=] & _).
Qed.

Lemma real_distance_cases `{Countable K} (key1 key2 : K) edges :
  real_distance key1 key2 edges = 0 ∨ real_distance key1 key2 edges = 1.
Proof.
  unfold real_distance. destruct (edges !! key1); [case_bool_decide|]; auto.
Qed.

(** real_distance is 0 or 1 and raises no [KeyError]: it is 1 when [key1]
    is not a key of [edges], and when [key1] has no neighbour. *)
Theorem real_distance_missing_key `{Countable K} (key1 key2 : K) edges :
  (real_distance key1 key2 edges = 0 ∨ real_distance key1 key2 edges = 1)
  ∧ (key1 ∉ dom edges → real_distance key1 key2 edges = 1)
  ∧ (edges !! key1 = Some ∅ → real_distance key1 key2 edges = 1).
Proof.
  split; [apply real_distance_cases|]. split.
  - intros Hk%not_elem_of_dom. unfold real_distance. by rewrite Hk.
  - intros Hk. unfold real_distance. rewrite Hk.
    by rewrite bool_decide_eq_false_2 by set_solver.
Qed.

Lemma real_distance_missing_key_witness :
  ((0, 0) ∉ dom (∅ : gmap point (gset point)))
  ∧ real_distance (0, 0) (0, 1) (∅ : gmap point (gset point)) = 1.
Proof.
  assert (H : (0, 0) ∉ dom (∅ : gmap point (gset point))).
  { rewrite dom_empty_L. apply not_elem_of_empty. }
  split; [exact H|].
  exact (proj1 (proj2 (real_distance_missing_key (0, 0) (0, 1)
                         (∅ : gmap point (gset point)))) H).
Defined.

Lemma real_distance_has_edge g a b :
  real_distance a b (nx.adj g) = 0 ↔ nx.has_edge g a b.
Proof. apply real_distance_zero. Qed.

(** On the adjacency of a graph returned by cut_to_shreds, the distance
    is 0 exactly between two nodes of which one is among the four int64
    neighbours of the other and one passes the bounds test; when no int64
    operation can wrap around, that is between a node and a lattice
    neighbour, both with their slices inside the document.  The distance
    is symmetric. *)
Theorem real_distance_on_shred_graph size shred_config g a b :
  cut_to_shreds_returns size shred_config g →
  (real_distance a b (nx.adj g) = 0
   ↔ a ∈ nx.nodes g ∧ b ∈ nx.nodes g ∧ b ∈ neighbors shred_config a
     ∧ (accepted size shred_config a ∨ accepted size shred_config b))
  ∧ (no_overflow size shred_config →
     (real_distance a b (nx.adj g) = 0
      ↔ a ∈ nx.nodes g ∧ lattice_step shred_config a b
        ∧ in_bounds size shred_config a ∧ in_bounds size shred_config b))
  ∧ real_distance a b (nx.adj g) = real_distance b a (nx.adj g).
Proof.
  intros Hg. destruct (returns_spec _ _ _ Hg) as (W & N & A & E).
  split; [by rewrite real_distance_has_edge, E|]. split.
  { intros Hno. rewrite real_distance_has_edge.
    by apply returns_spec_no_overflow. }
  assert (Hsym : ∀ x y, nx.has_edge g x y → nx.has_edge g y x).
  { intros x y (Hx & Hy & Hs & Hacc)%E. apply E.
    split; [done|]. split; [done|]. split.
    - apply neighbors_sym; [|done]. apply (reach_range size shred_config).
      by apply N.
    - destruct Hacc; auto. }
  destruct (real_distance_cases a b (nx.adj g)) as [Hab|Hab],
           (real_distance_cases b a (nx.adj g)) as [Hba|Hba]; try congruence.
  - apply real_distance_has_edge, Hsym, real_distance_has_edge in Hab. congruence.
  - apply real_distance_has_edge, Hsym, real_distance_has_edge in Hba. congruence.
Qed.

Lemma real_distance_on_shred_graph_witness :
  cut_to_shreds_returns (220, 220) config_A graph_A
  ∧ real_distance (0, 0) (0, 110) (nx.adj graph_A)
    = real_distance (0, 110) (0, 0) (nx.adj graph_A).
Proof.
  split; [exact graph_A_returned|].
  exact (proj2 (proj2 (real_distance_on_shred_graph (220, 220) config_A graph_A
                         (0, 0) (0, 110) graph_A_returned))).
Defined.

(** real_distance is no metric: for nonzero offsets the distance of a
    position to itself is 1 on a graph returned by cut_to_shreds. *)
Theorem real_distance_to_itself size shred_config g a :
  right shred_config ≠ (0, 0) → bottom shred_config ≠ (0, 0) →
  cut_to_shreds_returns size shred_config g →
  real_distance a a (nx.adj g) = 1.
Proof.
  intros Hr Hb Hg. destruct (returns_spec _ _ _ Hg) as (W & N & A & E).
  destruct (real_distance_cases a a (nx.adj g)) as [H0|]; [exfalso|done].
  apply real_distance_has_edge, E in H0 as (Ha & _ & Hs & _).
  apply neighbors_self in Hs as [?|?]; [done|done|].
  apply (reach_range size shred_config). by apply N.
Qed.

Lemma real_distance_to_itself_witness :
  right config_A ≠ (0, 0) ∧ bottom config_A ≠ (0, 0)
  ∧ cut_to_shreds_returns (220, 220) config_A graph_A
  ∧ real_distance (0, 0) (0, 0) (nx.adj graph_A) = 1.
Proof.
  assert (H1 : right config_A ≠ (0, 0)) by discriminate.
  assert (H2 : bottom config_A ≠ (0, 0)) by discriminate.
  split; [exact H1|]. split; [exact H2|]. split; [exact graph_A_returned|].
  exact (real_distance_to_itself (220, 220) config_A graph_A (0, 0)
           H1 H2 graph_A_returned).
Defined.

(** ** More on preserve_outermost *)

Lemma example_valid_pair : valid_pair 5 5 example_image example_mask.
Proof.
  split; [split; [reflexivity|repeat constructor]|].
  split; [split; [reflexivity|repeat constructor]|].
  split; [repeat first [apply Forall_nil_2|apply Forall_cons_2|by left|by right]|].
  split; [repeat first [apply Forall_nil_2|apply Forall_cons_2|lia]|].
  exists 0%nat, 0%nat, 0. split; [reflexivity|lia].
Qed.

Lemma outside_valid_pair : valid_pair 1 2 [[255; 0]] [[0; 0]].
Proof.
  split; [apply has_shape_1_2|]. split; [apply has_shape_1_2|].
  split; [repeat first [apply Forall_nil_2|apply Forall_cons_2|by left|by right]|].
  split; [repeat first [apply Forall_nil_2|apply Forall_cons_2|lia]|].
  exists 0%nat, 0%nat, 0. split; [reflexivity|lia].
Qed.

(** On valid inputs the filter returns the pixels of the seed's region. *)
Lemma preserve_outermost_valid h w img fg :
  valid_pair h w img fg →
  ∃ seed,
    argwhere_eq (threshold_binary_inv fg 254 255) 255 !! 0%nat = Some seed
    ∧ opened (with_outside_of img fg) seed
    ∧ preserve_outermost img fg
      = Return (keep_region
                  (fill_region (with_outside_of img fg)
                               (fill_mask (with_outside_of img fg)) seed) img).
Proof.
  intros Hv. destruct (valid_pair_seed _ _ _ _ Hv) as [seed Hs].
  destruct Hv as (Himg & Hfg & Hb & _). exists seed. split; [done|]. split.
  - by apply (seed_opened h w).
  - by apply (preserve_outermost_seeded h w).
Qed.

(** On valid inputs the filter returns an array of the input's shape,
    binary as the input; it only erases: each pixel is the input's or 0, and
    the number of nonzero pixels does not grow. *)
Theorem preserve_outermost_only_erases h w img fg :
  valid_pair h w img fg →
  ∃ out, preserve_outermost img fg = Return out
    ∧ has_shape h w out ∧ is_binary out
    ∧ (∀ r c v, pixel img r c = Some v →
         pixel out r c = Some v ∨ pixel out r c = Some 0)
    ∧ (count_nonzero out ≤ count_nonzero img)%nat.
Proof.
  intros Hv. destruct (preserve_outermost_valid _ _ _ _ Hv) as (seed & _ & _ & ->).
  destruct Hv as (Himg & Hfg & Hb & _).
  eexists. split; [done|]. split; [by apply has_shape_keep_region|].
  split; [by apply is_binary_keep_region|]. split.
  - intros r c v Hv. rewrite pixel_keep_region, Hv. simpl.
    case_bool_decide; auto.
  - apply count_nonzero_imap2d_le. intros r c v. by case_bool_decide.
Qed.

Lemma preserve_outermost_only_erases_witness :
  valid_pair 5 5 example_image example_mask
  ∧ ∃ out, preserve_outermost example_image example_mask = Return out
      ∧ has_shape 5 5 out ∧ is_binary out
      ∧ (∀ r c v, pixel example_image r c = Some v →
           pixel out r c = Some v ∨ pixel out r c = Some 0)
      ∧ (count_nonzero out ≤ count_nonzero example_image)%nat.
Proof.
  split; [exact example_valid_pair|].
  exact (preserve_outermost_only_erases 5 5 example_image example_mask
           example_valid_pair).
Defined.

(** What is kept: with the seed the first element of
    [np.argwhere(outside_mask == 255)], a pixel keeps its value if it is
    connected to the seed through 4-neighbours that are white in
    [with_outside], and is set to 0 otherwise.  The seed's pixel is kept. *)
Theorem preserve_outermost_keeps_seed_region h w img fg :
  valid_pair h w img fg →
  ∃ seed out,
    argwhere_eq (threshold_binary_inv fg 254 255) 255 !! 0%nat = Some seed
    ∧ preserve_outermost img fg = Return out
    ∧ pixel out seed.1 seed.2 = pixel img seed.1 seed.2
    ∧ ∀ r c v, pixel img r c = Some v →
        (fill_reach (with_outside_of img fg) seed (r, c) → pixel out r c = Some v)
        ∧ (¬ fill_reach (with_outside_of img fg) seed (r, c) → pixel out r c = Some 0).
Proof.
  intros Hv. destruct (preserve_outermost_valid _ _ _ _ Hv) as (seed & Hs & Ho & ->).
  destruct Hv as (Himg & Hfg & Hb & _).
  assert (Hwo : has_shape h w (with_outside_of img fg))
    by by apply has_shape_with_outside.
  assert (Hbwo : is_binary (with_outside_of img fg))
    by by apply is_binary_with_outside.
  pose proof (fill_region_reach h w _ seed Hwo Hbwo Ho) as Hreach.
  exists seed. eexists. split; [done|]. split; [done|]. split.
  - rewrite pixel_keep_region. destruct (pixel img seed.1 seed.2); [|done]. simpl.
    rewrite bool_decide_eq_true_2; [done|].
    replace (seed.1, seed.2) with seed by by destruct seed.
    apply Hreach. constructor.
  - intros r c v Hv. rewrite pixel_keep_region, Hv. simpl. split; intros Hr.
    + by rewrite bool_decide_eq_true_2 by by apply Hreach.
    + by rewrite bool_decide_eq_false_2 by by rewrite Hreach.
Qed.

Lemma preserve_outermost_keeps_seed_region_witness :
  valid_pair 5 5 example_image example_mask
  ∧ ∃ seed out,
      argwhere_eq (threshold_binary_inv example_mask 254 255) 255 !! 0%nat
      = Some seed
      ∧ preserve_outermost example_image example_mask = Return out
      ∧ pixel out seed.1 seed.2 = pixel example_image seed.1 seed.2
      ∧ ∀ r c v, pixel example_image r c = Some v →
          (fill_reach (with_outside_of example_image example_mask) seed (r, c)
           → pixel out r c = Some v)
          ∧ (¬ fill_reach (with_outside_of example_image example_mask) seed (r, c)
             → pixel out r c = Some 0).
Proof.
  split; [exact example_valid_pair|].
  exact (preserve_outermost_keeps_seed_region 5 5 example_image example_mask
           example_valid_pair).
Defined.

(** Where every pixel is opened, the region of any seed is the whole array. *)
Lemma fill_reach_everywhere h w wo seed :
  (∀ r c, (r < h)%nat → (c < w)%nat → opened wo (r, c)) →
  (seed.1 < h)%nat → (seed.2 < w)%nat →
  ∀ r c, (r < h)%nat → (c < w)%nat → fill_reach wo seed (r, c).
Proof.
  intros Ho Hs1 Hs2.
  assert (Hleft : ∀ r c, (r < h)%nat → (c < w)%nat →
            fill_reach wo seed (r, c) → fill_reach wo seed (r, 0%nat)).
  { intros r c Hr. induction c as [|c IH]; [done|]. intros Hc Hrc.
    apply IH; [lia|]. apply fill_reach_step with (r, S c); [done| |apply Ho; lia].
    unfold neighbours4. cbn [fst snd]. set_solver. }
  assert (Hup : ∀ r, (r < h)%nat →
            fill_reach wo seed (r, 0%nat) → fill_reach wo seed (0%nat, 0%nat)).
  { intros r. induction r as [|r IH]; [done|]. intros Hr Hrc.
    apply IH; [lia|]. apply fill_reach_step with (S r, 0%nat); [done| |apply Ho; lia].
    unfold neighbours4. cbn [fst snd]. set_solver. }
  assert (H00 : fill_reach wo seed (0%nat, 0%nat)).
  { apply (Hup seed.1 Hs1), (Hleft seed.1 seed.2 Hs1 Hs2).
    replace (seed.1, seed.2) with seed by by destruct seed. constructor. }
  assert (Hdown : ∀ r, (r < h)%nat → fill_reach wo seed (r, 0%nat)).
  { intros r. induction r as [|r IH]; [done|]. intros Hr.
    apply fill_reach_step with (r, 0%nat); [apply IH; lia| |apply Ho; lia].
    unfold neighbours4. cbn [fst snd]. set_solver. }
  intros r c Hr. induction c as [|c IH]; intros Hc; [by apply Hdown|].
  apply fill_reach_step with (r, c); [apply IH; lia| |apply Ho; lia].
  unfold neighbours4. cbn [fst snd]. set_solver.
Qed.

(** A foreground mask without any pixel of value 255 puts the whole array
    outside the document: the filter returns the image unchanged. *)
Theorem preserve_outermost_without_document h w img fg :
  valid_pair h w img fg →
  (∀ r c m, pixel fg r c = Some m → m ≠ 255) →
  preserve_outermost img fg = Return img.
Proof.
  intros Hv Hout.
  destruct (preserve_outermost_valid _ _ _ _ Hv) as (seed & Hs & Ho & ->).
  destruct Hv as (Himg & Hfg & Hb & Hu & _).
  assert (Hwo : has_shape h w (with_outside_of img fg))
    by by apply has_shape_with_outside.
  assert (Hbwo : is_binary (with_outside_of img fg))
    by by apply is_binary_with_outside.
  assert (Hall : ∀ r c, (r < h)%nat → (c < w)%nat →
            opened (with_outside_of img fg) (r, c)).
  { intros r c Hr Hc. apply opened_with_outside; [done|].
    destruct (proj2 (has_shape_pixel h w img r c Himg)) as [i Hi]; [done|].
    destruct (proj2 (has_shape_pixel h w fg r c Hfg)) as [m Hm]; [done|].
    exists i, m. split; [done|]. split; [done|]. right.
    assert (0 ≤ m ≤ 255).
    { apply pixel_Some in Hm as (row & Hrow & Hcol).
      pose proof (Forall_lookup_1 _ _ _ _ Hu Hrow) as Hf. simpl in Hf.
      apply (Forall_lookup_1 _ _ _ _ Hf Hcol). }
    pose proof (Hout _ _ _ Hm). lia. }
  assert (Hseed : (seed.1 < h)%nat ∧ (seed.2 < w)%nat).
  { apply (has_shape_pixel h w (with_outside_of img fg)); [done|].
    unfold opened in Ho. by eexists. }
  f_equal. unfold keep_region. rewrite <- (imap2d_id img) at 2.
  apply imap2d_ext. intros r c v Hv. rewrite bool_decide_eq_true_2; [done|].
  apply (fill_region_reach h w); [done..|].
  destruct (proj1 (has_shape_pixel h w img r c Himg)) as [Hr Hc]; [by eexists|].
  apply (fill_reach_everywhere h w); [done|apply Hseed..|done|done].
Qed.

Lemma preserve_outermost_without_document_witness :
  valid_pair 1 2 [[255; 0]] [[0; 0]]
  ∧ (∀ r c m, pixel [[0; 0]] r c = Some m → m ≠ 255)
  ∧ preserve_outermost [[255; 0]] [[0; 0]] = Return [[255; 0]].
Proof.
  assert (H : ∀ r c m, pixel [[0; 0]] r c = Some m → m ≠ 255).
  { intros [|r] [|[|c]] k; cbn; intros [= <-]; discriminate. }
  split; [exact outside_valid_pair|]. split; [exact H|].
  exact (preserve_outermost_without_document 1 2 [[255; 0]] [[0; 0]]
           outside_valid_pair H).
Defined.

(** Filtering cannot make an image good: an image whose filtered version
    is a good node is a good node. *)
Theorem good_filtered_image_was_good h w img fg out :
  valid_pair h w img fg → Z.of_nat (h * w) < 2 ^ 52 →
  preserve_outermost img fg = Return out →
  is_good_node out = Return true → is_good_node img = Return true.
Proof.
  intros Hv Hlt.
  destruct (preserve_outermost_valid _ _ _ _ Hv) as (seed & _ & _ & ->).
  destruct Hv as (Himg & _). intros [= <-]. apply is_good_node_mono.
  - apply np_size_imap2d.
  - apply count_nonzero_imap2d_le. intros r c v. by case_bool_decide.
  - by rewrite (np_size_shape h w).
Qed.

Lemma good_filtered_image_was_good_witness :
  valid_pair 1 2 [[255; 0]] [[0; 0]] ∧ Z.of_nat (1 * 2) < 2 ^ 52
  ∧ preserve_outermost [[255; 0]] [[0; 0]] = Return [[255; 0]]
  ∧ is_good_node [[255; 0]] = Return true.
Proof.
  assert (H1 : Z.of_nat (1 * 2) < 2 ^ 52) by reflexivity.
  assert (H2 : preserve_outermost [[255; 0]] [[0; 0]] = Return [[255; 0]])
    by (vm_compute; reflexivity).
  assert (H3 : is_good_node [[255; 0]] = Return true) by (vm_compute; reflexivity).
  split; [exact outside_valid_pair|]. split; [exact H1|]. split; [exact H2|].
  exact (good_filtered_image_was_good 1 2 [[255; 0]] [[0; 0]] [[255; 0]]
           outside_valid_pair H1 H2 H3).
Defined.

(** The first element of a concatenation comes from the first part that
    is not empty. *)
Lemma head_join_imap {A B} (f : nat → A → list B) (l : list A) y :
  mjoin (imap f l) !! 0%nat = Some y →
  ∃ i x, l !! i = Some x ∧ f i x !! 0%nat = Some y
         ∧ ∀ i' x', (i' < i)%nat → l !! i' = Some x' → f i' x' = [].
Proof.
  revert f. induction l as [|x l IH]; intros f; [done|].
  rewrite imap_cons. cbn [mjoin list_join].
  destruct (f 0%nat x) as [|z zs] eqn:E.
  - rewrite app_nil_l. intros (i & x' & Hi & Hy & Hbefore)%IH.
    exists (S i), x'. split; [done|]. split; [done|].
    intros [|i'] x''; [by intros _ [= <-]|]. intros Hlt Hx. apply (Hbefore i' x''); [lia|done].
  - intros Hy. exists 0%nat, x. split; [done|]. rewrite E. split; [done|]. lia.
Qed.

(** [np.argwhere(img == v)[0]] is the first pixel of value [v] in row-major
    order. *)
Lemma argwhere_eq_first img v r c :
  argwhere_eq img v !! 0%nat = Some (r, c) →
  pixel img r c = Some v
  ∧ ∀ r' c', pixel img r' c' = Some v → (r < r' ∨ (r = r' ∧ c ≤ c'))%nat.
Proof.
  intros Hhd. split.
  { apply elem_of_argwhere_eq. by apply list_elem_of_lookup_2 in Hhd. }
  unfold argwhere_eq in Hhd.
  apply head_join_imap in Hhd as (i & row & Hrow & Hin & Hrows).
  apply head_join_imap in Hin as (j & x & Hx & Hsing & Hcols).
  case_bool_decide as Hv; [|done]. injection Hsing as -> ->.
  intros r' c' (row' & Hr' & Hc')%pixel_Some.
  destruct (decide (r' < r)%nat) as [Hlt|Hge].
  - exfalso. pose proof (Hrows r' row' Hlt Hr') as Hnil.
    assert (Hin : (r', c') ∈ ([] : list (nat * nat))); [|by apply elem_of_nil in Hin].
    rewrite <- Hnil. apply list_elem_of_join. eexists. split.
    2:{ apply (elem_of_lookup_imap_2
                 (λ c x, if bool_decide (x = v) then [(r', c)] else []) row' v c' Hc'). }
    cbv beta. rewrite bool_decide_eq_true_2 by done. left.
  - destruct (decide (r' = r)) as [->|Hne]; [|lia]. right. split; [done|].
    assert (row' = row) as -> by congruence.
    destruct (decide (c' < c)%nat) as [Hltc|]; [|lia]. exfalso.
    pose proof (Hcols c' v Hltc Hc') as Hnil.
    by rewrite bool_decide_eq_true_2 in Hnil.
Qed.

(** The seed of the flood fill is the first pixel, in row-major order,
    where the foreground mask is not 255. *)
Theorem seed_is_first_outside_pixel h w img fg :
  valid_pair h w img fg →
  ∃ seed m,
    argwhere_eq (threshold_binary_inv fg 254 255) 255 !! 0%nat = Some seed
    ∧ pixel fg seed.1 seed.2 = Some m ∧ m ≠ 255
    ∧ ∀ r c k, pixel fg r c = Some k → k ≠ 255 →
        (seed.1 < r ∨ (seed.1 = r ∧ seed.2 ≤ c))%nat.
Proof.
  intros Hv. destruct (valid_pair_seed _ _ _ _ Hv) as [[r0 c0] Hs].
  destruct Hv as (_ & _ & _ & Hu & _).
  assert (Hrange : ∀ r c k, pixel fg r c = Some k → 0 ≤ k ≤ 255).
  { intros r c k (row & Hrow & Hcol)%pixel_Some.
    pose proof (Forall_lookup_1 _ _ _ _ Hu Hrow) as Hf. simpl in Hf.
    apply (Forall_lookup_1 _ _ _ _ Hf Hcol). }
  destruct (argwhere_eq_first _ _ _ _ Hs) as [Hp Hfirst].
  unfold threshold_binary_inv in Hp, Hfirst. rewrite pixel_map2d in Hp.
  destruct (pixel fg r0 c0) as [m|] eqn:Em; [|done]. simpl in Hp.
  exists (r0, c0), m. split; [done|]. cbn [fst snd]. split; [done|]. split.
  - destruct (Z.gtb_spec m 254); [done|lia].
  - intros r c k Hk Hne. apply Hfirst. rewrite pixel_map2d, Hk. simpl.
    pose proof (Hrange _ _ _ Hk). destruct (Z.gtb_spec k 254); [lia|done].
Qed.

Lemma seed_is_first_outside_pixel_witness :
  valid_pair 5 5 example_image example_mask
  ∧ ∃ seed m,
      argwhere_eq (threshold_binary_inv example_mask 254 255) 255 !! 0%nat
      = Some seed
      ∧ pixel example_mask seed.1 seed.2 = Some m ∧ m ≠ 255
      ∧ ∀ r c k, pixel example_mask r c = Some k → k ≠ 255 →
          (seed.1 < r ∨ (seed.1 = r ∧ seed.2 ≤ c))%nat.
Proof.
  split; [exact example_valid_pair|].
  exact (seed_is_first_outside_pixel 5 5 example_image example_mask
           example_valid_pair).
Defined.

(** ** How the graph depends on the document and on the offsets *)

(** The int64 neighbours are the lattice neighbours, stored as int64. *)
Lemma elem_of_neighbors_lattice cfg p q :
  q ∈ neighbors cfg p
  ↔ ∃ q', lattice_step cfg p q' ∧ q = (int64 q'.1, int64 q'.2).
Proof.
  rewrite elem_of_neighbors. unfold np_sub, np_add, lattice_step, vsub.
  destruct p as [p1 p2], (right cfg) as [r1 r2], (bottom cfg) as [b1 b2].
  cbn [fst snd]. split.
  - intros [-> | [-> | [-> | ->]]].
    + exists (p1 - r1, p2 - r2). split; [|done].
      right; left. cbn [fst snd]. f_equal; lia.
    + exists (p1 + r1, p2 + r2). split; [|done].
      left. cbn [fst snd]. f_equal; lia.
    + exists (p1 - b1, p2 - b2). split; [|done].
      do 3 right. cbn [fst snd]. f_equal; lia.
    + exists (p1 + b1, p2 + b2). split; [|done].
      do 2 right; left. cbn [fst snd]. f_equal; lia.
  - intros ([q1 q2] & Hs & ->). cbn [fst snd] in *.
    destruct Hs as [H|[H|[H|H]]]; injection H as H1 H2;
      [right; left|left|do 3 right|do 2 right; left]; f_equal; f_equal; lia.
Qed.

Lemma accepted_mono size size' cfg cfg' p :
  shape (mask cfg') = shape (mask cfg) →
  size.1 ≤ size'.1 → size.2 ≤ size'.2 →
  accepted size cfg p → accepted size' cfg' p.
Proof. intros Hm H1 H2. unfold accepted. rewrite Hm. lia. Qed.

Lemma reach_mono size size' cfg cfg' p :
  shape (mask cfg') = shape (mask cfg) →
  size.1 ≤ size'.1 → size.2 ≤ size'.2 →
  (∀ a b, lattice_step cfg a b → lattice_step cfg' a b) →
  reach size cfg p → reach size' cfg' p.
Proof.
  intros Hm H1 H2 Hl. induction 1 as [|p q _ IH Hq Ho]; [constructor|].
  apply reach_step with p; [done| |].
  - apply elem_of_neighbors_lattice in Hq as (q' & Hs & ->).
    apply elem_of_neighbors_lattice. exists q'. split; [by apply Hl|done].
  - apply out_of_bounds_false. apply out_of_bounds_false in Ho.
    by apply (accepted_mono size size' cfg cfg').
Qed.

(** A mask that fits the document lets the root pass the bounds test. *)
Lemma in_bounds_root_accepted size cfg :
  in_bounds size cfg (0, 0) → accepted size cfg (0, 0).
Proof.
  unfold in_bounds, accepted, shape. cbn [fst snd]. intros (_ & _ & H1 & H2).
  pose proof (int64_le (0 + Z.of_nat (length (mask cfg))) ltac:(lia)).
  pose proof (int64_le (0 + Z.of_nat (width (mask cfg))) ltac:(lia)). lia.
Qed.

(** Enlarging the document removes nothing: the graph for a document at
    least as large in both dimensions has all the nodes, with the same slice
    attributes, and all the edges of the graph for the smaller document. *)
Theorem larger_document_keeps_graph size size' shred_config g g' :
  size.1 ≤ size'.1 → size.2 ≤ size'.2 →
  cut_to_shreds_returns size shred_config g →
  cut_to_shreds_returns size' shred_config g' →
  nx.nodes g ⊆ nx.nodes g'
  ∧ (∀ p, p ∈ nx.nodes g → nx.node g' !! p = nx.node g !! p)
  ∧ (∀ a b, nx.has_edge g a b → nx.has_edge g' a b).
Proof.
  intros H1 H2 (W & N & A & E)%returns_spec (W' & N' & A' & E')%returns_spec.
  assert (Hsub : nx.nodes g ⊆ nx.nodes g').
  { intros p Hp. apply N'. apply (reach_mono size size' shred_config shred_config);
      [done..|]. by apply N. }
  split; [done|]. split.
  - intros p Hp. by rewrite (A p Hp), (A' p (Hsub p Hp)).
  - intros a b (Ha & Hb & Hs & Hacc)%E. apply E'. split; [by apply Hsub|].
    split; [by apply Hsub|]. split; [done|].
    destruct Hacc as [Hacc|Hacc]; [left|right];
      by apply (accepted_mono size size' shred_config shred_config).
Qed.

Lemma larger_document_keeps_graph_witness :
  (1, 1).1 ≤ (3, 3).1 ∧ (1, 1).2 ≤ (3, 3).2
  ∧ cut_to_shreds_returns (1, 1) config_C graph_C
  ∧ cut_to_shreds_returns (3, 3) config_C graph_C_larger
  ∧ nx.nodes graph_C ⊆ nx.nodes graph_C_larger.
Proof.
  assert (H1 : (1, 1).1 ≤ (3, 3).1) by (simpl; lia).
  assert (H2 : (1, 1).2 ≤ (3, 3).2) by (simpl; lia).
  split; [exact H1|]. split; [exact H2|]. split; [exact graph_C_returned|].
  split; [exact graph_C_larger_returned|].
  exact (proj1 (larger_document_keeps_graph (1, 1) (3, 3) config_C graph_C
                  graph_C_larger H1 H2 graph_C_returned graph_C_larger_returned)).
Defined.

(** The graph depends on the offsets only through the four steps ±right,
    ±bottom: two configurations with the same mask and the same steps, as
    when right and bottom are swapped or an offset is negated, give the same
    graph. *)
Theorem graph_depends_on_offsets_up_to_sign_and_order
    size shred_config shred_config' g g' :
  mask shred_config' = mask shred_config →
  (∀ a b, lattice_step shred_config a b ↔ lattice_step shred_config' a b) →
  cut_to_shreds_returns size shred_config g →
  cut_to_shreds_returns size shred_config' g' →
  g = g'.
Proof.
  intros Hm Hl (W & N & A & E)%returns_spec (W' & N' & A' & E')%returns_spec.
  assert (HR : ∀ p, reach size shred_config p ↔ reach size shred_config' p).
  { intros p. split.
    - apply reach_mono; [by rewrite Hm|lia|lia|]. intros a b. apply Hl.
    - apply reach_mono; [by rewrite Hm|lia|lia|]. intros a b. apply Hl. }
  assert (HN : ∀ p, p ∈ nx.nodes g ↔ p ∈ nx.nodes g').
  { intros p. by rewrite N, N', HR. }
  assert (HS : ∀ a b, b ∈ neighbors shred_config a
                      ↔ b ∈ neighbors shred_config' a).
  { intros a b. rewrite !elem_of_neighbors_lattice.
    split; intros (q' & Hs & ->); exists q'; (split; [by apply Hl|done]). }
  apply nx_facts.graph_ext; [done|done| |].
  - intros p. destruct (decide (p ∈ nx.nodes g)) as [Hp|Hp].
    + rewrite (A p Hp), (A' p (proj1 (HN p) Hp)). by rewrite Hm.
    + rewrite (not_elem_of_dom_1 _ _ Hp). symmetry. apply not_elem_of_dom.
      intros Hp'. by apply Hp, HN.
  - intros a b. rewrite E, E', !HN, HS. unfold accepted. by rewrite Hm.
Qed.

Lemma graph_depends_on_offsets_up_to_sign_and_order_witness :
  (∀ a b, lattice_step config_A a b ↔ lattice_step config_A_swapped a b)
  ∧ cut_to_shreds_returns (220, 220) config_A graph_A
  ∧ cut_to_shreds_returns (220, 220) config_A_swapped graph_A_swapped
  ∧ graph_A = graph_A_swapped.
Proof.
  assert (H : ∀ a b, lattice_step config_A a b
                     ↔ lattice_step config_A_swapped a b).
  { intros a b. unfold lattice_step.
    cbn [right bottom config_A config_A_swapped].
    split; intros [?|[?|[?|?]]]; auto 6. }
  split; [exact H|]. split; [exact graph_A_returned|].
  split; [exact graph_A_swapped_returned|].
  exact (graph_depends_on_offsets_up_to_sign_and_order (220, 220) config_A
           config_A_swapped graph_A graph_A_swapped eq_refl H
           graph_A_returned graph_A_swapped_returned).
Defined.

(** With a zero right or bottom offset and a mask that fits the document,
    every node of the returned graph has a self-loop. *)
Theorem zero_offset_gives_self_loops size shred_config g p :
  right shred_config = (0, 0) ∨ bottom shred_config = (0, 0) →
  in_bounds size shred_config (0, 0) →
  cut_to_shreds_returns size shred_config g →
  p ∈ nx.nodes g → nx.has_edge g p p.
Proof.
  intros Hz Hfit Hg Hp. destruct (returns_spec _ _ _ Hg) as (W & N & A & E).
  pose proof (proj1 (N p) Hp) as Hr.
  pose proof (reach_range size shred_config p Hr) as [R1 R2].
  apply E. split; [done|]. split; [done|]. split.
  - apply elem_of_neighbors. unfold np_add.
    destruct Hz as [-> | ->]; [right; left|do 3 right]; cbn [fst snd];
      rewrite !Z.add_0_r, !int64_id by done; by destruct p.
  - left. destruct Hr as [|q p _ _ Ho]; [by apply in_bounds_root_accepted|].
    by apply out_of_bounds_false.
Qed.

Lemma zero_offset_gives_self_loops_witness :
  (right config_B = (0, 0) ∨ bottom config_B = (0, 0))
  ∧ in_bounds (3, 3) config_B (0, 0)
  ∧ cut_to_shreds_returns (3, 3) config_B graph_B
  ∧ (0, 1) ∈ nx.nodes graph_B
  ∧ nx.has_edge graph_B (0, 1) (0, 1).
Proof.
  assert (H1 : right config_B = (0, 0) ∨ bottom config_B = (0, 0))
    by (right; reflexivity).
  assert (H2 : in_bounds (3, 3) config_B (0, 0)).
  { unfold in_bounds, shape, width; simpl. lia. }
  assert (H3 : (0, 1) ∈ nx.nodes graph_B).
  { apply (bool_decide_unpack _). vm_compute. exact I. }
  split; [exact H1|]. split; [exact H2|]. split; [exact graph_B_returned|].
  split; [exact H3|].
  exact (zero_offset_gives_self_loops (3, 3) config_B graph_B (0, 1)
           H1 H2 graph_B_returned H3).
Defined.

(** ** The use of the foreground mask *)

(** preserve_outermost reads the foreground mask only through the set of
    its pixels of value 255: two uint8 masks of one shape that are 255 at the
    same positions give the same outcome, be it an array or the
    [IndexError]. *)
Theorem preserve_outermost_reads_mask_up_to_255 h w img fg fg' :
  has_shape h w fg → has_shape h w fg' →
  is_uint8 fg → is_uint8 fg' →
  (∀ r c, pixel fg r c = Some 255 ↔ pixel fg' r c = Some 255) →
  preserve_outermost img fg = preserve_outermost img fg'.
Proof.
  intros Hs Hs' Hu Hu' Hsame.
  assert (Hrange : ∀ m r c k, is_uint8 m → pixel m r c = Some k → 0 ≤ k ≤ 255).
  { intros m r c k Hm (row & Hrow & Hcol)%pixel_Some.
    pose proof (Forall_lookup_1 _ _ _ _ Hm Hrow) as Hf. simpl in Hf.
    apply (Forall_lookup_1 _ _ _ _ Hf Hcol). }
  assert (E : threshold_binary_inv fg 254 255 = threshold_binary_inv fg' 254 255).
  { apply (ndarray_ext h w); [by apply has_shape_map2d..|].
    intros r c. unfold threshold_binary_inv. rewrite !pixel_map2d.
    destruct (pixel fg r c) as [k|] eqn:Ek, (pixel fg' r c) as [k'|] eqn:Ek'; simpl.
    - pose proof (Hrange _ _ _ _ Hu Ek). pose proof (Hrange _ _ _ _ Hu' Ek').
      specialize (Hsame r c). rewrite Ek, Ek' in Hsame.
      destruct (Z.gtb_spec k 254), (Z.gtb_spec k' 254); try done.
      + assert (k = 255) as -> by lia.
        injection (proj1 Hsame eq_refl) as Hk. lia.
      + assert (k' = 255) as -> by lia.
        injection (proj2 Hsame eq_refl) as Hk. lia.
    - exfalso. assert (is_Some (pixel fg' r c)) as [? ?]; [|congruence].
      apply (has_shape_pixel h w fg' r c Hs'), (has_shape_pixel h w fg r c Hs).
      by eexists.
    - exfalso. assert (is_Some (pixel fg r c)) as [? ?]; [|congruence].
      apply (has_shape_pixel h w fg r c Hs), (has_shape_pixel h w fg' r c Hs').
      by eexists.
    - done. }
  unfold preserve_outermost. cbv zeta. by rewrite E.
Qed.

Lemma preserve_outermost_reads_mask_up_to_255_witness :
  has_shape 1 2 [[0; 255]] ∧ has_shape 1 2 [[254; 255]]
  ∧ is_uint8 [[0; 255]] ∧ is_uint8 [[254; 255]]
  ∧ (∀ r c, pixel [[0; 255]] r c = Some 255 ↔ pixel [[254; 255]] r c = Some 255)
  ∧ preserve_outermost [[255; 255]] [[0; 255]]
    = preserve_outermost [[255; 255]] [[254; 255]].
Proof.
  assert (H1 : is_uint8 [[0; 255]])
    by (repeat first [apply Forall_nil_2|apply Forall_cons_2|lia]).
  assert (H2 : is_uint8 [[254; 255]])
    by (repeat first [apply Forall_nil_2|apply Forall_cons_2|lia]).
  assert (H3 : ∀ r c, pixel [[0; 255]] r c = Some 255
                      ↔ pixel [[254; 255]] r c = Some 255).
  { intros [|r] [|[|c]]; cbn; split; intros H; done. }
  split; [apply has_shape_1_2|]. split; [apply has_shape_1_2|].
  split; [exact H1|]. split; [exact H2|]. split; [exact H3|].
  exact (preserve_outermost_reads_mask_up_to_255 1 2 [[255; 255]]
           [[0; 255]] [[254; 255]]
           (has_shape_1_2 0 255) (has_shape_1_2 254 255) H1 H2 H3).
Defined.
